(** * WikiKnowledgeGraph: graph construction engine

    A shallow embedding of the TypeScript sources of the graph engine
    (path finder, edge consolidator, sanitizer, caches, connection fetcher,
    layered graph builder, response cache) together with the properties of
    the specification that can be settled on it.

    Conventions of the embedding:
    - a JavaScript [string] is a [string] of 8-bit code units;
    - a [Map] or [Set] whose iteration order is never observed is a
      [gmap] or [gset]; one whose insertion order is observed
      ([Array.from(map.values())], [Object.values(record)]) is an
      association list in insertion order; the keys of a plain object are
      taken not to be names inherited from [Object.prototype] nor
      integer-like, as holds for identifiers of the form [Q] and digits;
    - a [while] loop that is not structurally bounded takes fuel, and the
      value [Diverges] stands for running out of it. *)

From stdpp Require Import gmap strings list fin_maps pretty.
From Stdlib Require Import ZArith Lia Ascii.

Open Scope string_scope.
Open Scope list_scope.
Open Scope stdpp_scope.
Open Scope nat_scope.

(** ** types.ts *)

Record GraphEdge := mkEdge {
  edge_id : string;
  edge_from : string;
  edge_to : string;
  edge_label : string;
  edge_arrows : string;
  edge_hidden : option bool;
  edge_category : option string
}.

(** ** lib/shortestPath.ts *)

Module ShortestPath.

Record PathResult := mkPath {
  nodeIds : list string;
  edgeIds : list string
}.

(** [PathResult | null], with one more value for an exhausted fuel. *)
Inductive result :=
| Path (p : PathResult)
| Null
| Diverges.

(** [Map<string, Array<{ neighbor; edgeId }>>] *)
Abbreviation adjacency := (gmap string (list (string * string))).
(** [Map<string, { node; edgeId }>] *)
Abbreviation parents := (gmap string (string * string)).

(** [if (!adj.has(k)) adj.set(k, [])] *)
Definition ensure (k : string) (adj : adjacency) : adjacency :=
  match adj !! k with
  | Some _ => adj
  | None => <[k := []]> adj
  end.

(** [adj.get(k)!.push(x)] *)
Definition push_to (k : string) (x : string * string) (adj : adjacency) : adjacency :=
  alter (λ l, l ++ [x]) k adj.

(** One iteration of the loop that builds the adjacency list. *)
Definition add_edge (adj : adjacency) (e : GraphEdge) : adjacency :=
  let adj := ensure (edge_from e) adj in
  let adj := ensure (edge_to e) adj in
  let adj := push_to (edge_from e) (edge_to e, edge_id e) adj in
  push_to (edge_to e) (edge_from e, edge_id e) adj.

Definition build_adjacency (edges : list GraphEdge) : adjacency :=
  foldl add_edge ∅ edges.

(** [adj.get(current) || []] *)
Definition neighbors (adj : adjacency) (current : string) : list (string * string) :=
  default [] (adj !! current).

(** The reconstruction loop [while (parent.has(cur))]; [nodeIds] and
    [edgeIds] grow by [push]. *)
Fixpoint walk_back (fuel : nat) (parent : parents) (cur : string)
    (nodeIds edgeIds : list string) : option (list string * list string) :=
  match parent !! cur with
  | None => Some (nodeIds, edgeIds)
  | Some (node, edgeId) =>
      match fuel with
      | O => None
      | S fuel' => walk_back fuel' parent node (nodeIds ++ [node]) (edgeIds ++ [edgeId])
      end
  end.

Definition reconstruct (parent : parents) (endId : string) : result :=
  match walk_back (size parent) parent endId [endId] [] with
  | Some (ns, es) => Path (mkPath (reverse ns) (reverse es))
  | None => Diverges
  end.

(** The [for (const { neighbor, edgeId } of neighbors)] loop of one
    dequeued node: either it returns from the function ([inl]) or it
    falls through with the updated [visited], [parent] and [queue]. *)
Fixpoint scan (endId current : string) (nbrs : list (string * string))
    (visited : gset string) (parent : parents) (queue : list string)
    : result + (gset string * parents * list string) :=
  match nbrs with
  | [] => inr (visited, parent, queue)
  | (neighbor, edgeId) :: rest =>
      if decide (neighbor ∈ visited) then scan endId current rest visited parent queue
      else
        let visited := {[neighbor]} ∪ visited in
        let parent := <[neighbor := (current, edgeId)]> parent in
        if decide (neighbor = endId) then inl (reconstruct parent endId)
        else scan endId current rest visited parent (queue ++ [neighbor])
  end.

(** The [while (queue.length > 0)] loop. *)
Fixpoint bfs (fuel : nat) (adj : adjacency) (endId : string)
    (visited : gset string) (parent : parents) (queue : list string) : result :=
  match queue with
  | [] => Null
  | current :: queue =>
      match fuel with
      | O => Diverges
      | S fuel' =>
          match scan endId current (neighbors adj current) visited parent queue with
          | inl r => r
          | inr (visited, parent, queue) => bfs fuel' adj endId visited parent queue
          end
      end
  end.

Definition findShortestPath (edges : list GraphEdge) (startId endId : string) : result :=
  if decide (startId = endId) then Path (mkPath [startId] [])
  else
    let adj := build_adjacency edges in
    if negb (bool_decide (is_Some (adj !! startId))) || negb (bool_decide (is_Some (adj !! endId)))
    then Null
    else bfs (size adj) adj endId {[startId]} ∅ [startId].

(** [findAllPairPaths]: the inner loop over [j > i], then the outer one. *)
Fixpoint pairs_from (edges : list GraphEdge) (a : string) (rest : list string)
    : list result :=
  match rest with
  | [] => []
  | b :: rest' => findShortestPath edges a b :: pairs_from edges a rest'
  end.

Fixpoint all_pairs (edges : list GraphEdge) (ids : list string) : list result :=
  match ids with
  | [] => []
  | a :: rest => pairs_from edges a rest ++ all_pairs edges rest
  end.

Definition findAllPairPaths (edges : list GraphEdge) (initialEntityIds : list string)
    : list PathResult :=
  omap (λ r, match r with Path p => Some p | _ => None end)
       (all_pairs edges initialEntityIds).

End ShortestPath.


(** ** Insertion-ordered maps

    A JavaScript [Map] (and an object with non-numeric keys) keeps its
    entries in insertion order; writing to an existing key keeps the
    position of the entry. *)

Module OMap.

Fixpoint get {V} (k : string) (m : list (string * V)) : option V :=
  match m with
  | [] => None
  | (k', v) :: m' => if decide (k' = k) then Some v else get k m'
  end.

(** Overwrite the entry of [k], which stays where it is. *)
Fixpoint replace {V} (k : string) (v : V) (m : list (string * V)) : list (string * V) :=
  match m with
  | [] => []
  | (k', v') :: m' => if decide (k' = k) then (k', v) :: m' else (k', v') :: replace k v m'
  end.

Definition set {V} (k : string) (v : V) (m : list (string * V)) : list (string * V) :=
  match get k m with
  | Some _ => replace k v m
  | None => m ++ [(k, v)]
  end.

Definition has {V} (k : string) (m : list (string * V)) : bool :=
  match get k m with Some _ => true | None => false end.

Definition values {V} (m : list (string * V)) : list V := m.*2.

End OMap.

(** ** utils/consolidateEdges.ts *)

Module Consolidate.

(** [ConsolidatedEdge extends GraphEdge]: the fields of the edge
    ([ce_edge]) and the two added ones. *)
Record ConsolidatedEdge := mkConsolidated {
  ce_edge : GraphEdge;
  labels : list string;
  count : nat
}.

Definition set_label (l : string) (e : GraphEdge) : GraphEdge :=
  mkEdge (edge_id e) (edge_from e) (edge_to e) l (edge_arrows e) (edge_hidden e)
         (edge_category e).

(** [Array.prototype.join] *)
Definition join (sep : string) (l : list string) : string := String.concat sep l.

(** [`${edge.from}-${edge.to}`] *)
Definition key (edge : GraphEdge) : string := edge_from edge +:+ "-" +:+ edge_to edge.

(** The body of the loop over the edges. *)
Definition add (edgeMap : list (string * ConsolidatedEdge)) (edge : GraphEdge)
    : list (string * ConsolidatedEdge) :=
  match OMap.get (key edge) edgeMap with
  | Some existing =>
      let labels := labels existing ++ [edge_label edge] in
      let existing :=
        mkConsolidated (set_label (join ", " labels) (ce_edge existing)) labels
                       (S (count existing)) in
      OMap.replace (key edge) existing edgeMap
  | None =>
      OMap.set (key edge) (mkConsolidated edge [edge_label edge] 1) edgeMap
  end.

Definition consolidateEdges (edges : list GraphEdge) : list ConsolidatedEdge :=
  OMap.values (foldl add [] edges).

(** [shouldHideEdge]; the visibility map is only read. *)
Definition shouldHideEdge (edge : GraphEdge) (nodeVisibilityMap : gmap string bool) : bool :=
  let fromVisible := negb (bool_decide (nodeVisibilityMap !! edge_from edge = Some false)) in
  let toVisible := negb (bool_decide (nodeVisibilityMap !! edge_to edge = Some false)) in
  negb fromVisible || negb toVisible.

End Consolidate.


(** ** Exceptions and state

    A function that can [throw] returns an [outcome]; [Diverge] is the
    outcome of a loop whose fuel ran out.  A function that also reads or
    writes the shared state (caches, network, console) is a state
    transformer over a world [W]; [try_catch] keeps the state changes made
    before the exception, as JavaScript does. *)

Inductive outcome (A : Type) :=
| Ok (a : A)
| Throw (msg : string)
| Diverge.
Arguments Ok {A} a.
Arguments Throw {A} msg.
Arguments Diverge {A}.

Definition M (W A : Type) : Type := W → outcome A * W.

Definition ret {W A} (a : A) : M W A := λ w, (Ok a, w).

Definition bind {W A B} (m : M W A) (k : A → M W B) : M W B :=
  λ w, match m w with
       | (Ok a, w') => k a w'
       | (Throw e, w') => (Throw e, w')
       | (Diverge, w') => (Diverge, w')
       end.

Definition throw {W A} (msg : string) : M W A := λ w, (Throw msg, w).

Definition diverge {W A} : M W A := λ w, (Diverge, w).

(** [try { m } catch { handler }] *)
Definition try_catch {W A} (m : M W A) (handler : string → M W A) : M W A :=
  λ w, match m w with
       | (Throw e, w') => handler e w'
       | r => r
       end.

Definition lift {W A} (o : outcome A) : M W A := λ w, (o, w).

Definition gets {W A} (f : W → A) : M W A := λ w, (Ok (f w), w).

Definition modify {W} (f : W → W) : M W unit := λ w, (Ok tt, f w).

Notation "'let*' x ':=' m 'in' k" := (bind m (λ x, k))
  (at level 200, x name, m at level 100, k at level 200, only parsing).

(** [for (const x of l) body(x)], threading an accumulator. *)
Fixpoint for_each {W A S} (body : S → A → M W S) (l : list A) (acc : S) : M W S :=
  match l with
  | [] => ret acc
  | x :: l' => let* acc' := body acc x in for_each body l' acc'
  end.

(** ** lib/sanitization.ts *)

Module Sanitization.

Definition code (c : ascii) : nat := nat_of_ascii c.

(** White space and line terminators of [String.prototype.trim], among
    the 8-bit code units. *)
Definition is_whitespace (c : ascii) : bool :=
  bool_decide (code c ∈ [9; 10; 11; 12; 13; 32; 160]).

Fixpoint trim_start (s : string) : string :=
  match s with
  | EmptyString => EmptyString
  | String c s' => if is_whitespace c then trim_start s' else s
  end.

Definition trim (s : string) : string :=
  String.rev (trim_start (String.rev (trim_start s))).

(** [toUpperCase] on the letters [a]..[z]; no other code unit maps to
    [Q] or to a digit. *)
Definition upper (c : ascii) : ascii :=
  if bool_decide (97 ≤ code c ≤ 122) then ascii_of_nat (code c - 32) else c.

Fixpoint toUpperCase (s : string) : string :=
  match s with
  | EmptyString => EmptyString
  | String c s' => String (upper c) (toUpperCase s')
  end.

Definition is_digit (c : ascii) : bool := bool_decide (48 ≤ code c ≤ 57).

Fixpoint all_digits (s : string) : bool :=
  match s with
  | EmptyString => true
  | String c s' => is_digit c && all_digits s'
  end.

(** [s.replace(/c/g, by)] for a single character [c]. *)
Fixpoint replace_all (c : ascii) (by_ : string) (s : string) : string :=
  match s with
  | EmptyString => EmptyString
  | String x s' =>
      if Ascii.eqb x c then by_ +:+ replace_all c by_ s' else String x (replace_all c by_ s')
  end.

Definition backslash : ascii := ascii_of_nat 92.
Definition double_quote : ascii := ascii_of_nat 34.
Definition single_quote : ascii := ascii_of_nat 39.
Definition newline : ascii := ascii_of_nat 10.
Definition carriage_return : ascii := ascii_of_nat 13.
Definition tab : ascii := ascii_of_nat 9.

Definition escaped (c : ascii) : string := String backslash (String c EmptyString).

Definition sanitizeEntityName (name : string) : outcome string :=
  if bool_decide (name = "") then Throw "Entity name must be a non-empty string"
  else
    let name := trim name in
    if bool_decide (name = "") then Throw "Entity name cannot be empty or whitespace only"
    else if bool_decide (200 < String.length name)
    then Throw "Entity name is too long (max 200 characters)"
    else
      let name := replace_all backslash (escaped backslash) name in
      let name := replace_all double_quote (escaped double_quote) name in
      let name := replace_all single_quote (escaped single_quote) name in
      let name := replace_all newline (escaped "n") name in
      let name := replace_all carriage_return (escaped "r") name in
      let name := replace_all tab (escaped "t") name in
      Ok name.

(** [/^Q\d+$/.test(qid)] *)
Definition isValidQid (qid : string) : bool :=
  match qid with
  | String "Q" (String d rest) => is_digit d && all_digits rest
  | _ => false
  end.

Definition sanitizeQid (qid : string) : outcome string :=
  if bool_decide (qid = "") then Throw "QID must be a non-empty string"
  else
    let qid := toUpperCase (trim qid) in
    if negb (isValidQid qid)
    then Throw ("Invalid QID format: " +:+ qid +:+
                ". Expected format: Q followed by digits (e.g., Q42)")
    else Ok qid.

(** [depth] is an integral number; [NaN] and non-numbers are excluded by
    the type, and [Math.floor] is the identity. *)
Definition validateDepth (depth : Z) : outcome nat :=
  if bool_decide (depth < 1)%Z then Throw "Depth must be at least 1"
  else if bool_decide (depth > 10)%Z then Throw "Depth cannot exceed 10 (performance limit)"
  else Ok (Z.to_nat depth).

(** The loop of [validateEntityList] that removes duplicates. *)
Fixpoint unique_trimmed (entities : list string) (seen : gset string) (unique : list string)
    : list string :=
  match entities with
  | [] => unique
  | entity :: rest =>
      let trimmed := trim entity in
      if bool_decide (trimmed = "") then unique_trimmed rest seen unique
      else if decide (trimmed ∈ seen) then unique_trimmed rest seen unique
      else unique_trimmed rest ({[trimmed]} ∪ seen) (unique ++ [trimmed])
  end.

Definition validateEntityList (entities : list string) (maxEntities : nat)
    : outcome (list string) :=
  if bool_decide (length entities = 0) then Throw "At least one entity must be provided"
  else if bool_decide (maxEntities < length entities)
  then Throw ("Too many entities (max " +:+ pretty maxEntities +:+ ")")
  else
    let unique := unique_trimmed entities ∅ [] in
    if bool_decide (length unique = 0)
    then Throw "At least one non-empty entity must be provided"
    else Ok unique.

End Sanitization.


(** ** lib/edgeCategories.ts *)

Module EdgeCategories.

Definition EDGE_CATEGORY_MAP : list (string * string) :=
  [ ("spouse", "family");
    ("father", "family");
    ("mother", "family");
    ("child", "family");
    ("sibling", "family");
    ("relative", "family");
    ("partner", "family");
    ("married name", "family");
    ("family name", "family");
    ("family", "family");
    ("stepfather", "family");
    ("stepmother", "family");
    ("educated at", "education");
    ("alma mater", "education");
    ("student of", "education");
    ("doctoral advisor", "education");
    ("doctoral student", "education");
    ("academic degree", "education");
    ("student", "education");
    ("employer", "career");
    ("occupation", "career");
    ("position held", "career");
    ("notable work", "career");
    ("field of work", "career");
    ("award received", "career");
    ("nominated for", "career");
    ("military rank", "career");
    ("profession", "career");
    ("work period (start)", "career");
    ("work period (end)", "career");
    ("country", "geographic");
    ("country of citizenship", "geographic");
    ("place of birth", "geographic");
    ("place of death", "geographic");
    ("place of burial", "geographic");
    ("residence", "geographic");
    ("headquarters location", "geographic");
    ("located in", "geographic");
    ("location", "geographic");
    ("capital", "geographic");
    ("continent", "geographic");
    ("located in the administrative territorial entity", "geographic");
    ("territory claimed by", "geographic");
    ("capital of", "geographic");
    ("country of origin", "geographic");
    ("shares border with", "geographic");
    ("located on terrain feature", "geographic");
    ("member of", "membership");
    ("member of political party", "membership");
    ("member of sports team", "membership");
    ("part of", "membership");
    ("has part", "membership");
    ("facet of", "membership");
    ("subclass of", "membership");
    ("instance of", "membership");
    ("affiliation", "membership");
    ("religious order", "membership");
    ("religion or worldview", "membership");
    ("political party", "membership");
    ("allegiance", "membership");
    ("founded by", "career");
    ("discoverer or inventor", "career");
    ("developer", "career");
    ("creator", "career");
    ("author", "career");
    ("director", "career") ].

Definition lower (c : ascii) : ascii :=
  if bool_decide (65 ≤ Sanitization.code c ≤ 90)
  then ascii_of_nat (Sanitization.code c + 32) else c.

Fixpoint toLowerCase (s : string) : string :=
  match s with
  | EmptyString => EmptyString
  | String c s' => String (lower c) (toLowerCase s')
  end.

(** [EDGE_CATEGORY_MAP[lower] || 'other'] *)
Definition categorizeEdge (label : string) : string :=
  let lower := Sanitization.trim (toLowerCase label) in
  default "other" (OMap.get lower EDGE_CATEGORY_MAP).

End EdgeCategories.

(** ** types.ts, continued *)

Record GraphNode := mkNode {
  node_id : string;
  node_label : string;
  node_group : string;
  node_shape : string;
  node_image : option string;
  node_size : nat;
  node_title : string;
  node_isInitialEntity : option bool
}.

Record GenerateMapRequest := mkRequest {
  req_names : option (list string);
  req_qids : option (list string);
  req_depth : Z
}.

Record GenerateMapResponse := mkResponse {
  resp_nodes : list GraphNode;
  resp_edges : list GraphEdge
}.

Record AutocompleteResult := mkAutocomplete {
  ac_qid : string;
  ac_label : string;
  ac_description : option string
}.

Record CachedResponse (T : Type) := mkCached {
  cr_data : T;
  cr_timestamp : Z
}.
Arguments mkCached {T} cr_data cr_timestamp.
Arguments cr_data {T} c.
Arguments cr_timestamp {T} c.

(** ** lib/cache.ts, lib/sparql.ts: data *)

Record CacheEntry (T : Type) := mkEntry {
  data : T;
  expires : Z
}.
Arguments mkEntry {T} data expires.
Arguments data {T} c.
Arguments expires {T} c.

Record ConnectionData := mkConn {
  conn_source : string;
  conn_target : string;
  conn_target_label : string;
  conn_label : string;
  conn_image : option string;
  conn_group : string;
  conn_type_label : string
}.

(** The two queries sent to the endpoint; the query text is fixed up to
    the sanitized name, respectively the [VALUES] string and the limit. *)
Inductive sparql_query :=
| LabelLookup (sanitizedName : string)
| Connections (valuesStr : string) (limit : nat).

(** One row of [results.bindings]: variable name to [value]. *)
Abbreviation binding := (gmap string string).

(** The messages handed to [onProgress]. *)
Inductive progress :=
| Resolving (name : string)
| ProcessingDepth (current total nodes : nat)
| Done (nodes edges : nat).

(** What a run does to the outside, in order: the queries it sends, the
    console lines, the progress messages, and (as a record of the run,
    not an effect of the source) every batch handed to
    [fetchBatchConnections] with the connections it returned. *)
Inductive event :=
| EvQuery (q : sparql_query)
| EvLog (text : string)
| EvProgress (msg : progress)
| EvFetched (batch : list string) (connections : list ConnectionData).

(** What is stored under a key of the response cache ([unknown]). *)
Inductive payload :=
| PGraph (g : GenerateMapResponse)
| PSearch (l : list AutocompleteResult).

(** ** The engine

    The environment of the engine is abstract: [Env] is the state of
    everything outside (network, clock, random source), [now] reads the
    clock ([Date.now()]), [http] answers a query with an error message or
    the bindings, [random] draws from [Math.random], [pause] lets time
    pass ([sleep]) and [fits] tells whether [localStorage] can hold the
    two caches ([setItem] throws when it cannot).  [stringify] is
    [JSON.stringify] on requests.

    The two [localStorage] caches have distinct key prefixes
    (["wg_qid_"], ["wg_conn_v2_"]); each is a typed map of its own, keyed
    by what follows the prefix. *)

Class Environment := {
  Env : Type;
  now : Env → Z;
  http : sparql_query → Env → (string + list binding) * Env;
  random : Env → nat * Env;
  pause : Z → Env → Env;
  fits : gmap string (CacheEntry string) →
         gmap string (CacheEntry (list ConnectionData)) → bool;
  stringify : GenerateMapRequest → string
}.

Section engine.
Context `{E : Environment}.

Record World := mkWorld {
  env : Env;
  qidStore : gmap string (CacheEntry string);
  connStore : gmap string (CacheEntry (list ConnectionData));
  responseCache : gmap string (CachedResponse payload);
  trace : list event
}.

Definition with_env (f : Env → Env) (w : World) : World :=
  mkWorld (f (env w)) (qidStore w) (connStore w) (responseCache w) (trace w).
Definition with_qidStore (f : gmap string (CacheEntry string) → gmap string (CacheEntry string))
    (w : World) : World :=
  mkWorld (env w) (f (qidStore w)) (connStore w) (responseCache w) (trace w).
Definition with_connStore
    (f : gmap string (CacheEntry (list ConnectionData)) →
         gmap string (CacheEntry (list ConnectionData)))
    (w : World) : World :=
  mkWorld (env w) (qidStore w) (f (connStore w)) (responseCache w) (trace w).
Definition with_responseCache
    (f : gmap string (CachedResponse payload) → gmap string (CachedResponse payload))
    (w : World) : World :=
  mkWorld (env w) (qidStore w) (connStore w) (f (responseCache w)) (trace w).
Definition emit (e : event) (w : World) : World :=
  mkWorld (env w) (qidStore w) (connStore w) (responseCache w) (trace w ++ [e]).

Definition log (e : event) : M World unit := modify (emit e).

(** *** lib/cache.ts *)

Definition QID_TTL : Z := 24 * 60 * 60 * 1000.
Definition CONN_TTL : Z := 60 * 60 * 1000.

(** One of the two caches inside the world. *)
Record store (T : Type) := mkStore {
  view : World → gmap string (CacheEntry T);
  over : (gmap string (CacheEntry T) → gmap string (CacheEntry T)) → World → World
}.
Arguments view {T} s w.
Arguments over {T} s f w.

Definition qid_store : store string := mkStore string qidStore with_qidStore.
Definition conn_store : store (list ConnectionData) :=
  mkStore (list ConnectionData) connStore with_connStore.

(** [t > entry.expires] *)
Definition expired {T} (t : Z) (entry : CacheEntry T) : Prop := (expires entry < t)%Z.

#[global] Instance expired_dec {T} t (entry : CacheEntry T) : Decision (expired t entry).
Proof. unfold expired. apply _. Defined.

Definition getFromStorage {T} (st : store T) (key : string) : M World (option T) :=
  λ w, match view st w !! key with
       | None => (Ok None, w)
       | Some entry =>
           if bool_decide (expired (now (env w)) entry)
           then (Ok None, over st (delete key) w)
           else (Ok (Some (data entry)), w)
       end.

(** [localStorage.setItem], which throws when the storage is full. *)
Definition setItem {T} (st : store T) (key : string) (entry : CacheEntry T) : M World unit :=
  λ w, let w' := over st (insert key entry) w in
       if fits (qidStore w') (connStore w') then (Ok tt, w')
       else (Throw "QuotaExceededError", w).

Definition evictExpired : M World unit :=
  λ w, let t := now (env w) in
       (Ok tt, with_connStore (filter (λ kv, ¬ expired t kv.2))
                 (with_qidStore (filter (λ kv, ¬ expired t kv.2)) w)).

Definition clearAllCaches : M World unit :=
  modify (λ w, with_connStore (λ _, ∅) (with_qidStore (λ _, ∅) w)).

Definition setInStorage {T} (st : store T) (key : string) (d : T) (ttl : Z) : M World unit :=
  let* t := gets (λ w, now (env w)) in
  let entry := mkEntry d (t + ttl)%Z in
  try_catch (setItem st key entry) (λ _,
    let* _ := evictExpired in
    try_catch (setItem st key entry) (λ _,
      let* _ := clearAllCaches in
      try_catch (setItem st key entry) (λ _, ret tt))).

Definition getCachedQid (name : string) : M World (option string) :=
  getFromStorage qid_store name.

Definition setCachedQid (name qid : string) : M World unit :=
  setInStorage qid_store name qid QID_TTL.

Definition getCachedConnections (qid : string) : M World (option (list ConnectionData)) :=
  getFromStorage conn_store qid.

Definition setCachedConnections (qid : string) (connections : list ConnectionData)
    : M World unit :=
  setInStorage conn_store qid connections CONN_TTL.

(** *** lib/sparql.ts *)

Definition SPARQL_RESULT_LIMIT : nat := 2000.

(** [querySparql]: the request is sent; a failed request throws. *)
Definition querySparql (query : sparql_query) : M World (list binding) :=
  λ w, let w := emit (EvQuery query) w in
       match http query (env w) with
       | (inl message, e) => (Throw message, with_env (λ _, e) w)
       | (inr bindings, e) => (Ok bindings, with_env (λ _, e) w)
       end.

Definition determineGroup (entityTypeQid : string) : string :=
  if bool_decide (entityTypeQid = "Q5") then "person"
  else if bool_decide (entityTypeQid ∈ ["Q3918"; "Q737498"; "Q3914"; "Q875538"; "Q38723"])
  then "school"
  else if bool_decide (entityTypeQid ∈ ["Q6256"; "Q3624078"; "Q1763527"]) then "country"
  else if bool_decide (entityTypeQid ∈ ["Q515"; "Q1549591"; "Q3455524"; "Q532"; "Q5119"])
  then "city"
  else if bool_decide (entityTypeQid ∈ ["Q2221906"; "Q82794"; "Q15642541"]) then "location"
  else if bool_decide (entityTypeQid ∈ ["Q43229"; "Q163740"; "Q484652"; "Q2659904"])
  then "organization"
  else if bool_decide (entityTypeQid ∈ ["Q4830453"; "Q891723"; "Q6881511"]) then "company"
  else "concept".

(** [s.split('/').pop()]: what follows the last ["/"]. *)
Fixpoint last_segment_from (cur s : string) : string :=
  match s with
  | EmptyString => cur
  | String c s' =>
      if Ascii.eqb c "/" then last_segment_from "" s'
      else last_segment_from (cur +:+ String c "") s'
  end.

Definition last_segment (s : string) : string := last_segment_from "" s.

(** [res.x.value], a [TypeError] when the variable is unbound. *)
Definition field (res : binding) (x : string) : M World string :=
  match res !! x with
  | Some v => ret v
  | None => throw ("TypeError: Cannot read properties of undefined (reading 'value')")
  end.

(** [res.x?.value || fallback] *)
Definition field_or (res : binding) (x fallback : string) : string :=
  match res !! x with
  | Some v => if bool_decide (v = "") then fallback else v
  | None => fallback
  end.

Definition getWikidataId (name : string) : M World (option string) :=
  let* cached := getCachedQid name in
  match cached with
  | Some cached => ret (if bool_decide (cached = "null") then None else Some cached)
  | None =>
      match Sanitization.sanitizeEntityName name with
      | Throw _ => ret None
      | Diverge => diverge
      | Ok sanitizedName =>
          try_catch
            (let* bindings := querySparql (LabelLookup sanitizedName) in
             match bindings with
             | first :: _ =>
                 let* item := field first "item" in
                 let qid := last_segment item in
                 let* _ := setCachedQid name qid in
                 ret (Some qid)
             | [] =>
                 let* _ := setCachedQid name "null" in
                 ret None
             end)
            (λ e,
               let* _ := log (EvLog ("Error finding QID for " +:+ name +:+ ": " +:+ e)) in
               ret None)
      end
  end.

(** The first loop of [fetchBatchConnections]: the cache is asked for
    every identifier. *)
Definition lookup_cached (acc : list string * list ConnectionData) (qid : string)
    : M World (list string * list ConnectionData) :=
  let* cached := getCachedConnections qid in
  match cached with
  | Some cached => ret (acc.1, acc.2 ++ cached)
  | None => ret (acc.1 ++ [qid], acc.2)
  end.

(** The loop over the bindings: [allConnections] and
    [connectionsBySource]. *)
Definition read_binding
    (acc : list ConnectionData * list (string * list ConnectionData)) (res : binding)
    : M World (list ConnectionData * list (string * list ConnectionData)) :=
  let* target := field res "target" in
  let targetId := last_segment target in
  if negb (Sanitization.isValidQid targetId) then ret acc
  else
    let* source := field res "source" in
    let sourceId := last_segment source in
    let typeQid := field_or res "typeQID" "" in
    let isHuman := bool_decide (res !! "isHuman" = Some "true") in
    let group := if isHuman then "person" else determineGroup typeQid in
    let connection :=
      mkConn sourceId targetId
             (field_or res "targetLabel" targetId)
             (field_or res "propLabel" "link")
             (match res !! "image" with
              | Some v => if bool_decide (v = "") then None else Some v
              | None => None
              end)
             group
             (field_or res "typeLabel" "Concept") in
    let bySource :=
      match OMap.get sourceId acc.2 with
      | Some l => OMap.replace sourceId (l ++ [connection]) acc.2
      | None => acc.2
      end in
    ret (acc.1 ++ [connection], bySource).

Definition fetchBatchConnections (qids : list string) : M World (list ConnectionData) :=
  if bool_decide (length qids = 0) then ret []
  else
    let* looked := for_each lookup_cached qids ([], []) in
    let uncachedQids := looked.1 in
    let cachedConnections := looked.2 in
    if bool_decide (length uncachedQids = 0) then ret cachedConnections
    else
      let valuesStr := Consolidate.join " " ((λ qid, "wd:" +:+ qid) <$> uncachedQids) in
      let query := Connections valuesStr SPARQL_RESULT_LIMIT in
      try_catch
        (let* bindings := querySparql query in
         let connectionsBySource := foldl (λ m qid, OMap.set qid [] m) [] uncachedQids in
         let* read := for_each read_binding bindings ([], connectionsBySource) in
         let* _ := for_each (λ _ kv, setCachedConnections kv.1 kv.2) read.2 tt in
         ret (cachedConnections ++ read.1))
        (λ e,
           let* _ := log (EvLog ("SPARQL batch query error: " +:+ e)) in
           ret cachedConnections).

Definition sleep (ms : Z) : M World unit := modify (with_env (pause ms)).

(** *** lib/graphGenerator.ts *)

Definition PLACEHOLDER_IMG : string :=
  "https://upload.wikimedia.org/wikipedia/commons/7/7c/Profile_avatar_placeholder_large.png".

Definition BATCH_RATE_LIMIT : Z := 500.

Record depth_config := mkConfig {
  max_nodes_per_layer : nat;
  batch_size : nat;
  result_limit : nat
}.

Definition DEPTH_CONFIG (depth : nat) : option depth_config :=
  match depth with
  | 1 => Some (mkConfig 50 50 3000)
  | 2 => Some (mkConfig 40 45 2800)
  | 3 => Some (mkConfig 30 40 2500)
  | 4 => Some (mkConfig 25 35 2200)
  | 5 => Some (mkConfig 20 30 2000)
  | 6 => Some (mkConfig 15 25 1800)
  | 7 => Some (mkConfig 12 20 1500)
  | 8 => Some (mkConfig 10 15 1200)
  | 9 => Some (mkConfig 8 12 1000)
  | 10 => Some (mkConfig 5 10 800)
  | _ => None
  end.

(** [DEPTH_CONFIG[depth] || DEPTH_CONFIG[3]] *)
Definition getDepthConfig (depth : nat) : depth_config :=
  default (mkConfig 30 40 2500) (DEPTH_CONFIG depth).

(** [Math.floor(Math.random() * n)], for the next draw [r] of the source. *)
Definition draw (n : nat) : M World nat :=
  λ w, let '(r, e) := random (env w) in (Ok (r mod n), with_env (λ _, e) w).

(** [[a[i], a[j]] = [a[j], a[i]]] *)
Definition swap (a : list string) (i j : nat) : list string :=
  match a !! i, a !! j with
  | Some x, Some y => <[j := x]> (<[i := y]> a)
  | _, _ => a
  end.

Fixpoint shuffle_from (i : nat) (a : list string) : M World (list string) :=
  match i with
  | O => ret a
  | S i' =>
      let* j := draw (i + 1) in
      shuffle_from i' (swap a i j)
  end.

Definition shuffleArray (arr : list string) : M World (list string) :=
  shuffle_from (length arr - 1) arr.

(** The variables of [generateGraph] that the loops update.
    ([initialEntityIds] is written and never read.) *)
Record graph := mkGraph {
  nodes : list (string * GraphNode);
  edges : list GraphEdge;
  processedIds : gset string;
  edgeIds : gset string
}.

(** The loop over the provided QIDs. *)
Definition seed_qid (acc : list string * list (string * GraphNode)) (qid : string)
    : list string * list (string * GraphNode) :=
  (acc.1 ++ [qid],
   OMap.set qid (mkNode qid qid "concept" "dot" (Some PLACEHOLDER_IMG) 40 "Loading..."
                        (Some true)) acc.2).

Definition set_node_label (l : string) (n : GraphNode) : GraphNode :=
  mkNode (node_id n) l (node_group n) (node_shape n) (node_image n) (node_size n)
         (node_title n) (node_isInitialEntity n).

(** [onProgress?.(msg)] *)
Definition report (onProgress : bool) (msg : progress) : M World unit :=
  if onProgress then log (EvProgress msg) else ret tt.

(** The loop that resolves the names. *)
Definition resolve_name (onProgress : bool)
    (acc : list string * list (string * GraphNode)) (name : string)
    : M World (list string * list (string * GraphNode)) :=
  let* _ := report onProgress (Resolving name) in
  let* qid := getWikidataId name in
  match qid with
  | Some qid =>
      if bool_decide (qid = "") then
        let* _ := log (EvLog ("Could not resolve entity name to QID: " +:+ name)) in
        ret acc
      else
        match OMap.get qid acc.2 with
        | None =>
            ret (acc.1 ++ [qid],
                 OMap.set qid (mkNode qid name "concept" "dot" (Some PLACEHOLDER_IMG) 40
                                      "Type: Initial Search Entity" (Some true)) acc.2)
        | Some node =>
            ret (acc.1, OMap.replace qid (set_node_label name node) acc.2)
        end
  | None =>
      let* _ := log (EvLog ("Could not resolve entity name to QID: " +:+ name)) in
      ret acc
  end.

(** The loop over the batches of one layer. *)
Fixpoint fetch_batches (fuel i : nat) (toProcess : list string) (batchSizeForLayer : nat)
    (allNewConnections : list ConnectionData) : M World (list ConnectionData) :=
  if bool_decide (i < length toProcess) then
    match fuel with
    | O => diverge
    | S fuel' =>
        let batch := take batchSizeForLayer (drop i toProcess) in
        let* connections := fetchBatchConnections batch in
        let* _ := log (EvFetched batch connections) in
        let allNewConnections := allNewConnections ++ connections in
        let* _ := if bool_decide (i + batchSizeForLayer < length toProcess)
                  then sleep BATCH_RATE_LIMIT else ret tt in
        fetch_batches fuel' (i + batchSizeForLayer) toProcess batchSizeForLayer
                      allNewConnections
    end
  else ret allNewConnections.

(** [`${src}-${tgt}-${conn.label}`] *)
Definition edge_id_of (src tgt label : string) : string :=
  src +:+ "-" +:+ tgt +:+ "-" +:+ label.

(** The loop over the connections of one layer: the graph and
    [nextLayerIds]. *)
Definition process_connection (acc : graph * list string) (conn : ConnectionData)
    : graph * list string :=
  let g := acc.1 in
  let src := conn_source conn in
  let tgt := conn_target conn in
  let added :=
    if OMap.has tgt (nodes g) then (nodes g, acc.2)
    else
      let imgUrl := match conn_image conn with
                    | Some v => if bool_decide (v = "") then PLACEHOLDER_IMG else v
                    | None => PLACEHOLDER_IMG
                    end in
      let grp := conn_group conn in
      let shape := if bool_decide (grp = "person") then "circularImage" else "dot" in
      let size := if bool_decide (grp = "person") then 30
                  else if bool_decide (grp = "country") then 22
                  else if bool_decide (grp = "city") then 18 else 15 in
      (OMap.set tgt (mkNode tgt (conn_target_label conn) grp shape (Some imgUrl) size
                            ("Type: " +:+ conn_type_label conn) None) (nodes g),
       acc.2 ++ [tgt]) in
  let edgeId := edge_id_of src tgt (conn_label conn) in
  if decide (edgeId ∈ edgeIds g) then
    (mkGraph added.1 (edges g) (processedIds g) (edgeIds g), added.2)
  else
    (mkGraph added.1
       (edges g ++ [mkEdge edgeId src tgt (conn_label conn) "to" None
                           (Some (EdgeCategories.categorizeEdge (conn_label conn)))])
       (processedIds g) ({[edgeId]} ∪ edgeIds g),
     added.2).

(** The loop over the depth levels; [remaining] is [depth - currentDepth]. *)
Fixpoint build_layers (onProgress : bool) (remaining currentDepth depth : nat)
    (currentLayerIds : list string) (g : graph) : M World graph :=
  match remaining with
  | O => ret g
  | S remaining' =>
      if bool_decide (length currentLayerIds = 0) then ret g
      else
        let depthConfig := getDepthConfig (currentDepth + 1) in
        let maxNodesForLayer := max_nodes_per_layer depthConfig in
        let batchSizeForLayer := batch_size depthConfig in
        let toProcess := filter (λ id, id ∉ processedIds g) currentLayerIds in
        let* toProcess :=
          if bool_decide (maxNodesForLayer < length toProcess)
          then let* shuffled := shuffleArray toProcess in ret (take maxNodesForLayer shuffled)
          else ret toProcess in
        if bool_decide (length toProcess = 0) then ret g
        else
          let* _ := report onProgress
                      (ProcessingDepth (currentDepth + 1) depth (length toProcess)) in
          let* allNewConnections :=
            fetch_batches (length toProcess) 0 toProcess batchSizeForLayer [] in
          let processed := foldl process_connection (g, []) allNewConnections in
          let g := processed.1 in
          let nextLayerIds := processed.2 in
          let g := mkGraph (nodes g) (edges g) (list_to_set toProcess ∪ processedIds g)
                           (edgeIds g) in
          build_layers onProgress remaining' (currentDepth + 1) depth nextLayerIds g
  end.

(** [qids.map(sanitizeQid)], which stops at the first exception. *)
Fixpoint sanitize_all (rawQids : list string) : outcome (list string) :=
  match rawQids with
  | [] => Ok []
  | q :: rest =>
      match Sanitization.sanitizeQid q with
      | Ok q' => match sanitize_all rest with
                 | Ok rest' => Ok (q' :: rest')
                 | Throw e => Throw e
                 | Diverge => Diverge
                 end
      | Throw e => Throw e
      | Diverge => Diverge
      end
  end.

(** [request.x ? validateEntityList([...request.x]) : []] *)
Definition validated (x : option (list string)) : outcome (list string) :=
  match x with
  | Some l => Sanitization.validateEntityList l 10
  | None => Ok []
  end.

Definition generateGraph (request : GenerateMapRequest) (onProgress : bool)
    : M World GenerateMapResponse :=
  let* names := lift (validated (req_names request)) in
  let* rawQids := lift (validated (req_qids request)) in
  let* depth := lift (Sanitization.validateDepth (req_depth request)) in
  if bool_decide (length names = 0) && bool_decide (length rawQids = 0)
  then throw "Must provide either names or qids"
  else
    let* qids := lift (sanitize_all rawQids) in
    let seeded := foldl seed_qid ([], []) qids in
    let* resolved := for_each (resolve_name onProgress) names seeded in
    let currentLayerIds := resolved.1 in
    if bool_decide (length currentLayerIds = 0) then throw "Could not resolve any entities"
    else
      let* g := build_layers onProgress depth 0 depth currentLayerIds
                             (mkGraph resolved.2 [] ∅ ∅) in
      let* _ := report onProgress (Done (length (nodes g)) (length (edges g))) in
      ret (mkResponse (OMap.values (nodes g)) (edges g)).

(** *** api.ts *)

Definition CACHE_TTL : Z := 10 * 60 * 1000.

Definition isCacheValid (t : Z) (cached : option (CachedResponse payload)) : bool :=
  match cached with
  | None => false
  | Some cached => bool_decide (t - cr_timestamp cached < CACHE_TTL)%Z
  end.

Definition cachedFetch (key : string) (fetcher : M World payload) (skipCache : bool)
    : M World payload :=
  let miss : M World payload :=
    let* d := fetcher in
    let* t := gets (λ w, now (env w)) in
    let* _ := modify (with_responseCache (insert key (mkCached d t))) in
    ret d in
  λ w,
    if skipCache then miss w
    else
      match responseCache w !! key with
      | Some cached =>
          if isCacheValid (now (env w)) (Some cached) then (Ok (cr_data cached), w)
          else miss w
      | None => miss w
      end.

Definition clearExpiredCache : M World unit :=
  λ w, let t := now (env w) in
       (Ok tt, with_responseCache
                 (filter (λ kv, ¬ (t - cr_timestamp kv.2 >= CACHE_TTL)%Z)) w).

Definition clearAllCache : M World unit := modify (with_responseCache (λ _, ∅)).

Definition generateMap (request : GenerateMapRequest) (skipCache onProgress : bool)
    : M World payload :=
  let cacheKey := "generate-" +:+ stringify request in
  cachedFetch cacheKey
    (let* g := generateGraph request onProgress in ret (PGraph g))
    skipCache.

End engine.

Arguments view {E T} s w.
Arguments over {E T} s f w.

(** ** hooks/useGraphState.ts

    The state of the hook, with the fields that the actions below read
    or write (the filters, the depth, the bundling and the pruning
    threshold are left out: no action below touches them).  An action is
    the function that React applies to the state. *)

Module GraphState.

Record SelectedEdgeInfo := mkSelectedEdge {
  sel_id : string;
  sel_label : string;
  sel_category : option string;
  sel_fromNode : option GraphNode;
  sel_toNode : option GraphNode
}.

Record State := mkState {
  nodes : list GraphNode;
  edges : list GraphEdge;
  selectedNode : option GraphNode;
  selectedEdge : option SelectedEdgeInfo;
  isLoading : bool;
  progressMessage : option string;
  error : option string;
  isPathMode : bool;
  highlightedPaths : list ShortestPath.PathResult;
  isPhysicsEnabled : bool
}.

Definition setNodes (f : list GraphNode → list GraphNode) (st : State) : State :=
  mkState (f (nodes st)) (edges st) (selectedNode st) (selectedEdge st) (isLoading st)
          (progressMessage st) (error st) (isPathMode st) (highlightedPaths st)
          (isPhysicsEnabled st).

Definition setEdges (f : list GraphEdge → list GraphEdge) (st : State) : State :=
  mkState (nodes st) (f (edges st)) (selectedNode st) (selectedEdge st) (isLoading st)
          (progressMessage st) (error st) (isPathMode st) (highlightedPaths st)
          (isPhysicsEnabled st).

Definition setSelectedNode (n : option GraphNode) (st : State) : State :=
  mkState (nodes st) (edges st) n (selectedEdge st) (isLoading st)
          (progressMessage st) (error st) (isPathMode st) (highlightedPaths st)
          (isPhysicsEnabled st).

Definition setSelectedEdge (e : option SelectedEdgeInfo) (st : State) : State :=
  mkState (nodes st) (edges st) (selectedNode st) e (isLoading st)
          (progressMessage st) (error st) (isPathMode st) (highlightedPaths st)
          (isPhysicsEnabled st).

Definition setIsLoading (b : bool) (st : State) : State :=
  mkState (nodes st) (edges st) (selectedNode st) (selectedEdge st) b
          (progressMessage st) (error st) (isPathMode st) (highlightedPaths st)
          (isPhysicsEnabled st).

Definition setProgressMessage (msg : option string) (st : State) : State :=
  mkState (nodes st) (edges st) (selectedNode st) (selectedEdge st) (isLoading st)
          msg (error st) (isPathMode st) (highlightedPaths st) (isPhysicsEnabled st).

Definition setError (e : option string) (st : State) : State :=
  mkState (nodes st) (edges st) (selectedNode st) (selectedEdge st) (isLoading st)
          (progressMessage st) e (isPathMode st) (highlightedPaths st) (isPhysicsEnabled st).

Definition setIsPathMode (b : bool) (st : State) : State :=
  mkState (nodes st) (edges st) (selectedNode st) (selectedEdge st) (isLoading st)
          (progressMessage st) (error st) b (highlightedPaths st) (isPhysicsEnabled st).

Definition setHighlightedPaths (paths : list ShortestPath.PathResult) (st : State) : State :=
  mkState (nodes st) (edges st) (selectedNode st) (selectedEdge st) (isLoading st)
          (progressMessage st) (error st) (isPathMode st) paths (isPhysicsEnabled st).

Definition togglePhysics (st : State) : State :=
  mkState (nodes st) (edges st) (selectedNode st) (selectedEdge st) (isLoading st)
          (progressMessage st) (error st) (isPathMode st) (highlightedPaths st)
          (negb (isPhysicsEnabled st)).

Definition clearGraph (st : State) : State :=
  setHighlightedPaths [] (setIsPathMode false (setError None (setSelectedEdge None
    (setSelectedNode None (setEdges (λ _, []) (setNodes (λ _, []) st)))))).

(** [map.set(x.id, x)] for every [x] of [l], in order. *)
Definition set_all {V} (id : V → string) (l : list V) (m : list (string * V))
    : list (string * V) :=
  foldl (λ m x, OMap.set (id x) x m) m l.

(** [new Map(prev.map((x) => [x.id, x]))], the new ones set, and the
    values of the map. *)
Definition merge_by {V} (id : V → string) (new prev : list V) : list V :=
  OMap.values (set_all id new (set_all id prev [])).

Definition addNodes (newNodes : list GraphNode) : State → State :=
  setNodes (merge_by node_id newNodes).

Definition addEdges (newEdges : list GraphEdge) : State → State :=
  setEdges (merge_by edge_id newEdges).

Definition removeNode (nodeId : string) (st : State) : State :=
  let st' := setEdges (filter (λ e, edge_from e ≠ nodeId ∧ edge_to e ≠ nodeId))
               (setNodes (filter (λ n, node_id n ≠ nodeId)) st) in
  match selectedNode st with
  | Some n => if decide (node_id n = nodeId) then setSelectedNode None st' else st'
  | None => st'
  end.

End GraphState.

(** ** components/GraphView.tsx: the degrees of the nodes *)

Module GraphView.

(** [degree.set(k, (degree.get(k) || 0) + 1)] *)
Definition bump (k : string) (degree : gmap string nat) : gmap string nat :=
  <[k := default 0 (degree !! k) + 1]> degree.

Definition computeNodeDegrees (edges : list GraphEdge) : gmap string nat :=
  foldl (λ degree e, bump (edge_to e) (bump (edge_from e) degree)) ∅ edges.

End GraphView.

(** ** App.tsx: the expansion of a node *)

Module App.
Import GraphState.

Section app.
Context `{E : Environment}.

(** The variables of the loop over the connections. *)
Record expansion := mkExpansion {
  existingNodeIds : gset string;
  existingEdgeIds : gset string;
  newNodes : list GraphNode;
  newEdges : list GraphEdge
}.

Definition expand_connection (acc : expansion) (conn : ConnectionData) : expansion :=
  let tgt := conn_target conn in
  let acc :=
    if decide (tgt ∈ existingNodeIds acc) then acc
    else
      let grp := conn_group conn in
      let shape := if bool_decide (grp = "person") then "circularImage" else "dot" in
      let size := if bool_decide (grp = "person") then 30
                  else if bool_decide (grp = "country") then 22
                  else if bool_decide (grp = "city") then 18 else 15 in
      let image := match conn_image conn with
                   | Some v => if bool_decide (v = "") then PLACEHOLDER_IMG else v
                   | None => PLACEHOLDER_IMG
                   end in
      mkExpansion ({[tgt]} ∪ existingNodeIds acc) (existingEdgeIds acc)
        (newNodes acc ++ [mkNode tgt (conn_target_label conn) grp shape (Some image) size
                                 ("Type: " +:+ conn_type_label conn) None])
        (newEdges acc) in
  let edgeId := edge_id_of (conn_source conn) tgt (conn_label conn) in
  if decide (edgeId ∈ existingEdgeIds acc) then acc
  else
    mkExpansion (existingNodeIds acc) ({[edgeId]} ∪ existingEdgeIds acc) (newNodes acc)
      (newEdges acc ++ [mkEdge edgeId (conn_source conn) tgt (conn_label conn) "to" None
                               (Some (EdgeCategories.categorizeEdge (conn_label conn)))]).

(** [expandNode].  The nodes and edges that the callback reads
    ([graphState.nodes], [graphState.edges]) are those of the state the
    call starts from, and the updates of [addNodes] and [addEdges] apply
    to that state: no other action runs while the call waits for the
    answer.  The message is cleared two seconds later by a timer, which
    is not part of the call.  [PLACEHOLDER_IMG] of App.tsx is the
    address that the builder uses. *)
Definition expandNode (nodeId : string) (st : State) : M World State :=
  let st := setProgressMessage (Some ("Expanding " +:+ nodeId +:+ "...")) st in
  let st := setIsLoading true st in
  let* st :=
    try_catch
      (let* connections := fetchBatchConnections [nodeId] in
       let start := mkExpansion (list_to_set (node_id <$> nodes st))
                                (list_to_set (edge_id <$> edges st)) [] [] in
       let done := foldl expand_connection start connections in
       let st := if bool_decide (0 < length (newNodes done))
                 then addNodes (newNodes done) st else st in
       let st := if bool_decide (0 < length (newEdges done))
                 then addEdges (newEdges done) st else st in
       ret (setProgressMessage
              (Some ("Added " +:+ pretty (length (newNodes done)) +:+ " nodes, " +:+
                     pretty (length (newEdges done)) +:+ " edges")) st))
      (λ e, let* _ := log (EvLog ("Expand error: " +:+ e)) in ret (setError (Some e) st)) in
  ret (setIsLoading false st).

End app.
End App.

(** ** [getWikidataId] on a value that is not a string

    The parameter [name] has the type [string], which is erased when the
    program runs: a caller that the type checker does not see can pass
    any value.  This is [getWikidataId] with the steps that look at the
    kind of the value written out. *)

Module Untyped.

(** A value passed for [name]: a string; a Symbol; an object made
    without a prototype, which has no [toString] and no [valueOf]; or
    another value (null, undefined, a number, a boolean, an object with
    the inherited [toString]), given by the string that the [+] operator
    and a template string convert it to.  Objects with a conversion of
    their own are left out. *)
Inductive js_value :=
  | JsString (s : string)
  | JsSymbol
  | JsBareObject
  | JsOther (text : string).

(** [prefix + name], without the prefix: the two prefixes are the two
    stores. *)
Definition appended (name : js_value) : outcome string :=
  match name with
  | JsString s => Ok s
  | JsOther text => Ok text
  | JsSymbol => Throw "TypeError: Cannot convert a Symbol value to a string"
  | JsBareObject => Throw "TypeError: Cannot convert object to primitive value"
  end.

(** [!name || typeof name !== 'string'] throws for every value that is
    not a string. *)
Definition sanitizeEntityName (name : js_value) : outcome string :=
  match name with
  | JsString s => Sanitization.sanitizeEntityName s
  | _ => Throw "Entity name must be a non-empty string"
  end.

Section untyped.
Context `{E : Environment}.

Definition getCachedQid (name : js_value) : M World (option string) :=
  let* key := lift (appended name) in
  getFromStorage qid_store key.

Definition setCachedQid (name : js_value) (qid : string) : M World unit :=
  let* key := lift (appended name) in
  setInStorage qid_store key qid QID_TTL.

Definition getWikidataId (name : js_value) : M World (option string) :=
  let* cached := getCachedQid name in
  match cached with
  | Some cached => ret (if bool_decide (cached = "null") then None else Some cached)
  | None =>
      match sanitizeEntityName name with
      | Throw _ => ret None
      | Diverge => diverge
      | Ok sanitizedName =>
          try_catch
            (let* bindings := querySparql (LabelLookup sanitizedName) in
             match bindings with
             | first :: _ =>
                 let* item := field first "item" in
                 let qid := last_segment item in
                 let* _ := setCachedQid name qid in
                 ret (Some qid)
             | [] =>
                 let* _ := setCachedQid name "null" in
                 ret None
             end)
            (λ e,
               let* text := lift (appended name) in
               let* _ := log (EvLog ("Error finding QID for " +:+ text +:+ ": " +:+ e)) in
               ret None)
      end
  end.

End untyped.
End Untyped.

(** * Properties *)

(** ** The tests of the repository and the examples of the specification,
    run on the embedding *)

Module Tests.
Import Consolidate.

Definition edge (i a b l : string) : GraphEdge := mkEdge i a b l "to" None None.

Example consolidate_empty : consolidateEdges [] = [].
Proof. reflexivity. Qed.

Example consolidate_single :
  consolidateEdges [edge "1" "A" "B" "knows"]
  = [mkConsolidated (edge "1" "A" "B" "knows") ["knows"] 1].
Proof. reflexivity. Qed.

Example consolidate_merges :
  consolidateEdges [edge "1" "A" "B" "knows"; edge "2" "A" "B" "works with"]
  = [mkConsolidated (edge "1" "A" "B" "knows, works with") ["knows"; "works with"] 2].
Proof. reflexivity. Qed.

Example consolidate_separate :
  length (consolidateEdges [edge "1" "A" "B" "knows"; edge "2" "A" "C" "knows";
                            edge "3" "B" "C" "knows"]) = 3.
Proof. reflexivity. Qed.

Example consolidate_same_label :
  (λ c, (labels c, count c)) <$>
    consolidateEdges [edge "1" "A" "B" "knows"; edge "2" "A" "B" "knows";
                      edge "3" "A" "B" "works with"]
  = [(["knows"; "knows"; "works with"], 3)].
Proof. reflexivity. Qed.

Example hide_source_hidden :
  shouldHideEdge (edge "1" "A" "B" "knows") {[ "A" := false; "B" := true ]} = true.
Proof. reflexivity. Qed.

Example hide_target_hidden :
  shouldHideEdge (edge "1" "A" "B" "knows") {[ "A" := true; "B" := false ]} = true.
Proof. reflexivity. Qed.

Example hide_both_visible :
  shouldHideEdge (edge "1" "A" "B" "knows") {[ "A" := true; "B" := true ]} = false.
Proof. reflexivity. Qed.

Example hide_default_visible : shouldHideEdge (edge "1" "A" "B" "knows") ∅ = false.
Proof. reflexivity. Qed.

Example path_to_itself edges a :
  ShortestPath.findShortestPath edges a a = ShortestPath.Path (ShortestPath.mkPath [a] []).
Proof. unfold ShortestPath.findShortestPath. by rewrite decide_True. Qed.

Example depth_bounds :
  Sanitization.validateDepth 1 = Ok 1 ∧ Sanitization.validateDepth 10 = Ok 10 ∧
  Sanitization.validateDepth 0 = Throw "Depth must be at least 1" ∧
  Sanitization.validateDepth 11 = Throw "Depth cannot exceed 10 (performance limit)".
Proof. split_and!; reflexivity. Qed.

Example qid_forms :
  Sanitization.sanitizeQid "q42" = Ok "Q42" ∧
  (∃ e, Sanitization.sanitizeQid "42" = Throw e) ∧
  (∃ e, Sanitization.sanitizeQid "QABC" = Throw e).
Proof. split_and!; [reflexivity | by eexists | by eexists]. Qed.

Example category_of_label :
  EdgeCategories.categorizeEdge " Place of Birth " = "geographic" ∧
  EdgeCategories.categorizeEdge "likes" = "other".
Proof. split; reflexivity. Qed.

End Tests.

(** ** Path finder *)

Module ShortestPathSpec.
Import ShortestPath.

(** [u] and [v] are joined by an edge of the list whose id is [eid]
    (in either direction). *)
Definition joins (edges : list GraphEdge) (u v eid : string) : Prop :=
  ∃ e, e ∈ edges ∧ edge_id e = eid ∧
       ((edge_from e = u ∧ edge_to e = v) ∨ (edge_from e = v ∧ edge_to e = u)).

(** [ns] is a sequence of nodes in which every consecutive pair is joined
    by the edge whose id is at the same position of [es]. *)
Fixpoint is_path (edges : list GraphEdge) (ns es : list string) : Prop :=
  match ns, es with
  | [_], [] => True
  | u :: ((v :: _) as ns'), eid :: es' => joins edges u v eid ∧ is_path edges ns' es'
  | _, _ => False
  end.

(** A path of the undirected graph from [a] to [b]. *)
Definition path_between (edges : list GraphEdge) (a b : string) (ns es : list string) : Prop :=
  is_path edges ns es ∧ head ns = Some a ∧ last ns = Some b.

(** [a] and [b] lie in the same connected component. *)
Definition connected (edges : list GraphEdge) (a b : string) : Prop :=
  ∃ ns es, path_between edges a b ns es.

(** [a] occurs as an endpoint of some edge of the list. *)
Definition endpoint (edges : list GraphEdge) (a : string) : Prop :=
  ∃ e, e ∈ edges ∧ (edge_from e = a ∨ edge_to e = a).

Lemma neighbors_add_edge adj e u :
  neighbors (add_edge adj e) u =
  neighbors adj u
    ++ (if decide (edge_from e = u) then [(edge_to e, edge_id e)] else [])
    ++ (if decide (edge_to e = u) then [(edge_from e, edge_id e)] else []).
Proof.
  destruct e as [i a b ? ? ? ?]; unfold add_edge, push_to, ensure, neighbors; simpl.
  destruct (adj !! a) eqn:Hf.
  - destruct (adj !! b) eqn:Ht;
      rewrite !lookup_alter; repeat case_decide; subst;
      simplify_map_eq; rewrite ?app_nil_r, <- ?app_assoc; try done.
  - destruct (<[a:=[]]> adj !! b) eqn:Ht;
      rewrite !lookup_alter; repeat case_decide; subst;
      simplify_map_eq; rewrite ?app_nil_r, <- ?app_assoc; try done.
Qed.


Lemma is_Some_add_edge adj e u :
  is_Some (add_edge adj e !! u) ↔ is_Some (adj !! u) ∨ edge_from e = u ∨ edge_to e = u.
Proof.
  destruct e as [i a b ? ? ? ?]; unfold add_edge, push_to, ensure; simpl.
  rewrite !lookup_alter.
  destruct (adj !! a) eqn:Hf.
  - destruct (adj !! b) eqn:Ht; repeat case_decide; subst; simplify_map_eq;
      rewrite ?fmap_is_Some, ?lookup_insert_is_Some; naive_solver.
  - destruct (<[a:=[]]> adj !! b) eqn:Ht; repeat case_decide; subst; simplify_map_eq;
      rewrite ?fmap_is_Some, ?lookup_insert_is_Some; naive_solver.
Qed.

Lemma build_adjacency_snoc edges e :
  build_adjacency (edges ++ [e]) = add_edge (build_adjacency edges) e.
Proof. unfold build_adjacency. by rewrite foldl_snoc. Qed.

Lemma joins_snoc edges e u v eid :
  joins (edges ++ [e]) u v eid ↔
  joins edges u v eid ∨
  (edge_id e = eid ∧ ((edge_from e = u ∧ edge_to e = v) ∨ (edge_from e = v ∧ edge_to e = u))).
Proof.
  unfold joins. split.
  - intros (e' & [Hin | ->%list_elem_of_singleton]%elem_of_app & Hid & Hd); [left; eauto | by right].
  - intros [(e' & Hin & Hid & Hd) | [Hid Hd]].
    + exists e'. rewrite elem_of_app. eauto.
    + exists e. rewrite elem_of_app, list_elem_of_singleton. eauto.
Qed.

(** The adjacency list holds exactly the edges of the list, both ways. *)
Lemma neighbors_build edges u v eid :
  (v, eid) ∈ neighbors (build_adjacency edges) u ↔ joins edges u v eid.
Proof.
  induction edges as [| e edges IH] using rev_ind.
  - unfold neighbors, build_adjacency, joins; simpl. rewrite lookup_empty; simpl.
    split; [by intros ?%elem_of_nil | by intros (? & ?%elem_of_nil & _)].
  - rewrite build_adjacency_snoc, neighbors_add_edge, joins_snoc, !elem_of_app, IH.
    repeat case_decide; rewrite ?list_elem_of_singleton, ?elem_of_nil; naive_solver.
Qed.

Lemma is_Some_build edges u :
  is_Some (build_adjacency edges !! u) ↔ endpoint edges u.
Proof.
  induction edges as [| e edges IH] using rev_ind.
  - unfold build_adjacency, endpoint; simpl. rewrite lookup_empty.
    split; [by intros [? ?] | by intros (? & ?%elem_of_nil & _)].
  - rewrite build_adjacency_snoc, is_Some_add_edge, IH. unfold endpoint.
    split.
    + intros [(e' & Hin & Hd) | Hd]; [exists e' | exists e];
        rewrite elem_of_app, list_elem_of_singleton; eauto.
    + intros (e' & [Hin | ->%list_elem_of_singleton]%elem_of_app & Hd); [left; eauto | by right].
Qed.

Lemma joins_endpoint edges u v eid : joins edges u v eid → endpoint edges v.
Proof. intros (e & Hin & _ & Hd). exists e. naive_solver. Qed.

Lemma joins_sym edges u v eid : joins edges u v eid → joins edges v u eid.
Proof. intros (e & Hin & Hid & Hd). exists e. naive_solver. Qed.


Lemma is_path_cons_inv edges u ns es :
  is_path edges (u :: ns) es →
  (ns = [] ∧ es = []) ∨
  (∃ v ns' eid es', ns = v :: ns' ∧ es = eid :: es' ∧ joins edges u v eid ∧ is_path edges ns es').
Proof.
  destruct ns as [| v ns']; destruct es as [| eid es']; simpl; try tauto.
  intros [? ?]. right. exists v, ns', eid, es'. auto.
Qed.

Lemma is_path_snoc edges ns u v es eid :
  is_path edges (ns ++ [u]) es → joins edges u v eid →
  is_path edges (ns ++ [u; v]) (es ++ [eid]).
Proof.
  revert es. induction ns as [| a ns IH]; intros es Hp Hj.
  - destruct es; simpl in *; tauto.
  - change ((a :: ns) ++ [u]) with (a :: (ns ++ [u])) in Hp.
    apply is_path_cons_inv in Hp as [[Hnil _] | (b & l & e & es' & Hl & -> & Hab & Hp)];
      [by destruct ns |].
    specialize (IH es' Hp Hj).
    assert (ns ++ [u; v] = b :: l ++ [v]) as Heq.
    { change [u; v] with ([u] ++ [v]). by rewrite app_assoc, Hl. }
    change ((a :: ns) ++ [u; v]) with (a :: (ns ++ [u; v])).
    rewrite Heq in IH |- *. exact (conj Hab IH).
Qed.

Lemma is_path_length edges ns es : is_path edges ns es → length ns = S (length es).
Proof.
  revert es. induction ns as [| a ns IH]; intros es Hp; [by destruct es |].
  apply is_path_cons_inv in Hp as [[-> ->] | (v & ns' & eid & es' & -> & -> & _ & Hp)]; [done |].
  simpl. f_equal. by apply IH.
Qed.

Lemma path_last_endpoint edges ns :
  ∀ es x b, is_path edges (x :: ns) es → ns ≠ [] → last (x :: ns) = Some b → endpoint edges b.
Proof.
  induction ns as [| y ns IH]; intros es x b Hp Hne Hl; [done |].
  apply is_path_cons_inv in Hp as [[? _] | (v & ns' & eid & es' & [= <- <-] & -> & Hj & Hp)];
    [done |].
  rewrite last_cons_cons in Hl. destruct ns as [| z ns].
  - injection Hl as <-. by eapply joins_endpoint.
  - by eapply IH.
Qed.

(** Two distinct connected nodes are both endpoints of edges. *)
Lemma connected_endpoints edges a b :
  connected edges a b → a ≠ b → endpoint edges a ∧ endpoint edges b.
Proof.
  intros (ns & es & Hp & Hhd & Hl) Hab.
  destruct ns as [| x ns]; [done |]. injection Hhd as ->.
  destruct ns as [| y ns]; [simpl in Hl; congruence |]. split.
  - apply is_path_cons_inv in Hp as [[? _] | (v & ns' & eid & es' & [= <- <-] & -> & Hj & Hp)];
      [done |].
    eapply joins_endpoint, joins_sym, Hj.
  - by eapply path_last_endpoint.
Qed.

(** *** The breadth-first search

    The proof follows the run of the loops with a ghost level [lvl] for
    every visited node: the number of parent pointers up to [startId]. *)

Section search.
Variable edges : list GraphEdge.
Variables s t : string.

Definition upd (lvl : string → nat) (w : string) (n : nat) : string → nat :=
  λ x, if decide (x = w) then n else lvl x.

(** Every neighbour of [v] has been seen, at most one level further. *)
Definition finished (lvl : string → nat) (visited : gset string) (v : string) : Prop :=
  ∀ w eid, joins edges v w eid → w ∈ visited ∧ lvl w ≤ S (lvl v).

(** The parent pointers form a tree rooted at [s] over the visited nodes. *)
Record chain_ok (lvl : string → nat) (visited : gset string) (parent : parents) : Prop := {
  ok_start : s ∈ visited ∧ lvl s = 0 ∧ parent !! s = None;
  ok_parent : ∀ v, v ∈ visited → v ≠ s →
    ∃ u eid, parent !! v = Some (u, eid) ∧ u ∈ visited ∧ lvl v = S (lvl u) ∧ joins edges u v eid;
  ok_dom : ∀ v, v ∉ visited → parent !! v = None;
  ok_size : ∀ v, v ∈ visited → lvl v ≤ size parent
}.

(** The queue holds nodes of level [m] followed by nodes of level [m + 1];
    every other visited node is the one being scanned or is finished. *)
Record frontier (lvl : string → nat) (m : nat) (cur : option string)
    (visited : gset string) (queue : list string) : Prop := {
  fr_end : t ∉ visited;
  fr_queue_visited : ∀ x, x ∈ queue → x ∈ visited;
  fr_levels : ∃ q1 q2, queue = q1 ++ q2 ∧
    (∀ x, x ∈ q1 → lvl x = m) ∧ (∀ x, x ∈ q2 → lvl x = S m);
  fr_class : ∀ v, v ∈ visited →
    cur = Some v ∨ v ∈ queue ∨ (lvl v ≤ m ∧ finished lvl visited v);
  fr_cur : ∀ u, cur = Some u → u ∈ visited ∧ lvl u = m
}.

(** The returned path is a path from [s] to [t], and no path is shorter. *)
Definition shortest (p : PathResult) : Prop :=
  path_between edges s t (nodeIds p) (edgeIds p) ∧
  ∀ ns es, path_between edges s t ns es → length (edgeIds p) ≤ length es.

Lemma upd_eq lvl w n : upd lvl w n w = n.
Proof. unfold upd. by rewrite decide_True. Qed.

Lemma upd_ne lvl w n x : x ≠ w → upd lvl w n x = lvl x.
Proof. intros. unfold upd. by rewrite decide_False. Qed.

Lemma finished_mono lvl lvl' (visited visited' : gset string) v :
  finished lvl visited v → v ∈ visited → visited ⊆ visited' →
  (∀ x, x ∈ visited → lvl' x = lvl x) → finished lvl' visited' v.
Proof.
  intros Hf Hv Hsub Hl w eid Hj. destruct (Hf w eid Hj) as [Hw Hle].
  split; [set_solver |]. by rewrite (Hl w Hw), (Hl v Hv).
Qed.

Lemma chain_ok_discover lvl visited parent u w eid :
  chain_ok lvl visited parent → u ∈ visited → w ∉ visited → joins edges u w eid →
  chain_ok (upd lvl w (S (lvl u))) ({[w]} ∪ visited) (<[w := (u, eid)]> parent).
Proof.
  intros [(Hs & Hs0 & Hsp) Hpar Hdom Hsize] Hu Hw Hj.
  assert (u ≠ w) by (intros ->; done).
  assert (s ≠ w) by (intros ->; done).
  split.
  - split_and!; [set_solver | by rewrite upd_ne | by rewrite lookup_insert_ne].
  - intros v Hv Hvs. destruct (decide (v = w)) as [-> | Hne].
    + exists u, eid. rewrite lookup_insert_eq, upd_eq, upd_ne by done.
      split_and!; [done | set_solver | done | done].
    + assert (v ∈ visited) as Hv' by set_solver.
      destruct (Hpar v Hv' Hvs) as (u0 & e0 & Hp0 & Hu0 & Hl0 & Hj0).
      exists u0, e0. rewrite lookup_insert_ne, !upd_ne by (try done; intros ->; done).
      split_and!; [done | set_solver | done | done].
  - intros v Hv. rewrite lookup_insert_ne by set_solver. apply Hdom. set_solver.
  - intros v Hv. rewrite map_size_insert_None by (by apply Hdom).
    destruct (decide (v = w)) as [-> | Hne].
    + rewrite upd_eq. specialize (Hsize u Hu). lia.
    + rewrite upd_ne by done. assert (v ∈ visited) as Hv' by set_solver.
      specialize (Hsize v Hv'). lia.
Qed.

(** Walking the parent pointers from a visited node reaches [s] within
    [lvl v] steps and collects a path of that many edges, reversed. *)
Lemma walk_back_spec lvl visited parent :
  chain_ok lvl visited parent →
  ∀ n v fuel accN accE, v ∈ visited → lvl v = n → n ≤ fuel →
  ∃ ns es, walk_back fuel parent v accN accE = Some (accN ++ ns, accE ++ es) ∧
           length es = n ∧
           is_path edges (reverse (v :: ns)) (reverse es) ∧
           head (reverse (v :: ns)) = Some s.
Proof.
  intros [(Hs & Hs0 & Hsp) Hpar Hdom Hsize].
  induction n as [| n IH]; intros v fuel accN accE Hv Hl Hfuel.
  - assert (v = s) as ->.
    { destruct (decide (v = s)) as [| Hne]; [done |].
      destruct (Hpar v Hv Hne) as (? & ? & _ & _ & ? & _). lia. }
    exists [], []. destruct fuel; simpl; rewrite Hsp, !app_nil_r; done.
  - assert (v ≠ s) as Hne by (intros ->; lia).
    destruct (Hpar v Hv Hne) as (u & eid & Hp & Hu & Hlu & Hj).
    destruct fuel as [| fuel]; [lia |].
    destruct (IH u fuel (accN ++ [u]) (accE ++ [eid]) Hu) as (ns & es & Hw & Hlen & Hpath & Hhd);
      [lia | lia |].
    exists (u :: ns), (eid :: es). simpl. rewrite Hp, Hw, <- !app_assoc.
    split_and!; [done | simpl; lia | |].
    + rewrite reverse_cons in Hpath. rewrite !reverse_cons, <- app_assoc.
      by apply is_path_snoc.
    + rewrite reverse_cons in Hhd. rewrite !reverse_cons.
      destruct (reverse ns); simpl in *; done.
Qed.


Lemma frontier_level_bound lvl m cur visited queue v :
  frontier lvl m cur visited queue → v ∈ visited → lvl v ≤ S m.
Proof.
  intros [_ _ (q1 & q2 & -> & H1 & H2) Hclass Hcur] Hv.
  destruct (Hclass v Hv) as [Hc | [[Hq | Hq]%elem_of_app | [Hle _]]].
  - destruct (Hcur v Hc). lia.
  - rewrite (H1 v Hq). lia.
  - rewrite (H2 v Hq). lia.
  - lia.
Qed.

Lemma frontier_below_finished lvl m cur visited queue v :
  frontier lvl m cur visited queue → v ∈ visited → lvl v < m → finished lvl visited v.
Proof.
  intros [_ _ (q1 & q2 & -> & H1 & H2) Hclass Hcur] Hv Hlt.
  destruct (Hclass v Hv) as [Hc | [[Hq | Hq]%elem_of_app | [_ Hf]]]; [| | | done].
  - destruct (Hcur v Hc). lia.
  - specialize (H1 v Hq). lia.
  - specialize (H2 v Hq). lia.
Qed.

(** A path of at most [m] edges that starts at a visited node of level at
    most [i], with [i] edges already behind it, ends at a visited node. *)
Lemma short_paths_visited lvl m cur visited queue :
  frontier lvl m cur visited queue →
  ∀ ns es x i, is_path edges (x :: ns) es → x ∈ visited → lvl x ≤ i →
    length es + i ≤ m → ∃ y, last (x :: ns) = Some y ∧ y ∈ visited.
Proof.
  intros Hfr. induction ns as [| y ns IH]; intros es x i Hp Hx Hlx Hlen.
  - exists x. done.
  - apply is_path_cons_inv in Hp as [[? _] | (v & ns' & eid & es' & [= <- <-] & -> & Hj & Hp)];
      [done |]. simpl in Hlen.
    assert (finished lvl visited x) as Hf
      by (eapply frontier_below_finished; [done | done | lia]).
    destruct (Hf y eid Hj) as [Hy Hly].
    destruct (IH es' y (S i) Hp Hy) as (z & Hz & Hzv); [lia | lia |].
    exists z. split; [| done]. by rewrite last_cons_cons.
Qed.

Lemma size_difference_discover (D visited : gset string) w :
  w ∈ D → w ∉ visited → S (size (D ∖ ({[w]} ∪ visited))) = size (D ∖ visited).
Proof.
  intros HD Hw.
  assert (D ∖ visited = {[w]} ∪ D ∖ ({[w]} ∪ visited)) as ->.
  { apply set_eq. intros x. rewrite !elem_of_union, !elem_of_difference,
      !elem_of_union, !elem_of_singleton.
    destruct (decide (x = w)) as [-> |]; naive_solver. }
  rewrite (size_union (C:=gset string) {[w]}) by set_solver. by rewrite size_singleton.
Qed.

(** The scan of the neighbours of the dequeued node [u], of level [m]. *)
Lemma scan_spec u m nbrs :
  ∀ lvl visited parent queue,
  chain_ok lvl visited parent →
  frontier lvl m (Some u) visited queue →
  (∀ w eid, (w, eid) ∈ nbrs → joins edges u w eid) →
  (∀ w eid, joins edges u w eid → (w, eid) ∈ nbrs ∨ (w ∈ visited ∧ lvl w ≤ S m)) →
  match scan t u nbrs visited parent queue with
  | inl r => ∃ p, r = Path p ∧ shortest p
  | inr (visited', parent', queue') =>
      ∃ lvl', chain_ok lvl' visited' parent' ∧ frontier lvl' m None visited' queue' ∧
        size (dom (build_adjacency edges) ∖ visited') + length queue'
        ≤ size (dom (build_adjacency edges) ∖ visited) + length queue
  end.
Proof.
  induction nbrs as [| [w eid] rest IH]; intros lvl visited parent queue Hok Hfr Hnb Hscan.
  - simpl. exists lvl. split_and!; [done | | done].
    destruct Hfr as [Hend Hqv Hlev Hclass Hcur]. destruct (Hcur u eq_refl) as [Hu Hlu].
    split; [done | done | done | | done].
    intros v Hv. destruct (Hclass v Hv) as [[= ->] | [? | ?]]; [| by right; left | by right; right].
    right; right. split; [lia |]. intros w eid Hj.
    destruct (Hscan w eid Hj) as [?%elem_of_nil | [? ?]]; [done |]. split; [done | lia].
  - simpl. destruct (Hfr) as [Hend Hqv Hlev Hclass Hcur]. destruct (Hcur u eq_refl) as [Hu Hlu].
    assert (joins edges u w eid) as Hj by (apply Hnb; left).
    case_decide as Hw.
    + apply (IH lvl); [done | done | |].
      * intros w' eid' Hin. apply Hnb. by right.
      * intros w' eid' Hj'. destruct (Hscan w' eid' Hj') as [Hin | ?]; [| by right].
        apply elem_of_cons in Hin as [[= -> ->] | Hin]; [| by left].
        right. split; [done |]. exact (frontier_level_bound _ _ _ _ _ _ Hfr Hw).
    + assert (u ≠ w) as Huw by (intros ->; done).
      pose proof (chain_ok_discover _ _ _ _ _ _ Hok Hu Hw Hj) as Hok'.
      rewrite Hlu in Hok'.
      case_decide as Hwt.
      * (* the target is discovered *)
        subst w. unfold reconstruct.
        destruct (walk_back_spec _ _ _ Hok' (S m) t (size (<[t:=(u, eid)]> parent)) [t] [])
          as (ns & es & -> & Hlen & Hpath & Hhd).
        { set_solver. }
        { by rewrite upd_eq. }
        { rewrite <- (upd_eq lvl t (S m)). apply (ok_size _ _ _ Hok'). set_solver. }
        eexists. split; [done |]. simpl. split.
        -- split_and!; [done | done |]. rewrite reverse_cons. apply last_snoc.
        -- intros ns' es' (Hp' & Hhd' & Hlast'). simpl. rewrite length_reverse, Hlen.
           destruct ns' as [| x ns']; [done |]. simpl in Hhd'. injection Hhd' as ->.
           destruct (decide (length es' ≤ m)) as [Hshort |]; [| lia].
           destruct (short_paths_visited _ _ _ _ _ Hfr ns' es' s 0 Hp') as (y & Hy & Hyv).
           { apply (ok_start _ _ _ Hok). }
           { destruct (ok_start _ _ _ Hok) as (_ & -> & _). lia. }
           { lia. }
           rewrite Hlast' in Hy. injection Hy as <-. done.
      * (* a new node joins the queue *)
        assert (∀ x, x ∈ visited → upd lvl w (S m) x = lvl x) as Hsame.
        { intros x Hx. apply upd_ne. intros ->. done. }
        assert (frontier (upd lvl w (S m)) m (Some u) ({[w]} ∪ visited) (queue ++ [w])) as Hfr'.
        { destruct Hlev as (q1 & q2 & -> & H1 & H2). split.
          - set_solver.
          - intros x [Hx | ->%list_elem_of_singleton]%elem_of_app; set_solver.
          - exists q1, (q2 ++ [w]). split_and!.
            + by rewrite app_assoc.
            + intros x Hx. rewrite Hsame; [by apply H1 |]. apply Hqv. set_solver.
            + intros x [Hx | ->%list_elem_of_singleton]%elem_of_app.
              * rewrite Hsame; [by apply H2 |]. apply Hqv. set_solver.
              * by rewrite upd_eq.
          - intros v [->%elem_of_singleton | Hv]%elem_of_union.
            + right; left. set_solver.
            + destruct (Hclass v Hv) as [? | [? | [? ?]]];
                [by left | right; left; set_solver |].
              right; right. rewrite Hsame by done. split; [done |].
              eapply finished_mono; [done | done | set_solver | done].
          - intros ? [= <-]. split; [set_solver |]. by rewrite Hsame. }
        assert (∀ w' eid', (w', eid') ∈ rest → joins edges u w' eid') as Hnb'.
        { intros w' eid' Hin. apply Hnb. by right. }
        assert (∀ w' eid', joins edges u w' eid' →
                  (w', eid') ∈ rest ∨ (w' ∈ {[w]} ∪ visited ∧ upd lvl w (S m) w' ≤ S m))
          as Hscan'.
        { intros w' eid' Hj'. destruct (Hscan w' eid' Hj') as [Hin | [Hv Hl]].
          - apply elem_of_cons in Hin as [[= -> ->] | Hin]; [| by left].
            right. split; [set_solver |]. by rewrite upd_eq.
          - right. split; [set_solver |]. by rewrite Hsame. }
        specialize (IH (upd lvl w (S m)) ({[w]} ∪ visited) (<[w:=(u, eid)]> parent)
                      (queue ++ [w]) Hok' Hfr' Hnb' Hscan').
        destruct (scan t u rest ({[w]} ∪ visited) (<[w:=(u, eid)]> parent) (queue ++ [w]))
          as [r | [[visited' parent'] queue']]; [done |].
        destruct IH as (x & IH).
        destruct IH as (? & ? & Hsz). exists x. split_and!; [done | done |].
        rewrite length_app in Hsz. simpl in Hsz.
        assert (w ∈ dom (build_adjacency edges)) as HwD.
        { apply elem_of_dom, is_Some_build. by eapply joins_endpoint. }
        pose proof (size_difference_discover _ _ _ HwD Hw). lia.
Qed.


(** When the queue runs empty every visited node is finished, so the
    visited set is closed under edges and [t], unvisited, is out of reach. *)
Lemma exhausted_not_connected lvl m visited parent :
  chain_ok lvl visited parent → frontier lvl m None visited [] → ¬ connected edges s t.
Proof.
  intros Hok [Hend _ _ Hclass _] (ns & es & Hp & Hhd & Hl).
  assert (∀ ns es x, is_path edges (x :: ns) es → x ∈ visited →
            ∃ y, last (x :: ns) = Some y ∧ y ∈ visited) as Hclosed.
  { clear ns es Hp Hhd Hl. induction ns as [| y ns IH]; intros es x Hp Hx; [by exists x |].
    apply is_path_cons_inv in Hp as [[? _] | (v & ns' & eid & es' & [= <- <-] & -> & Hj & Hp)];
      [done |].
    destruct (Hclass x Hx) as [[=] | [?%elem_of_nil | [_ Hf]]]; [done |].
    destruct (Hf y eid Hj) as [Hy _].
    destruct (IH es' y Hp Hy) as (z & Hz & Hzv). exists z. by rewrite last_cons_cons. }
  destruct ns as [| x ns]; [done |]. injection Hhd as ->.
  destruct (Hclosed ns es s Hp) as (y & Hy & Hyv); [apply (ok_start _ _ _ Hok) |].
  rewrite Hl in Hy. by injection Hy as <-.
Qed.

(** The queue loop: with fuel for every node still to be dequeued it
    ends, with [null] or with a shortest path. *)
Lemma bfs_spec fuel :
  ∀ lvl m visited parent queue,
  chain_ok lvl visited parent →
  frontier lvl m None visited queue →
  size (dom (build_adjacency edges) ∖ visited) + length queue ≤ fuel →
  match bfs fuel (build_adjacency edges) t visited parent queue with
  | Path p => shortest p
  | Null => ¬ connected edges s t
  | Diverges => False
  end.
Proof.
  induction fuel as [| fuel IH]; intros lvl m visited parent queue Hok Hfr Hsz;
    (destruct queue as [| u rest]; [by eapply exhausted_not_connected |]);
    simpl in Hsz; [lia |].
  simpl.
  assert (∃ m', frontier lvl m' (Some u) visited rest) as [m' Hfr'].
  { destruct Hfr as [Hend Hqv (q1 & q2 & Hq & H1 & H2) Hclass Hcur].
    assert (∀ v, v ∈ visited → Some u = Some v ∨ v ∈ rest ∨ lvl v ≤ m ∧ finished lvl visited v)
      as Hclass'.
    { intros v Hv. destruct (Hclass v Hv) as [[=] | [[-> | ?]%elem_of_cons | ?]]; auto. }
    destruct q1 as [| a q1]; simpl in Hq.
    - exists (S m). subst q2. split.
      + done.
      + intros x Hx. apply Hqv. by right.
      + exists rest, []. rewrite app_nil_r. split_and!; [done | | by intros ? ?%elem_of_nil].
        intros x Hx. apply H2. by right.
      + intros v Hv. destruct (Hclass' v Hv) as [? | [? | [? ?]]]; auto.
      + intros ? [= <-]. split; [apply Hqv; left | apply H2; left].
    - exists m. injection Hq as <- ->. split.
      + done.
      + intros x Hx. apply Hqv. by right.
      + exists q1, q2. split_and!; [done | | done]. intros x Hx. apply H1. by right.
      + done.
      + intros ? [= <-]. split; [apply Hqv; left | apply H1; left]. }
  pose proof (scan_spec u m' (neighbors (build_adjacency edges) u) lvl visited parent rest
                Hok Hfr') as Hscan.
  destruct (scan t u (neighbors (build_adjacency edges) u) visited parent rest)
    as [r | [[visited' parent'] queue']].
  - destruct Hscan as (p & -> & Hp); [| | done].
    + intros w eid. apply neighbors_build.
    + intros w eid Hj. left. by apply neighbors_build.
  - destruct Hscan as (lvl' & Hok' & Hfr'' & Hsz').
    + intros w eid. apply neighbors_build.
    + intros w eid Hj. left. by apply neighbors_build.
    + apply (IH lvl' m'); [done | done | lia].
Qed.

Hypothesis s_neq_t : s ≠ t.

Lemma findShortestPath_spec :
  match findShortestPath edges s t with
  | Path p => shortest p
  | Null => ¬ connected edges s t
  | Diverges => False
  end.
Proof.
  unfold findShortestPath. rewrite decide_False by done. simpl.
  destruct (bool_decide (is_Some (build_adjacency edges !! s))) eqn:Hs; simpl.
  2: { apply bool_decide_eq_false in Hs. rewrite is_Some_build in Hs.
       intros Hc. by destruct (connected_endpoints _ _ _ Hc s_neq_t). }
  destruct (bool_decide (is_Some (build_adjacency edges !! t))) eqn:Ht; simpl.
  2: { apply bool_decide_eq_false in Ht. rewrite is_Some_build in Ht.
       intros Hc. by destruct (connected_endpoints _ _ _ Hc s_neq_t). }
  apply bool_decide_eq_true in Hs.
  apply (bfs_spec _ (λ _, 0) 0).
  - split.
    + split_and!; [set_solver | done | done].
    + intros v ->%elem_of_singleton Hne. done.
    + done.
    + intros. lia.
  - split.
    + set_solver.
    + intros x ->%list_elem_of_singleton. set_solver.
    + exists [s], []. split_and!; [done | done | by intros ? ?%elem_of_nil].
    + intros v ->%elem_of_singleton. right; left. by left.
    + done.
  - rewrite <- size_dom. simpl.
    pose proof (size_difference_discover (dom (build_adjacency edges)) ∅ s) as Hd.
    replace ({[s]} ∪ ∅ : gset string) with ({[s]} : gset string) in Hd by set_solver.
    replace (dom (build_adjacency edges) ∖ ∅) with (dom (build_adjacency edges)) in Hd
      by set_solver.
    rewrite <- Hd; [lia | by apply elem_of_dom | set_solver].
Qed.

End search.


(** The fuel of the model never runs out: [findShortestPath] returns a
    path or [null] on every input. *)
Lemma findShortestPath_total edges startId endId :
  findShortestPath edges startId endId ≠ Diverges.
Proof.
  destruct (decide (startId = endId)) as [-> | Hne].
  - unfold findShortestPath. by rewrite decide_True.
  - pose proof (findShortestPath_spec edges startId endId Hne) as H.
    intros Heq. by rewrite Heq in H.
Qed.

(** C1. For distinct [startId] and [endId], a path returned by
    [findShortestPath] starts at [startId], ends at [endId], joins every
    consecutive pair of its nodes by an edge of the list (in either
    direction) whose id stands at the same position of [edgeIds], and no
    path between the two nodes in the undirected graph has fewer edges. *)
Theorem findShortestPath_shortest edges startId endId p :
  startId ≠ endId →
  findShortestPath edges startId endId = Path p →
  head (nodeIds p) = Some startId ∧
  last (nodeIds p) = Some endId ∧
  is_path edges (nodeIds p) (edgeIds p) ∧
  ∀ ns es, path_between edges startId endId ns es → length (edgeIds p) ≤ length es.
Proof.
  intros Hne Hres.
  pose proof (findShortestPath_spec edges startId endId Hne) as H.
  rewrite Hres in H. destruct H as [(Hp & Hhd & Hlast) Hmin]. auto.
Qed.

Definition sample_edges : list GraphEdge :=
  [ mkEdge "e1" "A" "B" "knows" "to" None None;
    mkEdge "e2" "C" "B" "knows" "to" None None;
    mkEdge "e3" "C" "D" "knows" "to" None None;
    mkEdge "e4" "A" "D" "knows" "to" None None;
    mkEdge "e5" "D" "F" "knows" "to" None None;
    mkEdge "e6" "X" "Y" "knows" "to" None None ].

Lemma findShortestPath_shortest_witness :
  head ["A"; "D"; "F"] = Some "A" ∧
  last ["A"; "D"; "F"] = Some "F" ∧
  is_path sample_edges ["A"; "D"; "F"] ["e4"; "e5"] ∧
  ∀ ns es, path_between sample_edges "A" "F" ns es → 2 ≤ length es.
Proof.
  apply (findShortestPath_shortest sample_edges "A" "F" (mkPath ["A"; "D"; "F"] ["e4"; "e5"])).
  - discriminate.
  - vm_compute. reflexivity.
Defined.





End ShortestPathSpec.

(** ** Edge consolidator *)

Module ConsolidateSpec.
Import Consolidate.

Definition total_count (m : list (string * ConsolidatedEdge)) : nat :=
  sum_list (count <$> OMap.values m).

Lemma length_replace {V} k (v : V) m : length (OMap.replace k v m) = length m.
Proof.
  induction m as [| [k' v'] m IH]; [done |].
  simpl. case_decide; simpl; by rewrite ?IH.
Qed.

Lemma total_count_replace k v v' m :
  OMap.get k m = Some v →
  total_count (OMap.replace k v' m) + count v = total_count m + count v'.
Proof.
  unfold total_count, OMap.values.
  induction m as [| [k' w] m IH]; [done |].
  simpl. case_decide; csimpl.
  - intros [= ->]. lia.
  - intros Hget. specialize (IH Hget). lia.
Qed.

Lemma total_count_app m1 m2 : total_count (m1 ++ m2) = total_count m1 + total_count m2.
Proof. unfold total_count, OMap.values. by rewrite !fmap_app, sum_list_with_app. Qed.

(** One more edge: at most one more entry, exactly one more in the counts. *)
Lemma add_effect m e :
  length (add m e) ≤ S (length m) ∧ total_count (add m e) = S (total_count m).
Proof.
  unfold add. destruct (OMap.get (key e) m) as [existing |] eqn:Hget.
  - rewrite length_replace. split; [lia |].
    pose proof (total_count_replace (key e) existing
      (mkConsolidated (set_label (join ", " (labels existing ++ [edge_label e]))
                                 (ce_edge existing))
                      (labels existing ++ [edge_label e]) (S (count existing))) m Hget) as H.
    simpl in H. lia.
  - unfold OMap.set. rewrite Hget, length_app, total_count_app. simpl.
    split; [lia |]. unfold total_count. simpl. lia.
Qed.

Lemma foldl_add_effect edges :
  ∀ m, length (foldl add m edges) ≤ length m + length edges ∧
       total_count (foldl add m edges) = total_count m + length edges.
Proof.
  induction edges as [| e edges IH]; intros m; simpl; [split; lia |].
  destruct (IH (add m e)) as [Hlen Hsum]. destruct (add_effect m e) as [Hl Hs].
  rewrite Hsum, Hs. split; lia.
Qed.

(** C8. The list returned by [consolidateEdges] is no longer than the
    input list, and the [count] fields of the returned consolidated
    edges add up to the length of the input list. *)
Theorem consolidateEdges_counts (edges : list GraphEdge) :
  length (consolidateEdges edges) ≤ length edges ∧
  sum_list (count <$> consolidateEdges edges) = length edges.
Proof.
  destruct (foldl_add_effect edges []) as [Hlen Hsum].
  unfold consolidateEdges, OMap.values in *. rewrite length_fmap. split; [done |].
  exact Hsum.
Qed.


(** *** Grouping, as the specification words it

    The edges are grouped by a class [cls]; the groups come in the order
    in which their class first occurs, and each one becomes a display
    edge: the fields of its first edge, the labels of its members in
    insertion order, their number, and the labels joined with [", "] as
    the display label. *)

Section grouping.
Context {K : Type} `{EqDecision K}.
Variable cls : GraphEdge → K.

Definition classes (edges : list GraphEdge) : list K :=
  reverse (remove_dups (reverse (cls <$> edges))).

Definition members (k : K) (edges : list GraphEdge) : list GraphEdge :=
  filter (λ e, cls e = k) edges.

Definition merge (group : list GraphEdge) : option ConsolidatedEdge :=
  match group with
  | [] => None
  | first :: _ =>
      let ls := edge_label <$> group in
      Some (mkConsolidated (set_label (join ", " ls) first) ls (length group))
  end.

Definition group_by (edges : list GraphEdge) : list ConsolidatedEdge :=
  omap (λ k, merge (members k edges)) (classes edges).

Lemma elem_of_classes k edges : k ∈ classes edges ↔ k ∈ cls <$> edges.
Proof. unfold classes. by rewrite elem_of_reverse, elem_of_remove_dups, elem_of_reverse. Qed.

Lemma NoDup_classes edges : NoDup (classes edges).
Proof. unfold classes. rewrite reverse_Permutation. apply NoDup_remove_dups. Qed.

Lemma classes_snoc edges e :
  classes (edges ++ [e]) =
  if decide (cls e ∈ cls <$> edges) then classes edges else classes edges ++ [cls e].
Proof.
  unfold classes. rewrite fmap_app. change (cls <$> [e]) with [cls e]. rewrite reverse_snoc. simpl.
  destruct (decide_rel elem_of (cls e) (reverse (cls <$> edges))) as [Hin | Hin];
    rewrite elem_of_reverse in Hin; case_decide; try done.
  by rewrite reverse_cons.
Qed.

Lemma members_snoc k edges e :
  members k (edges ++ [e]) = members k edges ++ (if decide (cls e = k) then [e] else []).
Proof.
  unfold members. rewrite filter_app. f_equal.
Qed.

Lemma members_nil k edges : k ∉ cls <$> edges → members k edges = [].
Proof.
  intros Hk. unfold members. induction edges as [| e edges IH]; [done |].
  rewrite filter_cons_False.
  - apply IH. intros ?. apply Hk. by right.
  - intros <-. apply Hk. by left.
Qed.

Lemma members_cons k edges : k ∈ cls <$> edges → ∃ first rest, members k edges = first :: rest.
Proof.
  intros (e & -> & Hin)%list_elem_of_fmap.
  destruct (members (cls e) edges) as [| first rest] eqn:Hm; [| by eauto].
  exfalso. eapply (filter_nil_not_elem_of (λ e', cls e' = cls e)); [exact Hm | | exact Hin]. done.
Qed.

End grouping.

Definition pair_of (e : GraphEdge) : string * string := (edge_from e, edge_to e).

(** The grouping of the specification: by the ordered pair [(from, to)]. *)
Definition consolidate_by_pair (edges : list GraphEdge) : list ConsolidatedEdge :=
  group_by pair_of edges.

(** Edges of the list with the same key string have the same ordered pair. *)
Definition keys_faithful (edges : list GraphEdge) : Prop :=
  Forall (λ e1, Forall (λ e2,
    key e1 = key e2 → edge_from e1 = edge_from e2 ∧ edge_to e1 = edge_to e2) edges) edges.

#[global] Instance keys_faithful_dec edges : Decision (keys_faithful edges).
Proof. unfold keys_faithful. apply _. Defined.


(** *** The loop computes the grouping *)

Section entries.
Context {K V : Type} `{EqDecision K}.
Variable kf : K → string.

(** The map with an entry [kf k ↦ v] for every [k] of [ks] with [F k = Some v]. *)
Definition entries (F : K → option V) (ks : list K) : list (string * V) :=
  omap (λ k, pair (kf k) <$> F k) ks.

Lemma entries_cons F k ks :
  entries F (k :: ks) =
  match F k with Some v => (kf k, v) :: entries F ks | None => entries F ks end.
Proof. unfold entries. simpl. by destruct (F k). Qed.

Lemma entries_ext F G ks : (∀ k, k ∈ ks → F k = G k) → entries F ks = entries G ks.
Proof.
  induction ks as [| k ks IH]; intros Hext; [done |].
  rewrite !entries_cons, (Hext k) by left.
  rewrite IH; [done |]. intros k' Hk'. apply Hext. by right.
Qed.

Lemma values_entries F ks : OMap.values (entries F ks) = omap F ks.
Proof.
  induction ks as [| k ks IH]; [done |].
  rewrite entries_cons. unfold OMap.values in *. simpl. destruct (F k); csimpl; by rewrite IH.
Qed.

Lemma get_entries F ks k :
  (∀ k', k' ∈ ks → kf k' = kf k → k' = k) →
  OMap.get (kf k) (entries F ks) = if decide (k ∈ ks) then F k else None.
Proof.
  induction ks as [| k' ks IH]; intros Hinj; [done |].
  assert (OMap.get (kf k) (entries F ks) = if decide (k ∈ ks) then F k else None) as IH'.
  { apply IH. intros k0 Hk0. apply Hinj. by right. }
  rewrite entries_cons. destruct (F k') as [v |] eqn:HF; simpl.
  - destruct (decide (kf k' = kf k)) as [Hk | Hk].
    + apply Hinj in Hk; [| by left]. subst k'. rewrite decide_True by left. done.
    + rewrite IH'. assert (k' ≠ k) by (by intros ->).
      repeat case_decide; try done; set_solver.
  - rewrite IH'. destruct (decide (k' = k)) as [-> | Hne].
    + rewrite (decide_True (P := k ∈ k :: ks)) by left. by case_decide.
    + repeat case_decide; try done; set_solver.
Qed.

Lemma replace_entries F G ks k v :
  NoDup ks →
  (∀ k', k' ∈ ks → kf k' = kf k → k' = k) →
  G k = Some v → is_Some (F k) →
  (∀ k', k' ∈ ks → k' ≠ k → G k' = F k') →
  OMap.replace (kf k) v (entries F ks) = entries G ks.
Proof.
  intros Hnd Hinj HG [w HF].
  induction ks as [| k' ks IH]; intros Hext; [done |].
  apply NoDup_cons in Hnd as [Hk' Hnd]. rewrite !entries_cons.
  destruct (decide (k' = k)) as [-> | Hne].
  - rewrite HF, HG. simpl. rewrite decide_True by done. f_equal.
    apply (entries_ext F G). intros k0 Hk0. symmetry. apply Hext; [by right |].
    by intros ->.
  - rewrite (Hext k') by (done || left). destruct (F k') as [v' |]; simpl.
    + rewrite decide_False.
      * f_equal. apply IH; [done | |].
        -- intros k0 Hk0. apply Hinj. by right.
        -- intros k0 Hk0. apply Hext. by right.
      * intros Heq. apply Hne, Hinj; [left | done].
    + apply IH; [done | |].
      * intros k0 Hk0. apply Hinj. by right.
      * intros k0 Hk0. apply Hext. by right.
Qed.

End entries.

(** The key string of an ordered pair: [key e = key_of (pair_of e)]. *)
Definition key_of (p : string * string) : string := p.1 +:+ "-" +:+ p.2.

Lemma keys_faithful_spec edges :
  keys_faithful edges ↔
  ∀ e1 e2, e1 ∈ edges → e2 ∈ edges → key e1 = key e2 →
           edge_from e1 = edge_from e2 ∧ edge_to e1 = edge_to e2.
Proof.
  unfold keys_faithful. rewrite Forall_forall. setoid_rewrite Forall_forall.
  split; intros H e1 e2; [intros H1 H2; by apply H | intros H1; by apply H].
Qed.

Lemma keys_faithful_snoc edges e :
  keys_faithful (edges ++ [e]) →
  keys_faithful edges ∧
  ∀ p, p ∈ classes pair_of edges → key_of p = key_of (pair_of e) → p = pair_of e.
Proof.
  rewrite !keys_faithful_spec. intros Hf. split.
  - intros e1 e2 H1 H2. apply Hf; set_solver.
  - intros p (e' & -> & Hin)%elem_of_classes%list_elem_of_fmap Hkey.
    destruct (Hf e' e ltac:(set_solver) ltac:(set_solver) Hkey) as [Ha Hb].
    unfold pair_of. by rewrite Ha, Hb.
Qed.

Lemma set_label_same e : set_label (edge_label e) e = e.
Proof. by destruct e. Qed.

Lemma set_label_twice l l' e : set_label l (set_label l' e) = set_label l e.
Proof. done. Qed.

(** After the loop the map holds the merged groups of the ordered pairs,
    in the order of their first occurrence. *)
Lemma foldl_add_groups edges :
  keys_faithful edges →
  foldl add [] edges =
  entries key_of (λ p, merge (members pair_of p edges)) (classes pair_of edges).
Proof.
  induction edges as [| e pre IH] using rev_ind; intros Hf; [done |].
  apply keys_faithful_snoc in Hf as [Hpre Hinj].
  rewrite foldl_snoc, IH by done. unfold add.
  change (key e) with (key_of (pair_of e)).
  rewrite get_entries by done. rewrite classes_snoc.
  destruct (decide (pair_of e ∈ classes pair_of pre)) as [Hin | Hin];
    rewrite elem_of_classes in Hin.
  - rewrite decide_True by done.
    destruct (members_cons pair_of _ _ Hin) as (first & rest & Hm). rewrite Hm. simpl.
    apply replace_entries.
    + apply NoDup_classes.
    + done.
    + rewrite members_snoc, decide_True, Hm by done. simpl.
      rewrite !fmap_app, length_app. simpl. do 2 f_equal. lia.
    + rewrite Hm. by eexists.
    + intros p _ Hp. rewrite members_snoc, decide_False, app_nil_r; done.
  - rewrite decide_False by done. unfold OMap.set.
    rewrite get_entries by done. rewrite decide_False by (by rewrite elem_of_classes).
    unfold entries at 2. rewrite omap_app. f_equal.
    + apply entries_ext. intros p Hp. rewrite members_snoc, decide_False, app_nil_r; [done |].
      intros <-. by apply elem_of_classes in Hp.
    + simpl. rewrite members_snoc, decide_True, members_nil by done. simpl.
      by rewrite set_label_same.
Qed.


(** What the grouping by ordered pairs consists of. *)
Lemma elem_of_consolidate_by_pair edges c :
  c ∈ consolidate_by_pair edges →
  ∃ first rest,
    members pair_of (pair_of (ce_edge c)) edges = first :: rest ∧
    c = mkConsolidated (set_label (join ", " (edge_label <$> first :: rest)) first)
                       (edge_label <$> first :: rest) (length (first :: rest)).
Proof.
  unfold consolidate_by_pair, group_by.
  intros (p & Hp & Hm)%list_elem_of_omap.
  destruct (members pair_of p edges) as [| first rest] eqn:Hmem; simpl in Hm; [done |].
  injection Hm as <-. exists first, rest. split; [| done].
  assert (first ∈ members pair_of p edges) as Hin by (rewrite Hmem; left).
  apply list_elem_of_filter in Hin as [Hpair _].
  rewrite <- Hpair in Hmem. exact Hmem.
Qed.

Lemma consolidate_by_pair_NoDup edges :
  NoDup (pair_of ∘ ce_edge <$> consolidate_by_pair edges).
Proof.
  unfold consolidate_by_pair, group_by.
  pose proof (NoDup_classes pair_of edges) as Hnd.
  assert (∀ p c, merge (members pair_of p edges) = Some c → pair_of (ce_edge c) = p) as Hpair.
  { intros p c Hm.
    destruct (members pair_of p edges) as [| first rest] eqn:Hmem; simpl in Hm; [done |].
    injection Hm as <-.
    assert (first ∈ members pair_of p edges) as Hin by (rewrite Hmem; left).
    by apply list_elem_of_filter in Hin as [Hp _]. }
  induction (classes pair_of edges) as [| p ps IH]; [constructor |].
  apply NoDup_cons in Hnd as [Hp Hnd]. simpl.
  destruct (merge (members pair_of p edges)) as [c |] eqn:Hm; [| by apply IH].
  csimpl. apply NoDup_cons. split; [| by apply IH].
  intros (c' & Heq & (p' & Hp' & Hm')%list_elem_of_omap)%list_elem_of_fmap.
  simpl in Heq. rewrite (Hpair p c Hm), (Hpair p' c' Hm') in Heq. by subst.
Qed.

Lemma consolidate_by_pair_covers edges e :
  e ∈ edges → ∃ c, c ∈ consolidate_by_pair edges ∧ pair_of (ce_edge c) = pair_of e.
Proof.
  intros Hin. unfold consolidate_by_pair, group_by.
  assert (pair_of e ∈ pair_of <$> edges) as Hp by (by apply list_elem_of_fmap_2).
  destruct (members_cons pair_of _ _ Hp) as (first & rest & Hm).
  eexists. split.
  - apply list_elem_of_omap. exists (pair_of e). split; [by apply elem_of_classes |].
    rewrite Hm. done.
  - assert (first ∈ members pair_of (pair_of e) edges) as Hf by (rewrite Hm; left).
    by apply list_elem_of_filter in Hf as [Hpair _].
Qed.

(** Ids without the separator: the key string determines the pair. *)
Fixpoint hyphen_free (s : string) : bool :=
  match s with
  | EmptyString => true
  | String c s' => negb (Ascii.eqb c "-"%char) && hyphen_free s'
  end.

Lemma append_nil_l s : "" +:+ s = s.
Proof. reflexivity. Qed.

Lemma append_cons x a s : String x a +:+ s = String x (a +:+ s).
Proof. reflexivity. Qed.

Lemma key_of_inj a b c d :
  hyphen_free a → hyphen_free c → a +:+ "-" +:+ b = c +:+ "-" +:+ d → a = c ∧ b = d.
Proof.
  revert c. induction a as [| x a IH]; intros [| y c] Ha Hc Heq;
    rewrite ?append_cons, ?append_nil_l in Heq; simpl in Ha, Hc.
  - by injection Heq as ->.
  - injection Heq as <- _. done.
  - injection Heq as -> _. done.
  - injection Heq as -> Heq.
    apply andb_prop_elim in Ha as [_ Ha]. apply andb_prop_elim in Hc as [_ Hc].
    destruct (IH c Ha Hc Heq) as [-> ->]. done.
Qed.

Lemma hyphen_free_keys_faithful edges :
  Forall (λ e, hyphen_free (edge_from e)) edges → keys_faithful edges.
Proof.
  rewrite Forall_forall, keys_faithful_spec. intros Hfree e1 e2 H1 H2 Hkey.
  apply key_of_inj; auto.
Qed.

(** [consolidateEdges] groups the edges by the string [from-to].  On an
    edge list in which edges with the same key string have the same
    [from] and the same [to] (as whenever no [from] id contains the
    separator), the result is the grouping by the ordered pair
    [(from, to)]: distinct consolidated edges have distinct pairs, every
    input edge is in the consolidated edge of its pair, and a
    consolidated edge carries the labels of exactly the input edges with
    its pair, in insertion order, their number, and as display label
    these labels joined with a comma and a space. *)
Theorem consolidateEdges_groups (edges : list GraphEdge) :
  keys_faithful edges →
  consolidateEdges edges = consolidate_by_pair edges ∧
  NoDup (pair_of ∘ ce_edge <$> consolidateEdges edges) ∧
  (∀ e, e ∈ edges →
     ∃ c, c ∈ consolidateEdges edges ∧ pair_of (ce_edge c) = pair_of e) ∧
  (∀ c, c ∈ consolidateEdges edges →
     let group := filter (λ e, pair_of e = pair_of (ce_edge c)) edges in
     labels c = edge_label <$> group ∧
     count c = length group ∧
     edge_label (ce_edge c) = join ", " (labels c)).
Proof.
  intros Hf.
  assert (consolidateEdges edges = consolidate_by_pair edges) as ->.
  { unfold consolidateEdges. rewrite foldl_add_groups by done. apply values_entries. }
  split_and!.
  - done.
  - apply consolidate_by_pair_NoDup.
  - apply consolidate_by_pair_covers.
  - intros c (first & rest & Hm & Hc)%elem_of_consolidate_by_pair. simpl.
    unfold members in Hm. rewrite Hm. by rewrite Hc.
Qed.

Definition sample_edges : list GraphEdge :=
  [ mkEdge "1" "A" "B" "knows" "to" None None;
    mkEdge "2" "A" "B" "works with" "to" None None;
    mkEdge "3" "B" "A" "knows" "to" None None;
    mkEdge "4" "A" "B" "knows" "to" None None ].

Lemma consolidateEdges_groups_witness :
  consolidateEdges sample_edges = consolidate_by_pair sample_edges ∧
  NoDup (pair_of ∘ ce_edge <$> consolidateEdges sample_edges) ∧
  (∀ e, e ∈ sample_edges →
     ∃ c, c ∈ consolidateEdges sample_edges ∧ pair_of (ce_edge c) = pair_of e) ∧
  (∀ c, c ∈ consolidateEdges sample_edges →
     let group := filter (λ e, pair_of e = pair_of (ce_edge c)) sample_edges in
     labels c = edge_label <$> group ∧
     count c = length group ∧
     edge_label (ce_edge c) = join ", " (labels c)).
Proof.
  apply (consolidateEdges_groups sample_edges).
  apply hyphen_free_keys_faithful. vm_compute. repeat constructor.
Defined.

Example consolidateEdges_sample :
  consolidateEdges sample_edges =
  [ mkConsolidated (mkEdge "1" "A" "B" "knows, works with, knows" "to" None None)
                   ["knows"; "works with"; "knows"] 3;
    mkConsolidated (mkEdge "3" "B" "A" "knows" "to" None None) ["knows"] 1 ].
Proof. reflexivity. Qed.

(** C9. The claim fails on the code for ids that contain the separator
    of the key: two edges between different pairs of nodes, whose key
    strings [from-to] coincide, end up in one consolidated edge, where
    the grouping by the ordered pair keeps them apart. *)
Theorem consolidateEdges_merges_distinct_pairs :
  let e1 := mkEdge "1" "A-B" "C" "x" "to" None None in
  let e2 := mkEdge "2" "A" "B-C" "y" "to" None None in
  edge_from e1 ≠ edge_from e2 ∧ edge_to e1 ≠ edge_to e2 ∧
  consolidateEdges [e1; e2] = [mkConsolidated (set_label "x, y" e1) ["x"; "y"] 2] ∧
  consolidate_by_pair [e1; e2] = [mkConsolidated e1 ["x"] 1; mkConsolidated e2 ["y"] 1].
Proof. split_and!; [discriminate | discriminate | reflexivity | reflexivity]. Qed.

End ConsolidateSpec.

Lemma pair_eta {A B} (p : A * B) (a : A) : p.1 = a → p = (a, p.2).
Proof. intros <-. by destruct p. Qed.

(** ** Caches and connection fetcher *)

Module FetcherSpec.

Section fetcher.
Context `{E : Environment}.

(** [m] returns normally from every state. *)
Definition returns {A} (m : M World A) : Prop :=
  ∀ w, ∃ a w', m w = (Ok a, w').

(** [m] returns normally or throws, but does not run out of fuel. *)
Definition halts {A} (m : M World A) : Prop :=
  ∀ w, (m w).1 ≠ Diverge.

Lemma returns_halts {A} (m : M World A) : returns m → halts m.
Proof. intros H w. destruct (H w) as (a & w' & ->). done. Qed.

Lemma returns_ret {A} (a : A) : returns (ret a : M World A).
Proof. intros w. by exists a, w. Qed.

Lemma returns_bind {A B} (m : M World A) (k : A → M World B) :
  returns m → (∀ a, returns (k a)) → returns (bind m k).
Proof.
  intros Hm Hk w. unfold bind. destruct (Hm w) as (a & w' & ->). apply Hk.
Qed.

Lemma halts_bind {A B} (m : M World A) (k : A → M World B) :
  halts m → (∀ a, halts (k a)) → halts (bind m k).
Proof.
  intros Hm Hk w. unfold bind. specialize (Hm w).
  destruct (m w) as [[a | e |] w']; simpl in *; [apply Hk | done | done].
Qed.

Lemma halts_throw {A} e : halts (throw e : M World A).
Proof. by intros w. Qed.

(** A [try] block whose handler returns normally never lets an exception
    out. *)
Lemma returns_try_catch {A} (m : M World A) handler :
  halts m → (∀ e, returns (handler e)) → returns (try_catch m handler).
Proof.
  intros Hm Hh w. unfold try_catch. specialize (Hm w).
  destruct (m w) as [[a | e |] w']; simpl in *; [by eexists _, _ | apply Hh | done].
Qed.

Lemma returns_modify f : returns (modify f).
Proof. intros w. by eexists _, _. Qed.

Lemma returns_gets {A} (f : World → A) : returns (gets f).
Proof. intros w. by eexists _, _. Qed.

Lemma returns_for_each {A S} (body : S → A → M World S) l :
  (∀ acc x, returns (body acc x)) → ∀ acc, returns (for_each body l acc).
Proof.
  intros Hb. induction l as [| x l IH]; intros acc; simpl.
  - apply returns_ret.
  - apply returns_bind; [apply Hb | apply IH].
Qed.

Lemma halts_for_each {A S} (body : S → A → M World S) l :
  (∀ acc x, halts (body acc x)) → ∀ acc, halts (for_each body l acc).
Proof.
  intros Hb. induction l as [| x l IH]; intros acc; simpl.
  - apply returns_halts, returns_ret.
  - apply halts_bind; [apply Hb | apply IH].
Qed.

Lemma returns_getFromStorage {T} (st : store T) key : returns (getFromStorage st key).
Proof.
  intros w. unfold getFromStorage.
  destruct (view st w !! key) as [entry |]; [case_bool_decide |]; by eexists _, _.
Qed.

Lemma halts_setItem {T} (st : store T) key entry : halts (setItem st key entry).
Proof. intros w. unfold setItem. by destruct (fits _ _). Qed.

(** The cache is best effort: a write that cannot be stored is dropped. *)
Lemma returns_setInStorage {T} (st : store T) key d ttl : returns (setInStorage st key d ttl).
Proof.
  unfold setInStorage. apply returns_bind; [apply returns_gets |]. intros t.
  apply returns_try_catch; [apply halts_setItem |]. intros _.
  apply returns_bind; [by intros w; eexists _, _ |]. intros _.
  apply returns_try_catch; [apply halts_setItem |]. intros _.
  apply returns_bind; [apply returns_modify |]. intros _.
  apply returns_try_catch; [apply halts_setItem |]. intros _. apply returns_ret.
Qed.

Lemma halts_querySparql q : halts (querySparql q).
Proof. intros w. unfold querySparql. by destruct (http _ _) as [[? | ?] ?]. Qed.

Lemma halts_field res x : halts (field res x).
Proof. unfold field. destruct (res !! x); [apply returns_halts, returns_ret | apply halts_throw]. Qed.

Lemma returns_log e : returns (log e).
Proof. apply returns_modify. Qed.


(** *** Name resolution *)

Lemma sanitizeEntityName_halts name : Sanitization.sanitizeEntityName name ≠ Diverge.
Proof. unfold Sanitization.sanitizeEntityName. repeat case_bool_decide; done. Qed.

(** The names that fail sanitization: empty or only white space, or
    longer than 200 characters after trimming. *)
Lemma sanitizeEntityName_throws name :
  Sanitization.trim name = "" ∨ 200 < String.length (Sanitization.trim name) →
  ∃ e, Sanitization.sanitizeEntityName name = Throw e.
Proof.
  unfold Sanitization.sanitizeEntityName. intros Hbad.
  repeat case_bool_decide; eauto. destruct Hbad; done.
Qed.

Lemma returns_setCachedQid name qid : returns (setCachedQid name qid).
Proof. apply returns_setInStorage. Qed.

Lemma returns_getWikidataId name : returns (getWikidataId name).
Proof.
  unfold getWikidataId. apply returns_bind; [apply returns_getFromStorage |].
  intros [cached |]; [apply returns_ret |].
  pose proof (sanitizeEntityName_halts name) as Hs.
  destruct (Sanitization.sanitizeEntityName name) as [sanitized | e |];
    [| apply returns_ret | done].
  apply returns_try_catch.
  - apply halts_bind; [apply halts_querySparql |]. intros [| first rest].
    + apply returns_halts, returns_bind; [apply returns_setCachedQid |].
      intros _. apply returns_ret.
    + apply halts_bind; [apply halts_field |]. intros item.
      apply returns_halts, returns_bind; [apply returns_setCachedQid |].
      intros _. apply returns_ret.
  - intros e. apply returns_bind; [apply returns_log |]. intros _. apply returns_ret.
Qed.

(** On a name that is a string [getWikidataId] never lets an exception
    out: in every state it returns normally; and when the cache has no
    (unexpired) entry for the name it returns [null] if the name fails
    sanitization (it is empty or only white space, or longer than 200
    characters after trimming) and if the lookup query fails. *)
Theorem getWikidataId_never_throws (name : string) (w : World) :
  (∃ r w', getWikidataId name w = (Ok r, w')) ∧
  (∀ w1, getCachedQid name w = (Ok None, w1) →
     (Sanitization.trim name = "" ∨ 200 < String.length (Sanitization.trim name) →
        getWikidataId name w = (Ok None, w1)) ∧
     (∀ sanitized message e',
        Sanitization.sanitizeEntityName name = Ok sanitized →
        http (LabelLookup sanitized) (env w1) = (inl message, e') →
        ∃ w', getWikidataId name w = (Ok None, w'))).
Proof.
  split; [apply returns_getWikidataId |].
  intros w1 Hmiss. unfold getWikidataId, bind. rewrite Hmiss. split.
  - intros Hbad. by destruct (sanitizeEntityName_throws name Hbad) as [e ->].
  - intros sanitized message e' -> Hfail.
    unfold try_catch, querySparql, log, modify, ret. simpl. rewrite Hfail. simpl.
    by eexists.
Qed.


(** *** Batched connections *)

(** What the connection cache holds for an identifier: the data of an
    entry that has not expired. *)
Definition cached_in (w : World) (qid : string) : option (list ConnectionData) :=
  match connStore w !! qid with
  | Some entry =>
      if bool_decide (expired (now (env w)) entry) then None else Some (data entry)
  | None => None
  end.

(** The identifiers of a batch that the cache does not answer, and the
    connections it holds for the others. *)
Definition cache_misses (w : World) (qids : list string) : list string :=
  filter (λ qid, cached_in w qid = None) qids.

Definition cache_hits (w : World) (qids : list string) : list ConnectionData :=
  concat (omap (cached_in w) qids).

(** [uncachedQids.map((qid) => `wd:${qid}`).join(' ')] *)
Definition values_of (uncachedQids : list string) : string :=
  Consolidate.join " " ((λ qid, "wd:" +:+ qid) <$> uncachedQids).

Lemma getCachedConnections_spec qid w :
  ∃ w', getCachedConnections qid w = (Ok (cached_in w qid), w') ∧
        env w' = env w ∧ trace w' = trace w ∧ ∀ q, cached_in w' q = cached_in w q.
Proof.
  unfold getCachedConnections, getFromStorage, cached_in. simpl.
  destruct (connStore w !! qid) as [entry |] eqn:Hq; [| by eexists].
  case_bool_decide as Hexp; [| by eexists].
  eexists. split_and!; [done | done | done |]. intros q. simpl.
  destruct (decide (q = qid)) as [-> | Hne].
  - rewrite lookup_delete_eq, Hq. by rewrite bool_decide_eq_true_2.
  - by rewrite lookup_delete_ne.
Qed.

(** The first loop splits the batch by what the cache holds on entry;
    it sends nothing. *)
Lemma lookup_cached_loop qids :
  ∀ acc w, ∃ w',
    for_each lookup_cached qids acc w =
      (Ok (acc.1 ++ cache_misses w qids, acc.2 ++ cache_hits w qids), w') ∧
    env w' = env w ∧ trace w' = trace w.
Proof.
  unfold cache_misses, cache_hits.
  induction qids as [| qid qids IH]; intros acc w.
  - exists w. simpl. rewrite !app_nil_r. by destruct acc.
  - simpl. unfold bind at 1, lookup_cached at 1, bind at 1.
    destruct (getCachedConnections_spec qid w) as (w1 & -> & He & Ht & Hsame).
    assert (filter (λ q, cached_in w1 q = None) qids = filter (λ q, cached_in w q = None) qids)
      as Hf.
    { apply list_filter_iff. intros q. by rewrite Hsame. }
    assert (omap (cached_in w1) qids = omap (cached_in w) qids) as Ho.
    { apply list_omap_ext. apply Forall2_same_length_lookup. split; [done |].
      intros i x y Hx Hy. rewrite Hx in Hy. injection Hy as <-. apply Hsame. }
    destruct (cached_in w qid) as [cached |] eqn:Hc; simpl.
    + destruct (IH (acc.1, acc.2 ++ cached) w1) as (w' & -> & He' & Ht').
      exists w'. rewrite Hf, Ho. simpl.
      rewrite filter_cons_False by (by rewrite Hc). rewrite <- app_assoc.
      split_and!; [done | congruence | congruence].
    + destruct (IH (acc.1 ++ [qid], acc.2) w1) as (w' & -> & He' & Ht').
      exists w'. rewrite Hf, Ho. simpl.
      rewrite filter_cons_True by done. rewrite <- app_assoc.
      split_and!; [done | congruence | congruence].
Qed.

Lemma halts_read_binding acc res : halts (read_binding acc res).
Proof.
  unfold read_binding. apply halts_bind; [apply halts_field |]. intros target.
  destruct (negb _); [apply returns_halts, returns_ret |].
  apply halts_bind; [apply halts_field |]. intros source. apply returns_halts, returns_ret.
Qed.

(** No exception leaves [fetchBatchConnections], whatever the network
    answers. *)
Lemma returns_fetchBatchConnections qids : returns (fetchBatchConnections qids).
Proof.
  unfold fetchBatchConnections. case_bool_decide; [apply returns_ret |].
  apply returns_bind.
  { apply returns_for_each. intros acc qid. unfold lookup_cached.
    apply returns_bind; [apply returns_getFromStorage |].
    intros [cached |]; apply returns_ret. }
  intros looked. case_bool_decide; [apply returns_ret |].
  apply returns_try_catch.
  - apply halts_bind; [apply halts_querySparql |]. intros bindings.
    apply halts_bind; [apply halts_for_each, halts_read_binding |]. intros read.
    apply returns_halts, returns_bind; [| intros _; apply returns_ret].
    apply returns_for_each. intros _ kv. apply returns_setInStorage.
  - intros e. apply returns_bind; [apply returns_log |]. intros _. apply returns_ret.
Qed.

(** C6. When the batched query for the uncached identifiers fails,
    [fetchBatchConnections] returns exactly the connections that the
    connection cache holds for the identifiers of the batch, and no
    exception; one query was sent.  When the cache answers for every
    identifier it returns these connections and sends no query. *)
Theorem fetchBatchConnections_degrades (qids : list string) (w : World) :
  (cache_misses w qids = [] →
     ∃ w', fetchBatchConnections qids w = (Ok (cache_hits w qids), w') ∧
           trace w' = trace w) ∧
  (cache_misses w qids ≠ [] →
     ∀ message e',
       http (Connections (values_of (cache_misses w qids)) SPARQL_RESULT_LIMIT) (env w)
         = (inl message, e') →
       ∃ w', fetchBatchConnections qids w = (Ok (cache_hits w qids), w') ∧
             trace w' = trace w ++
               [EvQuery (Connections (values_of (cache_misses w qids)) SPARQL_RESULT_LIMIT);
                EvLog ("SPARQL batch query error: " +:+ message)]).
Proof.
  unfold fetchBatchConnections. split.
  - intros Hnone. case_bool_decide as Hlen.
    + destruct qids; [| done]. by exists w.
    + unfold bind at 1.
      destruct (lookup_cached_loop qids ([], []) w) as (w1 & -> & He & Ht). simpl.
      rewrite Hnone. simpl. by exists w1.
  - intros Hsome message e' Hfail. case_bool_decide as Hlen.
    + destruct qids; [| done]. done.
    + unfold bind at 1.
      destruct (lookup_cached_loop qids ([], []) w) as (w1 & -> & He & Ht). simpl.
      rewrite bool_decide_eq_false_2 by (by destruct (cache_misses w qids)).
      unfold try_catch, bind at 1, querySparql. simpl. fold (values_of (cache_misses w qids)).
      rewrite He, Hfail. simpl. eexists. split; [done |]. simpl.
      by rewrite Ht, <- app_assoc.
Qed.

End fetcher.

(** A small environment for the examples: the clock stands at 1000, the
    storage is never full, the lookup of ["Douglas Adams"] finds [Q42],
    the lookup of ["Nobody"] finds nothing, every other lookup fails; the
    connections query fails when it asks for [Q99]. *)
Definition row (l : list (string * string)) : binding := list_to_map l.

Definition entity (qid : string) : string := "http://www.wikidata.org/entity/" +:+ qid.

Definition sample_http (q : sparql_query) (e : unit) : (string + list binding) * unit :=
  match q with
  | LabelLookup name =>
      if bool_decide (name = "Douglas Adams") then (inr [row [("item", entity "Q42")]], e)
      else if bool_decide (name = "Nobody") then (inr [], e)
      else (inl "SPARQL query failed (500): ", e)
  | Connections valuesStr _ =>
      if bool_decide (valuesStr = "wd:Q99") then (inl "SPARQL query failed (429): ", e)
      else
        (inr [ row [("source", entity "Q42"); ("target", entity "Q1");
                    ("propLabel", "place of birth"); ("targetLabel", "Earth")];
               row [("source", entity "Q42"); ("target", entity "Q1");
                    ("propLabel", "residence"); ("targetLabel", "Terra")];
               row [("source", entity "Q42"); ("target", entity "Q1");
                    ("propLabel", "residence"); ("targetLabel", "Terra")];
               row [("source", entity "Q42"); ("target", entity "Q5");
                    ("propLabel", "instance of"); ("isHuman", "true")] ], e)
  end.

Definition sample_stringify (request : GenerateMapRequest) : string :=
  "{names:" +:+ Consolidate.join "," (default [] (req_names request)) +:+
  ";qids:" +:+ Consolidate.join "," (default [] (req_qids request)) +:+
  ";depth:" +:+ pretty (req_depth request) +:+ "}".

Definition sample_env : Environment :=
  {| Env := unit;
     now := λ _, 1000%Z;
     http := sample_http;
     random := λ e, (0, e);
     pause := λ _ e, e;
     fits := λ _ _, true;
     stringify := sample_stringify |}.

Definition empty_world : @World sample_env := @mkWorld sample_env tt ∅ ∅ ∅ [].

Lemma getWikidataId_never_throws_witness :
  (∃ r w', @getWikidataId sample_env "Somebody" empty_world = (Ok r, w')) ∧
  (∀ w1, @getCachedQid sample_env "Somebody" empty_world = (Ok None, w1) →
     (Sanitization.trim "Somebody" = "" ∨ 200 < String.length (Sanitization.trim "Somebody") →
        @getWikidataId sample_env "Somebody" empty_world = (Ok None, w1)) ∧
     (∀ sanitized message e',
        Sanitization.sanitizeEntityName "Somebody" = Ok sanitized →
        @http sample_env (LabelLookup sanitized) (env w1) = (inl message, e') →
        ∃ w', @getWikidataId sample_env "Somebody" empty_world = (Ok None, w'))).
Proof. exact (@getWikidataId_never_throws sample_env "Somebody" empty_world). Defined.

Example getWikidataId_query_fails :
  (@getWikidataId sample_env "Somebody" empty_world).1 = Ok None.
Proof. vm_compute. reflexivity. Qed.

Example getWikidataId_blank_name :
  (@getWikidataId sample_env "   " empty_world).1 = Ok None ∧
  trace (@getWikidataId sample_env "   " empty_world).2 = [].
Proof. split; vm_compute; reflexivity. Qed.

Example getWikidataId_found :
  (@getWikidataId sample_env "Douglas Adams" empty_world).1 = Ok (Some "Q42").
Proof. vm_compute. reflexivity. Qed.

Definition cached_world : @World sample_env :=
  @mkWorld sample_env tt ∅
    {[ "Q7" := mkEntry [mkConn "Q7" "Q8" "Eight" "follows" None "concept" "Concept"] 5000%Z;
       "Q9" := mkEntry [mkConn "Q9" "Q8" "Eight" "precedes" None "concept" "Concept"] 10%Z ]}
    ∅ [].

Lemma fetchBatchConnections_degrades_witness :
  (∃ w', @fetchBatchConnections sample_env ["Q7"] cached_world
           = (Ok [mkConn "Q7" "Q8" "Eight" "follows" None "concept" "Concept"], w') ∧
         trace w' = []) ∧
  (∃ w', @fetchBatchConnections sample_env ["Q7"; "Q99"] cached_world
           = (Ok [mkConn "Q7" "Q8" "Eight" "follows" None "concept" "Concept"], w') ∧
         trace w' = [EvQuery (Connections "wd:Q99" 2000);
                     EvLog "SPARQL batch query error: SPARQL query failed (429): "]).
Proof.
  split.
  - apply (proj1 (@fetchBatchConnections_degrades sample_env ["Q7"] cached_world)).
    vm_compute. reflexivity.
  - apply (proj2 (@fetchBatchConnections_degrades sample_env ["Q7"; "Q99"] cached_world)
             ltac:(vm_compute; discriminate)
             "SPARQL query failed (429): " tt).
    vm_compute. reflexivity.
Defined.

End FetcherSpec.

(** ** Response cache *)

Module ApiSpec.

Section api.
Context `{E : Environment}.

(** The entry of [key] is younger than the TTL at the time of [w]. *)
Definition fresh (w : World) (cached : CachedResponse payload) : Prop :=
  (now (env w) - cr_timestamp cached < CACHE_TTL)%Z.

(** What [cachedFetch] does when it does not answer from the cache. *)
Definition stored (key : string) (d : payload) (w : World) : World :=
  with_responseCache (insert key (mkCached d (now (env w)))) w.

Lemma cachedFetch_hit key fetcher w cached :
  responseCache w !! key = Some cached → fresh w cached →
  cachedFetch key fetcher false w = (Ok (cr_data cached), w).
Proof.
  intros Hc Hf. unfold cachedFetch. rewrite Hc. simpl.
  by rewrite bool_decide_eq_true_2.
Qed.

Lemma cachedFetch_miss key fetcher skipCache w d w' :
  skipCache = true ∨ responseCache w !! key = None ∨
    (∃ cached, responseCache w !! key = Some cached ∧ ¬ fresh w cached) →
  fetcher w = (Ok d, w') →
  cachedFetch key fetcher skipCache w = (Ok d, stored key d w').
Proof.
  intros Hmiss Hrun.
  assert ((let* d := fetcher in
           let* t := gets (λ w, now (env w)) in
           let* _ := modify (with_responseCache (insert key (mkCached d t))) in
           ret d) w = (Ok d, stored key d w')) as Hm.
  { unfold bind at 1. by rewrite Hrun. }
  unfold cachedFetch. destruct skipCache; [done |].
  destruct Hmiss as [? | [-> | (cached & -> & Hold)]]; [done | done |].
  simpl. by rewrite bool_decide_eq_false_2.
Qed.

(** A failing producer stores nothing; its exception is the caller's. *)
Lemma cachedFetch_throw key fetcher w e w' :
  fetcher w = (Throw e, w') → cachedFetch key fetcher true w = (Throw e, w').
Proof. intros Hrun. unfold cachedFetch, bind. by rewrite Hrun. Qed.

(** After a call that returned [d] the cache holds [d] under the key. *)
Lemma cachedFetch_holds key fetcher skipCache w d w1 :
  cachedFetch key fetcher skipCache w = (Ok d, w1) →
  ∃ t, responseCache w1 !! key = Some (mkCached d t).
Proof.
  assert (∀ w, (let* d := fetcher in
                let* t := gets (λ w, now (env w)) in
                let* _ := modify (with_responseCache (insert key (mkCached d t))) in
                ret d) w = (Ok d, w1) →
          ∃ t, responseCache w1 !! key = Some (mkCached d t)) as Hm.
  { intros w0. unfold bind at 1. destruct (fetcher w0) as [[d' | e |] w']; [| done | done].
    intros [= -> <-]. eexists. simpl. apply lookup_insert_eq. }
  unfold cachedFetch. destruct skipCache; [apply Hm |].
  destruct (responseCache w !! key) as [cached |] eqn:Hc; [| apply Hm].
  destruct (isCacheValid _ _); [| apply Hm].
  intros [= <- <-]. exists (cr_timestamp cached). by destruct cached.
Qed.

(** The sweep keeps what is younger than the TTL. *)
Lemma clearExpiredCache_keeps key cached w :
  responseCache w !! key = Some cached → fresh w cached →
  responseCache (clearExpiredCache w).2 !! key = Some cached.
Proof.
  intros Hc Hf. unfold clearExpiredCache. simpl.
  apply map_lookup_filter_Some. split; [done |]. unfold fresh in Hf. simpl. lia.
Qed.

(** C7. With [skipCache] false and an entry under the key that was
    stored less than the TTL (10 minutes) ago, [cachedFetch] returns the
    data of the entry and does not run the producer: the state is
    untouched.  Otherwise it runs the producer and, when that returns a
    result, stores it under the key with the time after the run and
    returns it.  So when a [generateMap] call has returned a result, a
    later call with the same request and [skipCache] false, made while
    the entry is younger than the TTL, returns the same result and
    leaves the state, and with it the log of network queries, as it
    is. *)
Theorem cachedFetch_spec (key : string) (fetcher : M World payload) (skipCache : bool)
    (w : World) :
  (∀ cached, skipCache = false → responseCache w !! key = Some cached → fresh w cached →
     cachedFetch key fetcher skipCache w = (Ok (cr_data cached), w)) ∧
  (∀ d w', skipCache = true ∨ responseCache w !! key = None ∨
             (∃ cached, responseCache w !! key = Some cached ∧ ¬ fresh w cached) →
     fetcher w = (Ok d, w') →
     cachedFetch key fetcher skipCache w =
       (Ok d, with_responseCache (insert key (mkCached d (now (env w')))) w')) ∧
  (∀ request onProgress d w1,
     generateMap request skipCache onProgress w = (Ok d, w1) →
     ∃ t, responseCache w1 !! ("generate-" +:+ stringify request) = Some (mkCached d t) ∧
       ∀ onProgress' w2,
         responseCache w2 !! ("generate-" +:+ stringify request) = Some (mkCached d t) →
         (now (env w2) - t < CACHE_TTL)%Z →
         generateMap request false onProgress' w2 = (Ok d, w2)).
Proof.
  split_and!.
  - intros cached -> Hc Hf. by apply cachedFetch_hit.
  - intros d w' Hmiss Hrun. by apply cachedFetch_miss.
  - intros request onProgress d w1 Hcall. unfold generateMap in *.
    destruct (cachedFetch_holds _ _ _ _ _ _ Hcall) as [t Ht]. exists t. split; [done |].
    intros onProgress' w2 Hc Hf. by rewrite (cachedFetch_hit _ _ _ _ Hc Hf).
Qed.

End api.

Definition sample_request : GenerateMapRequest := mkRequest None (Some ["Q42"]) 1.

(** The first call of [generateMap] on the sample request, in the sample
    environment with empty caches. *)
Definition first_call : outcome payload * @World FetcherSpec.sample_env :=
  @generateMap FetcherSpec.sample_env sample_request false false FetcherSpec.empty_world.

Definition first_result : payload :=
  Eval vm_compute in match first_call.1 with Ok d => d | _ => PSearch [] end.

Definition is_query (ev : event) : bool :=
  match ev with EvQuery _ => true | _ => false end.

Example first_call_returns :
  first_call.1 = Ok first_result ∧
  ∃ g, first_result = PGraph g ∧ length (resp_nodes g) = 3 ∧
       length (filter (λ ev, is_query ev = true) (trace first_call.2)) = 1.
Proof.
  split; [vm_compute; reflexivity |]. eexists. split; [reflexivity |].
  split; vm_compute; reflexivity.
Qed.

(** The second call answers from the cache: same result, same state. *)
Lemma cachedFetch_spec_witness :
  @generateMap FetcherSpec.sample_env sample_request false true first_call.2
  = (Ok first_result, first_call.2).
Proof.
  assert (first_call = (Ok first_result, first_call.2)) as Hcall.
  { apply pair_eta. vm_compute. reflexivity. }
  destruct (proj2 (proj2 (@cachedFetch_spec FetcherSpec.sample_env "" (ret first_result)
                            false FetcherSpec.empty_world))
              sample_request false first_result first_call.2 Hcall) as (t & Ht & Hagain).
  apply Hagain; [exact Ht |].
  vm_compute in Ht. injection Ht as <-. reflexivity.
Defined.

End ApiSpec.

(** ** Graph builder *)

Module BuilderSpec.

(** *** Insertion-ordered maps *)

Lemma get_None {V} k (m : list (string * V)) : OMap.get k m = None ↔ k ∉ m.*1.
Proof.
  induction m as [| [k' v] m IH]; simpl.
  - split; [by intros _ ?%elem_of_nil | done].
  - case_decide as Hk; csimpl.
    + subst. split; [done | intros []; left].
    + rewrite IH, not_elem_of_cons. naive_solver.
Qed.

Lemma get_Some_elem {V} k (v : V) m : OMap.get k m = Some v → (k, v) ∈ m.
Proof.
  induction m as [| [k' v'] m IH]; simpl; [done |].
  case_decide as Hk; [intros [= ->]; subst; left | intros ?; right; auto].
Qed.

Lemma has_true {V} k (m : list (string * V)) : OMap.has k m = true ↔ k ∈ m.*1.
Proof.
  unfold OMap.has. destruct (OMap.get k m) eqn:Hg.
  - split; [intros _ | done]. destruct (decide (k ∈ m.*1)) as [| Hn]; [done |].
    apply get_None in Hn. congruence.
  - apply get_None in Hg. split; [done | intros; done].
Qed.

Lemma replace_keys {V} k (v : V) m : (OMap.replace k v m).*1 = m.*1.
Proof.
  induction m as [| [k' v'] m IH]; [done |].
  simpl. case_decide; csimpl; [by subst | by rewrite IH].
Qed.

Lemma elem_of_replace {V} k (v : V) m kv :
  kv ∈ OMap.replace k v m → kv = (k, v) ∨ kv ∈ m.
Proof.
  induction m as [| [k' v'] m IH]; simpl; [by right |].
  case_decide as Hk.
  - subst. intros [-> | ?]%elem_of_cons; [by left | right; by right].
  - intros [-> | Hin]%elem_of_cons; [right; left |].
    destruct (IH Hin); [by left | right; by right].
Qed.

Lemma elem_of_set {V} k (v : V) m kv : kv ∈ OMap.set k v m → kv = (k, v) ∨ kv ∈ m.
Proof.
  unfold OMap.set. destruct (OMap.get k m).
  - apply elem_of_replace.
  - intros [? | ->%list_elem_of_singleton]%elem_of_app; auto.
Qed.

Lemma set_keys_NoDup {V} k (v : V) m : NoDup m.*1 → NoDup (OMap.set k v m).*1.
Proof.
  intros Hnd. unfold OMap.set. destruct (OMap.get k m) eqn:Hg.
  - by rewrite replace_keys.
  - apply get_None in Hg. rewrite fmap_app. apply NoDup_app. split_and!; [done | | ].
    + intros x Hx [-> | ?%elem_of_nil]%elem_of_cons; simpl in *; done.
    + apply NoDup_singleton.
Qed.

(** *** The loop over the connections *)

(** Every key is the id of its node, and no key occurs twice. *)
Definition nodes_ok (m : list (string * GraphNode)) : Prop :=
  NoDup m.*1 ∧ ∀ k n, (k, n) ∈ m → node_id n = k.

(** The id derived from the triple of a connection. *)
Definition id_of_connection (c : ConnectionData) : string :=
  edge_id_of (conn_source c) (conn_target c) (conn_label c).

Record graph_ok (g : graph) : Prop := {
  ok_nodes : nodes_ok (nodes g);
  ok_edge_ids : NoDup (edge_id <$> edges g);
  ok_edge_set : ∀ i, i ∈ edgeIds g ↔ i ∈ edge_id <$> edges g;
  ok_edge_derived : ∀ e, e ∈ edges g →
    edge_id e = edge_id_of (edge_from e) (edge_to e) (edge_label e)
}.

Lemma nodes_ok_set k n m : nodes_ok m → node_id n = k → nodes_ok (OMap.set k n m).
Proof.
  intros [Hnd Hid] Hn. split; [by apply set_keys_NoDup |].
  intros k' n' [[= -> ->] | Hin]%elem_of_set; [done | by apply Hid].
Qed.

Lemma nodes_ok_relabel k l n m :
  nodes_ok m → OMap.get k m = Some n → nodes_ok (OMap.replace k (set_node_label l n) m).
Proof.
  intros [Hnd Hid] Hget. split; [by rewrite replace_keys |].
  intros k' n' [[= -> ->] | Hin]%elem_of_replace; [| by apply Hid].
  simpl. apply Hid. by apply get_Some_elem.
Qed.

(** One connection: the invariant is kept, the known edges stay, and
    afterwards the id derived from the connection is the id of an edge. *)
Lemma process_connection_ok acc c :
  graph_ok acc.1 →
  let g' := (process_connection acc c).1 in
  graph_ok g' ∧
  (∀ e, e ∈ edges acc.1 → e ∈ edges g') ∧
  id_of_connection c ∈ edge_id <$> edges g'.
Proof.
  intros [Hnodes Hnd Hset Hder]. unfold process_connection, id_of_connection.
  set (added := if OMap.has (conn_target c) (nodes acc.1) then _ else _).
  assert (nodes_ok added.1) as Hadded.
  { unfold added. destruct (OMap.has _ _); [done |]. simpl. by apply nodes_ok_set. }
  simpl. case_decide as Hin; simpl.
  - split_and!; [by split | done | by apply Hset].
  - rewrite Hset in Hin. split_and!.
    + split; simpl.
      * done.
      * rewrite fmap_app. apply NoDup_app. split_and!; [done | | apply NoDup_singleton].
        intros i Hi ->%list_elem_of_singleton. done.
      * intros i. rewrite fmap_app, elem_of_app, elem_of_union, elem_of_singleton, Hset.
        simpl. rewrite list_elem_of_singleton. naive_solver.
      * intros e [He | ->%list_elem_of_singleton]%elem_of_app; [by apply Hder | done].
    + intros e He. apply elem_of_app. by left.
    + rewrite fmap_app, elem_of_app. right. simpl. by left.
Qed.

Lemma process_connections_ok conns :
  ∀ acc, graph_ok acc.1 →
  let g' := (foldl process_connection acc conns).1 in
  graph_ok g' ∧
  (∀ e, e ∈ edges acc.1 → e ∈ edges g') ∧
  (∀ c, c ∈ conns → id_of_connection c ∈ edge_id <$> edges g').
Proof.
  induction conns as [| c conns IH]; intros acc Hok; simpl.
  - split_and!; [done | done | by intros ? ?%elem_of_nil].
  - destruct (process_connection_ok acc c Hok) as (Hok' & Hmono & Hc).
    destruct (IH (process_connection acc c) Hok') as (Hok'' & Hmono' & Hcs).
    split_and!; [done | by auto |].
    intros c' [-> | Hin]%elem_of_cons; [| by apply Hcs].
    apply list_elem_of_fmap in Hc as (e & -> & He). apply list_elem_of_fmap_2. by apply Hmono'.
Qed.

(** *** What a run fetches

    The connections handed back by [fetchBatchConnections] during a run
    are read off the trace; only the batch loop adds to them. *)

Definition fetched_conns (evs : list event) : list ConnectionData :=
  evs ≫= λ ev, match ev with EvFetched _ cs => cs | _ => [] end.

Lemma fetched_conns_app evs1 evs2 :
  fetched_conns (evs1 ++ evs2) = fetched_conns evs1 ++ fetched_conns evs2.
Proof. unfold fetched_conns. apply bind_app. Qed.

Section builder.
Context `{E : Environment}.

(** [m] leaves the fetched connections of the trace as they are. *)
Definition quiet {A} (m : M World A) : Prop :=
  ∀ w, fetched_conns (trace (m w).2) = fetched_conns (trace w).

Lemma quiet_ret {A} (a : A) : quiet (ret a).
Proof. by intros w. Qed.

Lemma quiet_throw {A} e : quiet (throw e : M World A).
Proof. by intros w. Qed.

Lemma quiet_diverge {A} : quiet (diverge : M World A).
Proof. by intros w. Qed.

Lemma quiet_lift {A} (o : outcome A) : quiet (lift o).
Proof. by intros w. Qed.

Lemma quiet_gets {A} (f : World → A) : quiet (gets f).
Proof. by intros w. Qed.

Lemma quiet_bind {A B} (m : M World A) (k : A → M World B) :
  quiet m → (∀ a, quiet (k a)) → quiet (bind m k).
Proof.
  intros Hm Hk w. unfold bind. specialize (Hm w).
  destruct (m w) as [[a | e |] w1]; simpl in *; [| done | done].
  by rewrite Hk.
Qed.

Lemma quiet_try_catch {A} (m : M World A) handler :
  quiet m → (∀ e, quiet (handler e)) → quiet (try_catch m handler).
Proof.
  intros Hm Hh w. unfold try_catch. specialize (Hm w).
  destruct (m w) as [[a | e |] w1]; simpl in *; [done | | done].
  by rewrite Hh.
Qed.

Lemma quiet_for_each {A S} (body : S → A → M World S) l :
  (∀ acc x, quiet (body acc x)) → ∀ acc, quiet (for_each body l acc).
Proof.
  intros Hb. induction l as [| x l IH]; intros acc; simpl.
  - apply quiet_ret.
  - apply quiet_bind; [apply Hb | apply IH].
Qed.

Lemma quiet_modify f :
  (∀ w, fetched_conns (trace (f w)) = fetched_conns (trace w)) → quiet (modify f).
Proof. intros Hf w. apply Hf. Qed.

Lemma quiet_log e : fetched_conns [e] = [] → quiet (log e).
Proof.
  intros He. apply quiet_modify. intros w. simpl.
  by rewrite fetched_conns_app, He, app_nil_r.
Qed.

Lemma quiet_getFromStorage_qid key : quiet (getFromStorage qid_store key).
Proof.
  intros w. unfold getFromStorage. simpl.
  destruct (qidStore w !! key); [case_bool_decide |]; done.
Qed.

Lemma quiet_getFromStorage_conn key : quiet (getFromStorage conn_store key).
Proof.
  intros w. unfold getFromStorage. simpl.
  destruct (connStore w !! key); [case_bool_decide |]; done.
Qed.

Lemma quiet_evictExpired : quiet evictExpired.
Proof. by intros w. Qed.

Lemma quiet_clearAllCaches : quiet clearAllCaches.
Proof. by intros w. Qed.

(** The two stores only touch their own map. *)
Definition lawful {T} (st : store T) : Prop :=
  ∀ f w, trace (over st f w) = trace w.

Lemma lawful_qid_store : lawful qid_store.
Proof. by intros f w. Qed.

Lemma lawful_conn_store : lawful conn_store.
Proof. by intros f w. Qed.

Lemma quiet_setItem {T} (st : store T) key entry : lawful st → quiet (setItem st key entry).
Proof.
  intros Hst w. unfold setItem. destruct (fits _ _); simpl; [by rewrite Hst | done].
Qed.

Lemma quiet_setInStorage {T} (st : store T) key d ttl :
  lawful st → quiet (setInStorage st key d ttl).
Proof.
  intros Hst. unfold setInStorage. apply quiet_bind; [apply quiet_gets |]. intros t.
  apply quiet_try_catch; [by apply quiet_setItem |]. intros _.
  apply quiet_bind; [apply quiet_evictExpired |]. intros _.
  apply quiet_try_catch; [by apply quiet_setItem |]. intros _.
  apply quiet_bind; [apply quiet_clearAllCaches |]. intros _.
  apply quiet_try_catch; [by apply quiet_setItem |]. intros _. apply quiet_ret.
Qed.

Lemma quiet_querySparql q : quiet (querySparql q).
Proof.
  intros w. unfold querySparql. destruct (http _ _) as [[? | ?] ?]; simpl;
    by rewrite fetched_conns_app, app_nil_r.
Qed.

Lemma quiet_field res x : quiet (field res x).
Proof. unfold field. destruct (res !! x); [apply quiet_ret | apply quiet_throw]. Qed.

Lemma quiet_getWikidataId name : quiet (getWikidataId name).
Proof.
  unfold getWikidataId. apply quiet_bind; [apply quiet_getFromStorage_qid |].
  intros [cached |]; [apply quiet_ret |].
  destruct (Sanitization.sanitizeEntityName name); [| apply quiet_ret | apply quiet_diverge].
  apply quiet_try_catch.
  - apply quiet_bind; [apply quiet_querySparql |]. intros [| first rest].
    + apply quiet_bind; [apply quiet_setInStorage, lawful_qid_store |].
      intros _. apply quiet_ret.
    + apply quiet_bind; [apply quiet_field |]. intros item.
      apply quiet_bind; [apply quiet_setInStorage, lawful_qid_store |].
      intros _. apply quiet_ret.
  - intros e. apply quiet_bind; [by apply quiet_log |]. intros _. apply quiet_ret.
Qed.

Lemma quiet_read_binding acc res : quiet (read_binding acc res).
Proof.
  unfold read_binding. apply quiet_bind; [apply quiet_field |]. intros target.
  destruct (negb _); [apply quiet_ret |].
  apply quiet_bind; [apply quiet_field |]. intros source. apply quiet_ret.
Qed.

Lemma quiet_fetchBatchConnections qids : quiet (fetchBatchConnections qids).
Proof.
  unfold fetchBatchConnections. case_bool_decide; [apply quiet_ret |].
  apply quiet_bind.
  { apply quiet_for_each. intros acc qid. unfold lookup_cached.
    apply quiet_bind; [apply quiet_getFromStorage_conn |].
    intros [cached |]; apply quiet_ret. }
  intros looked. case_bool_decide; [apply quiet_ret |].
  apply quiet_try_catch.
  - apply quiet_bind; [apply quiet_querySparql |]. intros bindings.
    apply quiet_bind; [apply quiet_for_each, quiet_read_binding |]. intros read.
    apply quiet_bind; [| intros _; apply quiet_ret].
    apply quiet_for_each. intros _ kv. apply quiet_setInStorage, lawful_conn_store.
  - intros e. apply quiet_bind; [by apply quiet_log |]. intros _. apply quiet_ret.
Qed.

Lemma quiet_sleep ms : quiet (sleep ms).
Proof. by intros w. Qed.

Lemma quiet_draw n : quiet (draw n).
Proof. intros w. unfold draw. by destruct (random (env w)). Qed.

Lemma quiet_shuffleArray arr : quiet (shuffleArray arr).
Proof.
  unfold shuffleArray. generalize (length arr - 1). intros i. revert arr.
  induction i as [| i IH]; intros arr; simpl; [apply quiet_ret |].
  apply quiet_bind; [apply quiet_draw |]. intros j. apply IH.
Qed.

Lemma quiet_report onProgress msg : quiet (report onProgress msg).
Proof. unfold report. destruct onProgress; [by apply quiet_log | apply quiet_ret]. Qed.

Lemma quiet_resolve_name onProgress acc name : quiet (resolve_name onProgress acc name).
Proof.
  unfold resolve_name. apply quiet_bind; [apply quiet_report |]. intros _.
  apply quiet_bind; [apply quiet_getWikidataId |]. intros [qid |].
  - case_bool_decide.
    + apply quiet_bind; [by apply quiet_log |]. intros _. apply quiet_ret.
    + destruct (OMap.get qid acc.2); apply quiet_ret.
  - apply quiet_bind; [by apply quiet_log |]. intros _. apply quiet_ret.
Qed.


Lemma bind_Ok {A B} (m : M World A) (k : A → M World B) w b w' :
  bind m k w = (Ok b, w') → ∃ a w1, m w = (Ok a, w1) ∧ k a w1 = (Ok b, w').
Proof.
  unfold bind. destruct (m w) as [[a | e |] w1]; [by eauto | done | done].
Qed.

Lemma for_each_inv {A S} (P : S → Prop) (body : S → A → M World S) l :
  (∀ acc x w acc' w', P acc → body acc x w = (Ok acc', w') → P acc') →
  ∀ acc w acc' w', P acc → for_each body l acc w = (Ok acc', w') → P acc'.
Proof.
  intros Hb. induction l as [| x l IH]; intros acc w acc' w' HP; simpl.
  - by intros [= <- _].
  - intros (acc1 & w1 & H1 & H2)%bind_Ok. eapply IH; [| exact H2]. by eapply Hb.
Qed.

(** The batch loop returns what it fetched, in order. *)
Lemma fetch_batches_spec toProcess batchSize fuel :
  ∀ i acc w r w', fetch_batches fuel i toProcess batchSize acc w = (r, w') →
  ∃ new,
    fetched_conns (trace w') = fetched_conns (trace w) ++ new ∧
    ∀ all, r = Ok all → all = acc ++ new.
Proof.
  assert (∀ acc w r w', (r, w') = (Ok acc, w) ∨ (r ≠ Ok acc ∧ ∀ a, r ≠ Ok a) ∧
            fetched_conns (trace w') = fetched_conns (trace w) →
          ∃ new : list ConnectionData,
            fetched_conns (trace w') = fetched_conns (trace w) ++ new ∧
            ∀ all, r = Ok all → all = acc ++ new) as Hstop.
  { intros acc w r w' [[= -> ->] | [[_ Hno] Hq]]; exists []; rewrite !app_nil_r.
    - split; [done |]. by intros all [= <-].
    - split; [done |]. intros all ->. by destruct (Hno all). }
  induction fuel as [| fuel IH]; intros i acc w r w'; simpl.
  - case_bool_decide; intros [= <- <-]; apply Hstop; [right | left]; done.
  - case_bool_decide; [| intros [= <- <-]; apply Hstop; by left].
    unfold bind at 1.
    pose proof (quiet_fetchBatchConnections (take batchSize (drop i toProcess)) w) as Hq.
    destruct (fetchBatchConnections (take batchSize (drop i toProcess)) w)
      as [[conns | e |] w1]; simpl in Hq.
    2, 3: intros [= <- <-]; apply Hstop; right; done.
    unfold bind at 1, log at 1, modify at 1.
    set (w2 := emit (EvFetched (take batchSize (drop i toProcess)) conns) w1).
    assert (fetched_conns (trace w2) = fetched_conns (trace w) ++ conns) as H2.
    { unfold w2. simpl. rewrite fetched_conns_app, Hq. simpl. by rewrite app_nil_r. }
    unfold bind at 1.
    set (pause_ := if bool_decide (i + batchSize < length toProcess)
                   then sleep BATCH_RATE_LIMIT else ret tt).
    assert (quiet pause_) as Hp.
    { unfold pause_. case_bool_decide; [apply quiet_sleep | apply quiet_ret]. }
    specialize (Hp w2).
    destruct (pause_ w2) as [[[] | e |] w3]; cbn [snd] in Hp.
    2, 3: intros [= <- <-]; exists conns; rewrite Hp, H2; done.
    intros Hrest. destruct (IH _ _ _ _ _ Hrest) as (new & Hnew & Hall).
    exists (conns ++ new). split.
    + by rewrite Hnew, Hp, H2, app_assoc.
    + intros all Hres. rewrite app_assoc. by apply Hall.
Qed.

(** The layers: the invariant of the graph is kept, the edges only grow,
    and the id derived from every connection fetched on the way is the
    id of an edge of the final graph. *)
Lemma build_layers_spec onProgress depth remaining :
  ∀ currentDepth currentLayerIds g w r w', graph_ok g →
  build_layers onProgress remaining currentDepth depth currentLayerIds g w = (r, w') →
  ∃ new,
    fetched_conns (trace w') = fetched_conns (trace w) ++ new ∧
    ∀ g', r = Ok g' →
      graph_ok g' ∧
      (∀ e, e ∈ edges g → e ∈ edges g') ∧
      (∀ c, c ∈ new → id_of_connection c ∈ edge_id <$> edges g').
Proof.
  assert (∀ g w r w' (new : list ConnectionData), graph_ok g →
            fetched_conns (trace w') = fetched_conns (trace w) ++ new →
            r = Ok g ∧ new = [] ∨ (∀ a, r ≠ Ok a) →
          ∃ new : list ConnectionData,
            fetched_conns (trace w') = fetched_conns (trace w) ++ new ∧
            ∀ g', r = Ok g' →
              graph_ok g' ∧
              (∀ e, e ∈ edges g → e ∈ edges g') ∧
              (∀ c, c ∈ new → id_of_connection c ∈ edge_id <$> edges g')) as Hstop.
  { intros g w r w' new Hok Hq Hcase. exists new. split; [done |].
    destruct Hcase as [[-> ->] | Hno].
    - intros g' [= <-]. split_and!; [done | done | by intros ? ?%elem_of_nil].
    - intros g' ->. by destruct (Hno g'). }
  induction remaining as [| remaining IH]; intros currentDepth layer g w r w' Hok; simpl.
  { intros [= <- <-]. apply (Hstop g w _ _ []); [done | by rewrite app_nil_r | by left]. }
  case_bool_decide.
  { intros [= <- <-]. apply (Hstop g w _ _ []); [done | by rewrite app_nil_r | by left]. }
  set (config := getDepthConfig (currentDepth + 1)).
  set (candidates := filter (λ id, id ∉ processedIds g) layer).
  set (select := if bool_decide (max_nodes_per_layer config < length candidates)
                 then _ else _).
  assert (quiet select) as Hsel.
  { unfold select. case_bool_decide; [| apply quiet_ret].
    apply quiet_bind; [apply quiet_shuffleArray |]. intros ?. apply quiet_ret. }
  unfold bind at 1. specialize (Hsel w).
  destruct (select w) as [[toProcess | e |] w1]; cbn [snd] in Hsel.
  2, 3: intros [= <- <-]; apply (Hstop g w _ _ []);
        [done | by rewrite Hsel, app_nil_r | by right].
  case_bool_decide.
  { intros [= <- <-].
    apply (Hstop g w _ _ []); [done | by rewrite Hsel, app_nil_r | by left]. }
  unfold bind at 1.
  pose proof (quiet_report onProgress
                (ProcessingDepth (currentDepth + 1) depth (length toProcess)) w1) as Hrep.
  destruct (report onProgress _ w1) as [[[] | e |] w2]; cbn [snd] in Hrep.
  2, 3: intros [= <- <-]; apply (Hstop g w _ _ []);
        [done | by rewrite Hrep, Hsel, app_nil_r | by right].
  unfold bind at 1.
  destruct (fetch_batches (length toProcess) 0 toProcess (batch_size config) [] w2)
    as [rf w3] eqn:Hfb.
  destruct (fetch_batches_spec _ _ _ _ _ _ _ _ Hfb) as (fetched & Hf & Hall).
  destruct rf as [conns | e |].
  2, 3: intros [= <- <-]; apply (Hstop g w _ _ fetched);
        [done | by rewrite Hf, Hrep, Hsel | by right].
  specialize (Hall conns eq_refl). simpl in Hall. subst conns.
  destruct (process_connections_ok fetched (g, []) Hok) as (Hok' & Hmono & Hcov).
  set (processed := foldl process_connection (g, []) fetched) in *.
  set (g1 := mkGraph (nodes processed.1) (edges processed.1)
                     (list_to_set toProcess ∪ processedIds processed.1)
                     (edgeIds processed.1)).
  assert (graph_ok g1) as Hok1 by (destruct Hok'; by split).
  intros Hrest.
  destruct (IH (currentDepth + 1) processed.2 g1 w3 r w' Hok1 Hrest) as (new & Hnew & Hspec).
  exists (fetched ++ new). split.
  - by rewrite Hnew, Hf, Hrep, Hsel, app_assoc.
  - intros g' Hg'. destruct (Hspec g' Hg') as (Hok'' & Hmono' & Hcov').
    split_and!; [done | by auto |].
    intros c [Hc | Hc]%elem_of_app; [| by apply Hcov'].
    destruct (list_elem_of_fmap_1 _ _ _ (Hcov c Hc)) as (e & -> & He).
    apply list_elem_of_fmap_2. by apply Hmono'.
Qed.

Lemma seed_qids_ok qids :
  ∀ acc, nodes_ok acc.2 → nodes_ok (foldl seed_qid acc qids).2.
Proof.
  induction qids as [| qid qids IH]; intros acc Hok; [done |].
  simpl. apply IH. simpl. by apply nodes_ok_set.
Qed.

Lemma resolve_name_ok onProgress acc name w acc' w' :
  nodes_ok acc.2 → resolve_name onProgress acc name w = (Ok acc', w') → nodes_ok acc'.2.
Proof.
  intros Hok. unfold resolve_name.
  intros ([] & w1 & _ & (qid & w2 & _ & Hrest)%bind_Ok)%bind_Ok.
  destruct qid as [qid |].
  - case_bool_decide.
    + apply bind_Ok in Hrest as ([] & w3 & _ & [= <- _]). done.
    + destruct (OMap.get qid acc.2) as [node |] eqn:Hget; injection Hrest as <- _; simpl.
      * by apply nodes_ok_relabel.
      * by apply nodes_ok_set.
  - apply bind_Ok in Hrest as ([] & w3 & _ & [= <- _]). done.
Qed.

(** What [generateGraph] returns comes out of the layers, started on the
    seed nodes. *)
Lemma generateGraph_Ok request onProgress w resp w' :
  generateGraph request onProgress w = (Ok resp, w') →
  ∃ g seeds, nodes_ok seeds ∧
    resp = mkResponse (OMap.values (nodes g)) (edges g) ∧
    graph_ok g ∧
    ∃ new, fetched_conns (trace w') = fetched_conns (trace w) ++ new ∧
           ∀ c, c ∈ new → id_of_connection c ∈ edge_id <$> edges g.
Proof.
  unfold generateGraph.
  intros (names & w1 & Hn & (rawQids & w2 & Hq & (depth & w3 & Hd & Hrest)%bind_Ok)%bind_Ok)%bind_Ok.
  assert (w3 = w) as ->.
  { unfold lift in *. by injection Hn as _ <-; injection Hq as _ <-; injection Hd as _ <-. }
  destruct (_ && _); [done |].
  apply bind_Ok in Hrest as (qids & w4 & Hs & Hrest).
  assert (w4 = w) as -> by (unfold lift in Hs; by injection Hs as _ <-).
  apply bind_Ok in Hrest as (resolved & w5 & Hres & Hrest).
  case_bool_decide; [done |].
  apply bind_Ok in Hrest as (g & w6 & Hg & (? & w7 & Hrep & [= <- <-])%bind_Ok).
  assert (nodes_ok resolved.2) as Hnodes.
  { eapply (for_each_inv (λ acc, nodes_ok acc.2)); [| | exact Hres].
    - intros. by eapply resolve_name_ok.
    - apply seed_qids_ok. split; [constructor | by intros ? ? ?%elem_of_nil]. }
  assert (graph_ok (mkGraph resolved.2 [] ∅ ∅)) as Hok0.
  { split; simpl; [done | constructor | | by intros ? ?%elem_of_nil].
    intros i. split; [by intros ?%not_elem_of_empty | by intros ?%elem_of_nil]. }
  destruct (build_layers_spec onProgress depth depth 0 resolved.1 _ w5 _ _ Hok0 Hg)
    as (new & Hnew & Hspec).
  destruct (Hspec g eq_refl) as (Hok & _ & Hcov).
  exists g, resolved.2. split_and!; [done | done | done |].
  exists new. split; [| done].
  pose proof (quiet_report onProgress (Done (length (nodes g)) (length (edges g))) w6) as Hr.
  rewrite Hrep in Hr. simpl in Hr. rewrite Hr, Hnew.
  pose proof (quiet_for_each (resolve_name onProgress) names
                (quiet_resolve_name onProgress) (foldl seed_qid ([], []) qids) w) as Hfe.
  rewrite Hres in Hfe. simpl in Hfe. by rewrite Hfe.
Qed.


(** *** The loops end *)

Lemma batch_size_positive depth : 0 < batch_size (getDepthConfig depth).
Proof.
  unfold getDepthConfig, DEPTH_CONFIG.
  do 11 (destruct depth as [| depth]; [simpl; lia |]). simpl. lia.
Qed.

(** With a positive batch size the index passes the end of the layer
    before the fuel, one unit per identifier, runs out. *)
Lemma halts_fetch_batches toProcess batchSize fuel :
  0 < batchSize →
  ∀ i acc, length toProcess - i ≤ fuel →
  FetcherSpec.halts (fetch_batches fuel i toProcess batchSize acc).
Proof.
  intros Hpos. induction fuel as [| fuel IH]; intros i acc Hfuel; simpl.
  - rewrite bool_decide_eq_false_2 by lia. apply FetcherSpec.returns_halts, FetcherSpec.returns_ret.
  - case_bool_decide; [| apply FetcherSpec.returns_halts, FetcherSpec.returns_ret].
    apply FetcherSpec.halts_bind;
      [apply FetcherSpec.returns_halts, FetcherSpec.returns_fetchBatchConnections |].
    intros conns.
    apply FetcherSpec.halts_bind; [apply FetcherSpec.returns_halts, FetcherSpec.returns_log |].
    intros _. apply FetcherSpec.halts_bind.
    { case_bool_decide; apply FetcherSpec.returns_halts;
        [apply FetcherSpec.returns_modify | apply FetcherSpec.returns_ret]. }
    intros _. apply IH. lia.
Qed.

Lemma returns_shuffleArray arr : FetcherSpec.returns (shuffleArray arr).
Proof.
  unfold shuffleArray. generalize (length arr - 1). intros i. revert arr.
  induction i as [| i IH]; intros arr; simpl; [apply FetcherSpec.returns_ret |].
  apply FetcherSpec.returns_bind; [| intros j; apply IH].
  intros w. unfold draw. destruct (random (env w)). by eexists _, _.
Qed.

Lemma returns_report onProgress msg : FetcherSpec.returns (report onProgress msg).
Proof.
  unfold report. destruct onProgress; [apply FetcherSpec.returns_log | apply FetcherSpec.returns_ret].
Qed.

Lemma halts_build_layers onProgress depth remaining :
  ∀ currentDepth currentLayerIds g,
  FetcherSpec.halts (build_layers onProgress remaining currentDepth depth currentLayerIds g).
Proof.
  induction remaining as [| remaining IH]; intros currentDepth layer g; simpl;
    [apply FetcherSpec.returns_halts, FetcherSpec.returns_ret |].
  case_bool_decide; [apply FetcherSpec.returns_halts, FetcherSpec.returns_ret |].
  apply FetcherSpec.halts_bind.
  { apply FetcherSpec.returns_halts. case_bool_decide; [| apply FetcherSpec.returns_ret].
    apply FetcherSpec.returns_bind; [apply returns_shuffleArray |].
    intros ?. apply FetcherSpec.returns_ret. }
  intros toProcess.
  case_bool_decide; [apply FetcherSpec.returns_halts, FetcherSpec.returns_ret |].
  apply FetcherSpec.halts_bind; [apply FetcherSpec.returns_halts, returns_report |]. intros _.
  apply FetcherSpec.halts_bind.
  { apply halts_fetch_batches; [apply batch_size_positive | lia]. }
  intros conns. apply IH.
Qed.

Lemma returns_resolve_name onProgress acc name :
  FetcherSpec.returns (resolve_name onProgress acc name).
Proof.
  unfold resolve_name. apply FetcherSpec.returns_bind; [apply returns_report |]. intros _.
  apply FetcherSpec.returns_bind; [apply FetcherSpec.returns_getWikidataId |]. intros [qid |].
  - case_bool_decide.
    + apply FetcherSpec.returns_bind; [apply FetcherSpec.returns_log |].
      intros _. apply FetcherSpec.returns_ret.
    + destruct (OMap.get qid acc.2); apply FetcherSpec.returns_ret.
  - apply FetcherSpec.returns_bind; [apply FetcherSpec.returns_log |].
    intros _. apply FetcherSpec.returns_ret.
Qed.

Lemma halts_lift {A} (o : outcome A) : o ≠ Diverge → FetcherSpec.halts (lift o : M World A).
Proof. by intros Ho w. Qed.

Lemma validated_halts x : validated x ≠ Diverge.
Proof.
  destruct x as [l |]; [| done]. unfold validated, Sanitization.validateEntityList.
  repeat case_bool_decide; done.
Qed.

Lemma sanitize_all_halts rawQids : sanitize_all rawQids ≠ Diverge.
Proof.
  induction rawQids as [| q rest IH]; [done |]. simpl.
  unfold Sanitization.sanitizeQid. case_bool_decide; [done |].
  destruct (negb _); [done |]. by destruct (sanitize_all rest).
Qed.

(** [generateGraph] returns a graph or throws: the fuel of the batch
    loop never runs out. *)
Lemma generateGraph_halts request onProgress :
  FetcherSpec.halts (generateGraph request onProgress).
Proof.
  unfold generateGraph.
  apply FetcherSpec.halts_bind; [apply halts_lift, validated_halts |]. intros names.
  apply FetcherSpec.halts_bind; [apply halts_lift, validated_halts |]. intros rawQids.
  apply FetcherSpec.halts_bind.
  { apply halts_lift. unfold Sanitization.validateDepth. repeat case_bool_decide; done. }
  intros depth. destruct (_ && _); [apply FetcherSpec.halts_throw |].
  apply FetcherSpec.halts_bind; [apply halts_lift, sanitize_all_halts |]. intros qids.
  apply FetcherSpec.halts_bind.
  { apply FetcherSpec.returns_halts, FetcherSpec.returns_for_each. intros acc name.
    apply returns_resolve_name. }
  intros resolved. case_bool_decide; [apply FetcherSpec.halts_throw |].
  apply FetcherSpec.halts_bind; [apply halts_build_layers |]. intros g.
  apply FetcherSpec.returns_halts, FetcherSpec.returns_bind; [apply returns_report |].
  intros _. apply FetcherSpec.returns_ret.
Qed.

Lemma NoDup_fmap_eq {A B} (f : A → B) (l : list A) x y :
  NoDup (f <$> l) → x ∈ l → y ∈ l → f x = f y → x = y.
Proof.
  induction l as [| a l IH]; [by intros _ ?%elem_of_nil |].
  rewrite fmap_cons, NoDup_cons. intros [Ha Hnd] Hx Hy Heq.
  apply elem_of_cons in Hx as [-> | Hx]; apply elem_of_cons in Hy as [-> | Hy].
  - done.
  - destruct Ha. rewrite Heq. by apply list_elem_of_fmap_2.
  - destruct Ha. rewrite <- Heq. by apply list_elem_of_fmap_2.
  - by apply IH.
Qed.

(** C3. In the graph returned by [generateGraph] no two edges have the
    same id, the id of every edge is derived from its source, target and
    label, and for every connection fetched during the run, in whatever
    batch or layer, the returned edge list has exactly one edge with the
    id derived from the triple of the connection: connections with the
    same triple fall on one edge. *)
Theorem generateGraph_edges_unique request onProgress (w : World) resp w' :
  generateGraph request onProgress w = (Ok resp, w') →
  NoDup (edge_id <$> resp_edges resp) ∧
  (∀ e, e ∈ resp_edges resp →
     edge_id e = edge_id_of (edge_from e) (edge_to e) (edge_label e)) ∧
  ∃ new, fetched_conns (trace w') = fetched_conns (trace w) ++ new ∧
    ∀ c, c ∈ new →
      ∃ e, e ∈ resp_edges resp ∧ edge_id e = id_of_connection c ∧
           ∀ e', e' ∈ resp_edges resp → edge_id e' = id_of_connection c → e' = e.
Proof.
  intros (g & seeds & _ & -> & [_ Hnd _ Hder] & new & Hnew & Hcov)%generateGraph_Ok.
  simpl. split_and!; [done | done |]. exists new. split; [done |].
  intros c Hc. destruct (list_elem_of_fmap_1 _ _ _ (Hcov c Hc)) as (e & Hid & He).
  exists e. split_and!; [done | done |].
  intros e' He' Hid'. apply (NoDup_fmap_eq edge_id (edges g)); [done | done | done | congruence].
Qed.

Lemma values_ids m : nodes_ok m → node_id <$> OMap.values m = m.*1.
Proof.
  intros [_ Hid]. unfold OMap.values. induction m as [| [k n] m IH]; [done |].
  csimpl. rewrite (Hid k n) by left. f_equal. apply IH. intros k' n' Hin. apply Hid. by right.
Qed.

(** The node list returned by [generateGraph] has no two nodes with the
    same id.  A name that resolves to an id that is already known
    relabels the node of that id, in place; a fetched connection whose
    target is already known leaves the nodes, and so the label of the
    target, as they are.  Neither adds a node. *)
Theorem generateGraph_nodes_unique request onProgress (w : World) resp w' :
  generateGraph request onProgress w = (Ok resp, w') →
  NoDup (node_id <$> resp_nodes resp) ∧
  (∀ acc name w0 w1 w2 qid node,
     report onProgress (Resolving name) w0 = (Ok tt, w1) →
     getWikidataId name w1 = (Ok (Some qid), w2) → qid ≠ "" →
     OMap.get qid acc.2 = Some node →
     resolve_name onProgress acc name w0 =
       (Ok (acc.1, OMap.replace qid (set_node_label name node) acc.2), w2) ∧
     (OMap.replace qid (set_node_label name node) acc.2).*1 = acc.2.*1) ∧
  (∀ acc conn, OMap.has (conn_target conn) (nodes acc.1) = true →
     nodes (process_connection acc conn).1 = nodes acc.1).
Proof.
  intros (g & seeds & _ & -> & [Hnodes _ _ _] & _)%generateGraph_Ok. split_and!.
  - simpl. rewrite values_ids by done. apply Hnodes.
  - intros acc name w0 w1 w2 qid node Hrep Hres Hne Hget. split; [| apply replace_keys].
    unfold resolve_name, bind. rewrite Hrep, Hres.
    rewrite bool_decide_eq_false_2 by done. by rewrite Hget.
  - intros acc conn Hhas. unfold process_connection. rewrite Hhas. simpl.
    by case_decide.
Qed.

End builder.

(** *** Runs in the sample environment *)

Definition run (request : GenerateMapRequest) :
    outcome GenerateMapResponse * @World FetcherSpec.sample_env :=
  @generateGraph FetcherSpec.sample_env request false FetcherSpec.empty_world.

Definition response_of (r : outcome GenerateMapResponse) : GenerateMapResponse :=
  match r with Ok resp => resp | _ => mkResponse [] [] end.

Definition one_seed : GenerateMapRequest := mkRequest None (Some ["Q42"]) 1.

Definition one_seed_response : GenerateMapResponse :=
  Eval vm_compute in response_of (run one_seed).1.

Definition one_seed_world : @World FetcherSpec.sample_env := (run one_seed).2.

Lemma one_seed_run :
  @generateGraph FetcherSpec.sample_env one_seed false FetcherSpec.empty_world
  = (Ok one_seed_response, one_seed_world).
Proof.
  apply (pair_eta (run one_seed)). vm_compute. reflexivity.
Qed.

Lemma generateGraph_edges_unique_witness :
  NoDup (edge_id <$> resp_edges one_seed_response) ∧
  (∀ e, e ∈ resp_edges one_seed_response →
     edge_id e = edge_id_of (edge_from e) (edge_to e) (edge_label e)) ∧
  ∃ new, fetched_conns (trace one_seed_world)
           = fetched_conns (trace FetcherSpec.empty_world) ++ new ∧
    ∀ c, c ∈ new →
      ∃ e, e ∈ resp_edges one_seed_response ∧ edge_id e = id_of_connection c ∧
           ∀ e', e' ∈ resp_edges one_seed_response →
                 edge_id e' = id_of_connection c → e' = e.
Proof.
  apply (@generateGraph_edges_unique FetcherSpec.sample_env one_seed false
           FetcherSpec.empty_world one_seed_response one_seed_world).
  apply (pair_eta (run one_seed)). vm_compute. reflexivity.
Defined.

(** The sample run fetches the triple [(Q42, Q1, residence)] twice and
    returns three edges for its four connections. *)
Example one_seed_edges :
  length (fetched_conns (trace one_seed_world)) = 4 ∧
  edge_id <$> resp_edges one_seed_response =
    ["Q42-Q1-place of birth"; "Q42-Q1-residence"; "Q42-Q5-instance of"].
Proof. split; vm_compute; reflexivity. Qed.

Lemma generateGraph_nodes_unique_witness :
  NoDup (node_id <$> resp_nodes one_seed_response).
Proof.
  apply (@generateGraph_nodes_unique FetcherSpec.sample_env one_seed false
           FetcherSpec.empty_world one_seed_response one_seed_world).
  apply (pair_eta (run one_seed)). vm_compute. reflexivity.
Defined.

(** The sample run discovers [Q1] three times through fetched
    connections, first with the label [Earth], then twice with [Terra],
    and the returned node keeps the first label. *)
Lemma generateGraph_nodes_unique_counterexample :
  (run one_seed).1 = Ok one_seed_response ∧
  conn_target_label <$>
    filter (λ c, conn_target c = "Q1") (fetched_conns (trace (run one_seed).2))
    = ["Earth"; "Terra"; "Terra"] ∧
  node_label <$> filter (λ n, node_id n = "Q1") (resp_nodes one_seed_response)
    = ["Earth"].
Proof. split_and!; vm_compute; reflexivity. Qed.

(** The example of the specification: one seed given by id, depth 1, one
    connection [Q42 → Q1] labelled ["born in"]: two nodes and one edge,
    the seed flagged and the new node not. *)
Definition stub_env : Environment :=
  {| Env := unit;
     now := λ _, 0%Z;
     http := λ _ e,
       (inr [FetcherSpec.row [("source", FetcherSpec.entity "Q42");
                              ("target", FetcherSpec.entity "Q1");
                              ("propLabel", "born in")]], e);
     random := λ e, (0, e);
     pause := λ _ e, e;
     fits := λ _ _, true;
     stringify := FetcherSpec.sample_stringify |}.

Example one_connection :
  (λ r, ((λ n, (node_id n, node_isInitialEntity n)) <$> resp_nodes r,
         (λ e, (edge_from e, edge_to e, edge_label e, edge_category e)) <$> resp_edges r))
    (response_of (@generateGraph stub_env one_seed false (@mkWorld stub_env tt ∅ ∅ ∅ [])).1)
  = ([("Q42", Some true); ("Q1", None)],
     [("Q42", "Q1", "born in", Some "other")]).
Proof. vm_compute. reflexivity. Qed.

Definition twice_seed : GenerateMapRequest := mkRequest None (Some ["q42"; "Q42"]) 1.

(** C2 fails on two spellings of one identifier: [validateEntityList]
    removes duplicates before [sanitizeQid] puts the identifiers in upper
    case, so the initial layer holds [Q42] twice, and the one batch of
    the run asks for it twice. *)
Theorem generateGraph_duplicate_seed :
  Sanitization.validateEntityList ["q42"; "Q42"] 10 = Ok ["q42"; "Q42"] ∧
  sanitize_all ["q42"; "Q42"] = Ok ["Q42"; "Q42"] ∧
  (foldl seed_qid ([], []) ["Q42"; "Q42"]).1 = ["Q42"; "Q42"] ∧
  (∃ resp, (run twice_seed).1 = Ok resp) ∧
  ∃ conns, trace (run twice_seed).2 =
             [EvQuery (Connections "wd:Q42 wd:Q42" 2000);
              EvFetched ["Q42"; "Q42"] conns].
Proof.
  split_and!; [reflexivity | reflexivity | reflexivity | |].
  - eexists. vm_compute. reflexivity.
  - eexists. vm_compute. reflexivity.
Qed.

(** *** A seed that is discovered again *)

(** An endpoint in which [Q42] and [Q1] point to each other, and which
    knows [Q42] under its English name. *)
Definition mutual_http (q : sparql_query) (e : unit) : (string + list binding) * unit :=
  match q with
  | LabelLookup name =>
      if bool_decide (name = "Douglas Adams")
      then (inr [FetcherSpec.row [("item", FetcherSpec.entity "Q42")]], e)
      else (inr [], e)
  | Connections valuesStr _ =>
      if bool_decide (valuesStr = "wd:Q42") then
        (inr [FetcherSpec.row
                [("source", FetcherSpec.entity "Q42"); ("target", FetcherSpec.entity "Q1");
                 ("propLabel", "place of birth"); ("targetLabel", "Cambridge")]], e)
      else if bool_decide (valuesStr = "wd:Q1") then
        (inr [FetcherSpec.row
                [("source", FetcherSpec.entity "Q1"); ("target", FetcherSpec.entity "Q42");
                 ("propLabel", "birthplace of"); ("targetLabel", "Douglas Adams");
                 ("isHuman", "true"); ("typeLabel", "human")]], e)
      else (inl "SPARQL query failed (500): ", e)
  end.

Definition mutual_env : Environment :=
  {| Env := unit;
     now := λ _, 1000%Z;
     http := mutual_http;
     random := λ e, (0, e);
     pause := λ _ e, e;
     fits := λ _ _, true;
     stringify := FetcherSpec.sample_stringify |}.

Definition mutual_run (request : GenerateMapRequest)
    : outcome GenerateMapResponse * @World mutual_env :=
  @generateGraph mutual_env request false (@mkWorld mutual_env tt ∅ ∅ ∅ []).

(** What a response shows of the node [Q42]. *)
Definition shown (r : outcome GenerateMapResponse) : list (string * string * string) :=
  (λ n, (node_id n, node_label n, node_title n)) <$>
    filter (λ n, node_id n = "Q42") (resp_nodes (response_of r)).

Definition seed_by_id : GenerateMapRequest := mkRequest None (Some ["Q42"]) 2.

Definition seed_by_id_and_name : GenerateMapRequest :=
  mkRequest (Some ["Douglas Adams"]) (Some ["Q42"]) 2.

(** C5. The claim fails on the code for a discovery through a fetched
    connection.  With the seed [Q42] given by id and depth 2, the second
    layer discovers [Q42] again, as the target of a connection with the
    label [Douglas Adams]: no second node is made, but the node keeps
    the label and the title of its creation, [Q42] and [Loading...].
    The loop over the names does relabel: with the name given as well,
    the node of [Q42] carries it. *)
Theorem generateGraph_known_target_keeps_label :
  (∃ resp, (mutual_run seed_by_id).1 = Ok resp ∧
           node_id <$> resp_nodes resp = ["Q42"; "Q1"]) ∧
  (λ c, (conn_target c, conn_target_label c)) <$>
    fetched_conns (trace (mutual_run seed_by_id).2)
    = [("Q1", "Cambridge"); ("Q42", "Douglas Adams")] ∧
  shown (mutual_run seed_by_id).1 = [("Q42", "Q42", "Loading...")] ∧
  shown (mutual_run seed_by_id_and_name).1 = [("Q42", "Douglas Adams", "Loading...")].
Proof.
  split_and!; [| vm_compute; reflexivity ..].
  eexists. split; vm_compute; reflexivity.
Qed.

End BuilderSpec.

(** ** Sanitizer: canonical identifiers, escaping, entity lists *)

Module SanitizationSpec.
Import Sanitization.

(** *** Strings as lists of code units *)

Abbreviation chars := String.list_ascii_of_string.
Abbreviation text := String.string_of_list_ascii.

Lemma chars_inj s1 s2 : chars s1 = chars s2 → s1 = s2.
Proof.
  intros H. rewrite <- (String.string_of_list_ascii_of_string s1), H.
  apply String.string_of_list_ascii_of_string.
Qed.

Lemma chars_append s1 s2 : chars (s1 +:+ s2) = chars s1 ++ chars s2.
Proof. induction s1 as [| c s1 IH]; [done |]. cbn. by rewrite <- IH. Qed.

Lemma chars_rev_app s1 s2 : chars (String.rev_app s1 s2) = reverse (chars s1) ++ chars s2.
Proof.
  revert s2. induction s1 as [| c s1 IH]; intros s2; [done |].
  change (chars (String.rev_app s1 (String c s2)) = reverse (c :: chars s1) ++ chars s2).
  rewrite IH, reverse_cons, <- app_assoc. done.
Qed.

Lemma chars_rev s : chars (String.rev s) = reverse (chars s).
Proof. unfold String.rev. rewrite chars_rev_app. cbn. by rewrite app_nil_r. Qed.

Lemma length_chars s : length (chars s) = String.length s.
Proof. induction s; cbn; congruence. Qed.

(** *** [trim] *)

Fixpoint drop_spaces (l : list ascii) : list ascii :=
  match l with
  | [] => []
  | c :: l' => if is_whitespace c then drop_spaces l' else l
  end.

(** No white space at the start. *)
Definition clean (l : list ascii) : Prop :=
  match l with
  | [] => True
  | c :: _ => is_whitespace c = false
  end.

Lemma chars_trim_start s : chars (trim_start s) = drop_spaces (chars s).
Proof. induction s as [| c s IH]; [done |]. cbn. by destruct (is_whitespace c). Qed.

Lemma chars_trim s :
  chars (trim s) = reverse (drop_spaces (reverse (drop_spaces (chars s)))).
Proof. unfold trim. by rewrite chars_rev, chars_trim_start, chars_rev, chars_trim_start. Qed.

Lemma drop_spaces_clean l : clean (drop_spaces l).
Proof.
  induction l as [| c l IH]; [done |]. cbn.
  destruct (is_whitespace c) eqn:Hc; [done | exact Hc].
Qed.

Lemma drop_spaces_id l : clean l → drop_spaces l = l.
Proof. destruct l as [| c l]; [done |]. cbn. by intros ->. Qed.

Lemma drop_spaces_suffix l : ∃ p, l = p ++ drop_spaces l.
Proof.
  induction l as [| c l [p IH]]; [by exists [] |]. cbn.
  destruct (is_whitespace c); [| by exists []].
  exists (c :: p). cbn. by rewrite <- IH.
Qed.

Lemma clean_prefix b q : clean (b ++ q) → clean b.
Proof. by destruct b. Qed.

(** A string without white space at either end is its own [trim]. *)
Lemma trim_clean s : clean (chars s) → clean (reverse (chars s)) → trim s = s.
Proof.
  intros H1 H2. apply chars_inj. rewrite chars_trim.
  rewrite (drop_spaces_id _ H1), (drop_spaces_id _ H2). apply reverse_involutive.
Qed.

Lemma trim_ends s : clean (chars (trim s)) ∧ clean (reverse (chars (trim s))).
Proof.
  rewrite chars_trim. rewrite reverse_involutive.
  split; [| apply drop_spaces_clean].
  pose proof (drop_spaces_clean (chars s)) as Ha.
  destruct (drop_spaces_suffix (reverse (drop_spaces (chars s)))) as [p Hp].
  set (v := drop_spaces (reverse (drop_spaces (chars s)))) in *.
  apply (f_equal reverse) in Hp. rewrite reverse_involutive, reverse_app in Hp.
  rewrite Hp in Ha. by apply clean_prefix in Ha.
Qed.

Lemma trim_idempotent s : trim (trim s) = trim s.
Proof. apply trim_clean; apply trim_ends. Qed.

Lemma clean_no_space l : Forall (λ c, is_whitespace c = false) l → clean l.
Proof. by intros [|]. Qed.

Lemma trim_no_space s : Forall (λ c, is_whitespace c = false) (chars s) → trim s = s.
Proof.
  intros H. apply trim_clean; apply clean_no_space; [done |].
  by apply Forall_reverse.
Qed.

(** *** Identifiers *)

Lemma digit_no_space c : is_digit c = true → is_whitespace c = false.
Proof.
  unfold is_digit, is_whitespace. intros H%bool_decide_eq_true.
  apply bool_decide_eq_false. rewrite !elem_of_cons, elem_of_nil. lia.
Qed.

Lemma digit_upper c : is_digit c = true → upper c = c.
Proof.
  unfold is_digit, upper. intros H%bool_decide_eq_true.
  rewrite bool_decide_eq_false_2; [done | lia].
Qed.

Lemma all_digits_Forall s : all_digits s = true → Forall (λ c, is_digit c = true) (chars s).
Proof.
  induction s as [| c s IH]; cbn; [constructor |].
  intros [Hc Hs]%andb_prop. constructor; auto.
Qed.

(** A valid identifier is the letter [Q] followed by digits only. *)
Lemma isValidQid_chars qid :
  isValidQid qid = true →
  ∃ ds, chars qid = "Q"%char :: ds ∧ ds ≠ [] ∧ Forall (λ c, is_digit c = true) ds.
Proof.
  destruct qid as [| q [| d rest]]; try done.
  - cbn. by repeat case_match.
  - intros H. assert (q = "Q"%char) as ->.
    { cbn in H. by repeat (case_match; try done). }
    change (is_digit d && all_digits rest = true) in H.
    apply andb_prop in H as [Hd Hrest].
    exists (d :: chars rest). split_and!; [done | done |].
    constructor; [done | by apply all_digits_Forall].
Qed.

Lemma isValidQid_no_space qid :
  isValidQid qid = true → Forall (λ c, is_whitespace c = false) (chars qid).
Proof.
  intros (ds & -> & _ & Hds)%isValidQid_chars. constructor; [done |].
  eapply Forall_impl; [exact Hds |]. apply digit_no_space.
Qed.

Lemma toUpperCase_chars s : chars (toUpperCase s) = upper <$> chars s.
Proof. induction s as [| c s IH]; [done |]. cbn. by rewrite IH. Qed.

Lemma isValidQid_upper qid : isValidQid qid = true → toUpperCase qid = qid.
Proof.
  intros (ds & Hq & _ & Hds)%isValidQid_chars. apply chars_inj.
  rewrite toUpperCase_chars, Hq. csimpl.
  change (upper "Q") with "Q"%char. f_equal.
  clear Hq. induction Hds as [| c ds Hc _ IH]; [done |]. csimpl. by rewrite digit_upper, IH.
Qed.

(** X1. What [sanitizeQid] returns is a valid identifier, the trimmed
    input in upper case, and it is a fixed point: sanitizing it again
    returns it unchanged. *)
Theorem sanitizeQid_canonical (qid r : string) :
  sanitizeQid qid = Ok r →
  r = toUpperCase (trim qid) ∧ isValidQid r = true ∧ sanitizeQid r = Ok r.
Proof.
  unfold sanitizeQid at 1. case_bool_decide; [done |].
  destruct (isValidQid (toUpperCase (trim qid))) eqn:Hv; [| done].
  intros [= <-]. split_and!; [done | done |].
  unfold sanitizeQid. rewrite bool_decide_eq_false_2.
  - rewrite (trim_no_space _ (isValidQid_no_space _ Hv)), (isValidQid_upper _ Hv), Hv. done.
  - intros Heq. by rewrite Heq in Hv.
Qed.

Lemma sanitizeQid_canonical_witness :
  "Q42" = toUpperCase (trim "  q42 ") ∧ isValidQid "Q42" = true ∧ sanitizeQid "Q42" = Ok "Q42".
Proof. apply (sanitizeQid_canonical "  q42 " "Q42"). reflexivity. Defined.

(** *** Entity names *)

(** The escape of one code unit, and of a whole string in one pass. *)
Definition escape_char (c : ascii) : string :=
  if decide (c = backslash) then escaped backslash
  else if decide (c = double_quote) then escaped double_quote
  else if decide (c = single_quote) then escaped single_quote
  else if decide (c = newline) then escaped "n"
  else if decide (c = carriage_return) then escaped "r"
  else if decide (c = tab) then escaped "t"
  else String c "".

Fixpoint escape (s : string) : string :=
  match s with
  | EmptyString => EmptyString
  | String c s' => escape_char c +:+ escape s'
  end.

(** The six replacements of [sanitizeEntityName], in the order of the
    source. *)
Definition six_passes (name : string) : string :=
  let name := replace_all backslash (escaped backslash) name in
  let name := replace_all double_quote (escaped double_quote) name in
  let name := replace_all single_quote (escaped single_quote) name in
  let name := replace_all newline (escaped "n") name in
  let name := replace_all carriage_return (escaped "r") name in
  replace_all tab (escaped "t") name.

Lemma replace_all_cons c by_ x s :
  replace_all c by_ (String x s) =
  if Ascii.eqb x c then by_ +:+ replace_all c by_ s else String x (replace_all c by_ s).
Proof. reflexivity. Qed.

Lemma replace_all_append c by_ s1 s2 :
  replace_all c by_ (s1 +:+ s2) = replace_all c by_ s1 +:+ replace_all c by_ s2.
Proof.
  induction s1 as [| x s1 IH]; [done |].
  rewrite ConsolidateSpec.append_cons, !replace_all_cons, IH.
  destruct (Ascii.eqb x c); [| done].
  apply chars_inj. by rewrite !chars_append, app_assoc.
Qed.

Lemma six_passes_append s1 s2 : six_passes (s1 +:+ s2) = six_passes s1 +:+ six_passes s2.
Proof. unfold six_passes. by rewrite !replace_all_append. Qed.

Lemma six_passes_char c : six_passes (String c "") = escape_char c.
Proof.
  unfold escape_char.
  repeat (case_decide; [subst c; reflexivity |]).
  unfold six_passes. cbn [replace_all].
  repeat (match goal with
          | |- context [Ascii.eqb c ?x] =>
              replace (Ascii.eqb c x) with false by (symmetry; by apply Ascii.eqb_neq)
          end; cbn [replace_all]).
  done.
Qed.

(** The six passes never touch what an earlier pass has written: together
    they are the escape of every code unit by itself. *)
Lemma six_passes_escape s : six_passes s = escape s.
Proof.
  induction s as [| c s IH]; [done |].
  change (String c s) with (String c "" +:+ s).
  rewrite six_passes_append, six_passes_char, IH. done.
Qed.

Lemma sanitizeEntityName_Ok name r :
  sanitizeEntityName name = Ok r → r = escape (trim name).
Proof.
  unfold sanitizeEntityName. fold (six_passes (trim name)). rewrite six_passes_escape.
  repeat case_bool_decide; congruence.
Qed.

(** X2. [sanitizeEntityName] returns exactly when the trimmed name is not
    empty and has at most 200 code units, and then it returns the trimmed
    name with every backslash, quote, line feed, carriage return and tab
    replaced by its two-character escape, each character of the name
    escaped once. *)
Theorem sanitizeEntityName_escape (name r : string) :
  sanitizeEntityName name = Ok r ↔
  trim name ≠ "" ∧ String.length (trim name) ≤ 200 ∧ r = escape (trim name).
Proof.
  unfold sanitizeEntityName. fold (six_passes (trim name)). rewrite six_passes_escape.
  case_bool_decide as Hempty.
  { subst name. split; [done | by intros [? _]]. }
  case_bool_decide as Hblank.
  { split; [done | by intros [? _]]. }
  case_bool_decide as Hlong.
  { split; [done | intros (_ & ? & _); lia]. }
  split.
  - intros [= <-]. split_and!; [done | lia | done].
  - by intros (_ & _ & ->).
Qed.

(** *** The string literal of the query

    The body of a SPARQL string literal in double quotes: a backslash
    starts one of the eight escapes of the grammar (for tab, backspace,
    line feed, carriage return, form feed, backslash and the two quotes),
    and no double quote, line feed or carriage return stands unescaped.  [unescape]
    reads such a body and gives the string it denotes; it is undefined
    on every other string. *)

Definition decode (d : ascii) : option ascii :=
  if decide (d = "t"%char) then Some tab
  else if decide (d = "b"%char) then Some (ascii_of_nat 8)
  else if decide (d = "n"%char) then Some newline
  else if decide (d = "r"%char) then Some carriage_return
  else if decide (d = "f"%char) then Some (ascii_of_nat 12)
  else if decide (d = backslash) then Some backslash
  else if decide (d = double_quote) then Some double_quote
  else if decide (d = single_quote) then Some single_quote
  else None.

Fixpoint unescape (s : string) : option string :=
  match s with
  | EmptyString => Some EmptyString
  | String c s' =>
      if decide (c = backslash) then
        match s' with
        | EmptyString => None
        | String d s'' =>
            match decode d with
            | Some x => String x <$> unescape s''
            | None => None
            end
        end
      else if decide (c = double_quote ∨ c = newline ∨ c = carriage_return) then None
      else String c <$> unescape s'
  end.

Lemma unescape_escape s : unescape (escape s) = Some s.
Proof.
  induction s as [| c s IH]; [done |].
  cbn [escape]. unfold escape_char.
  repeat (case_decide;
          [subst c; unfold escaped;
           rewrite !ConsolidateSpec.append_cons, ConsolidateSpec.append_nil_l;
           cbn; rewrite IH; reflexivity |]).
  rewrite ConsolidateSpec.append_cons, ConsolidateSpec.append_nil_l.
  cbn [unescape]. rewrite decide_False by done.
  rewrite decide_False by (intros [?|[?|?]]; done).
  by rewrite IH.
Qed.

(** X3. The string that [sanitizeEntityName] returns is the body of a
    well-formed string literal, and the literal denotes the trimmed
    name: no character of the name ends the literal or is lost. *)
Theorem sanitizeEntityName_literal (name r : string) :
  sanitizeEntityName name = Ok r → unescape r = Some (trim name).
Proof. intros ->%sanitizeEntityName_Ok. apply unescape_escape. Qed.

Lemma sanitizeEntityName_literal_witness :
  sanitizeEntityName " it's " = Ok "it\'s" ∧ unescape "it\'s" = Some "it's".
Proof.
  split; [reflexivity |].
  apply (sanitizeEntityName_literal " it's " "it\'s"). reflexivity.
Defined.

(** *** Entity lists *)

Lemma unique_trimmed_spec entities :
  ∀ seen unique,
  (∀ x, x ∈ seen ↔ x ∈ unique) → NoDup unique →
  ∃ more,
    unique_trimmed entities seen unique = unique ++ more ∧
    NoDup (unique ++ more) ∧
    more `sublist_of` (trim <$> entities) ∧
    ∀ x, x ∈ unique ++ more ↔ x ∈ unique ∨ (x ≠ "" ∧ x ∈ trim <$> entities).
Proof.
  induction entities as [| entity rest IH]; intros seen unique Hseen Hnd.
  { exists []. rewrite app_nil_r. split_and!; [done | done | done |].
    intros x. rewrite fmap_nil, elem_of_nil. tauto. }
  cbn [unique_trimmed].
  case_bool_decide as Hblank.
  { destruct (IH seen unique Hseen Hnd) as (more & -> & ? & ? & Hin).
    exists more. split_and!; [done | done | by apply sublist_cons |].
    intros x. rewrite Hin, fmap_cons, elem_of_cons. split; [tauto |].
    intros [? | [Hx [-> | ?]]]; [tauto | done | tauto]. }
  destruct (decide (trim entity ∈ seen)) as [Hin | Hout].
  { destruct (IH seen unique Hseen Hnd) as (more & -> & ? & ? & Hmem).
    exists more. split_and!; [done | done | by apply sublist_cons |].
    intros x. rewrite Hmem, fmap_cons, elem_of_cons. split; [tauto |].
    intros [? | [Hx [-> | ?]]]; [tauto | | tauto]. left. by apply Hseen. }
  destruct (IH ({[trim entity]} ∪ seen) (unique ++ [trim entity])) as (more & -> & ? & ? & Hmem).
  { intros x. rewrite elem_of_union, elem_of_singleton, elem_of_app, list_elem_of_singleton, Hseen.
    tauto. }
  { apply NoDup_app. split_and!; [done | | apply NoDup_singleton].
    intros x Hx ->%list_elem_of_singleton. by apply Hout, Hseen. }
  exists (trim entity :: more). rewrite <- app_assoc in *. cbn [app] in *.
  split_and!; [done | done | by apply sublist_skip |].
  intros x. rewrite Hmem, elem_of_app, list_elem_of_singleton, fmap_cons, elem_of_cons.
  split; [| tauto]. intros [[? | ->] | ?]; tauto.
Qed.

(** X4. The list returned by [validateEntityList] is not empty, has no
    duplicates and at most [maxEntities] entries; it consists of exactly
    the trimmed entries of the input that are not empty, in the order of
    the input, and trimming one of them again changes nothing. *)
Theorem validateEntityList_unique (entities : list string) (maxEntities : nat)
    (unique : list string) :
  validateEntityList entities maxEntities = Ok unique →
  unique ≠ [] ∧ length unique ≤ maxEntities ∧ NoDup unique ∧
  unique `sublist_of` (trim <$> entities) ∧
  (∀ x, x ∈ unique ↔ x ≠ "" ∧ x ∈ trim <$> entities) ∧
  Forall (λ x, trim x = x) unique.
Proof.
  unfold validateEntityList. case_bool_decide; [done |].
  case_bool_decide as Hmax; [done |]. case_bool_decide as Hlen; [done |].
  intros [= <-].
  destruct (unique_trimmed_spec entities ∅ []) as (more & Heq & Hnd & Hsub & Hmem);
    [set_solver | constructor |].
  rewrite app_nil_l in *. rewrite Heq in *.
  assert (∀ x, x ∈ more ↔ x ≠ "" ∧ x ∈ trim <$> entities) as Hmem'.
  { intros x. rewrite Hmem, elem_of_nil. tauto. }
  split_and!; [| | done | done | done |].
  - by intros ->.
  - apply sublist_length in Hsub. rewrite length_fmap in Hsub. lia.
  - apply Forall_forall. intros x [_ (e & -> & _)%list_elem_of_fmap]%Hmem'.
    apply trim_idempotent.
Qed.

Lemma validateEntityList_unique_witness :
  ["Paris"; "London"] ≠ [] ∧ length ["Paris"; "London"] ≤ 10 ∧ NoDup ["Paris"; "London"] ∧
  ["Paris"; "London"] `sublist_of` (trim <$> [" Paris"; "  "; "London "; "Paris"]) ∧
  (∀ x, x ∈ ["Paris"; "London"] ↔
        x ≠ "" ∧ x ∈ trim <$> [" Paris"; "  "; "London "; "Paris"]) ∧
  Forall (λ x, trim x = x) ["Paris"; "London"].
Proof.
  apply (validateEntityList_unique [" Paris"; "  "; "London "; "Paris"] 10). reflexivity.
Defined.

End SanitizationSpec.

(** ** Path finder: symmetry, more edges, simple paths, all pairs *)

Module PathsSpec.
Import ShortestPath ShortestPathSpec.

(** *** Paths of the undirected graph *)

Lemma joins_mono edges edges' u v eid :
  (∀ e, e ∈ edges → e ∈ edges') → joins edges u v eid → joins edges' u v eid.
Proof. intros Hsub (e & He & Hrest). exists e. auto. Qed.

Lemma is_path_mono edges edges' ns :
  (∀ e, e ∈ edges → e ∈ edges') → ∀ es, is_path edges ns es → is_path edges' ns es.
Proof.
  intros Hsub. induction ns as [| u [| v ns] IH]; intros [| eid es]; try done.
  intros [Hj Hp]. split; [by eapply joins_mono | by apply IH].
Qed.

Lemma is_path_reverse edges ns :
  ∀ es, is_path edges ns es → is_path edges (reverse ns) (reverse es).
Proof.
  induction ns as [| u [| v ns] IH]; intros [| eid es]; try done.
  intros [Hj Hp]. rewrite (reverse_cons _ u), (reverse_cons _ eid).
  specialize (IH es Hp). rewrite reverse_cons in IH |- *.
  rewrite <- app_assoc. apply is_path_snoc; [done | by apply joins_sym].
Qed.

Lemma path_between_reverse edges a b ns es :
  path_between edges a b ns es → path_between edges b a (reverse ns) (reverse es).
Proof.
  intros (Hp & Hh & Hl). split_and!; [by apply is_path_reverse | |].
  - by rewrite head_reverse.
  - by rewrite last_reverse.
Qed.

Lemma path_between_refl edges a : path_between edges a a [a] [].
Proof. done. Qed.

(** Joining two paths at a node, and cutting one there. *)
Lemma is_path_app edges l1 x l2 :
  ∀ es1 es2, is_path edges (l1 ++ [x]) es1 → is_path edges (x :: l2) es2 →
  is_path edges (l1 ++ x :: l2) (es1 ++ es2).
Proof.
  induction l1 as [| u l1 IH]; intros es1 es2 H1 H2.
  - destruct es1; [done | by destruct H1].
  - destruct (is_path_cons_inv _ _ _ _ H1) as [[Hnil _] | (v & ns' & eid & es' & Hns & -> & Hj & Hp)].
    { by destruct l1. }
    specialize (IH es' es2 Hp H2).
    change ((u :: l1) ++ x :: l2) with (u :: (l1 ++ x :: l2)).
    assert (∃ rest, l1 ++ x :: l2 = v :: rest) as [rest Hrest].
    { destruct l1 as [| y l1]; simplify_eq/=; eauto. }
    rewrite Hrest in IH |- *. cbn. done.
Qed.

Lemma is_path_app_inv edges l1 x l2 :
  ∀ es, is_path edges (l1 ++ x :: l2) es →
  ∃ es1 es2, es = es1 ++ es2 ∧ is_path edges (l1 ++ [x]) es1 ∧ is_path edges (x :: l2) es2.
Proof.
  induction l1 as [| u l1 IH]; intros es H.
  - exists [], es. done.
  - change ((u :: l1) ++ x :: l2) with (u :: (l1 ++ x :: l2)) in H.
    destruct (is_path_cons_inv _ _ _ _ H) as [[Hnil _] | (v & ns' & eid & es' & Hns & -> & Hj & Hp)].
    { by destruct l1. }
    destruct (IH es' Hp) as (es1 & es2 & -> & H1 & H2).
    exists (eid :: es1), es2. split_and!; [done | | done].
    change ((u :: l1) ++ [x]) with (u :: (l1 ++ [x])).
    assert (∃ rest, l1 ++ [x] = v :: rest) as [rest Hrest].
    { destruct l1 as [| y l1]; simplify_eq/=; eauto. }
    rewrite Hrest in H1 |- *. done.
Qed.

(** A list with a repeated element, cut at two occurrences of it. *)
Lemma repeated_split {A} `{EqDecision A} (l : list A) :
  ¬ NoDup l → ∃ x l1 l2 l3, l = l1 ++ x :: l2 ++ x :: l3.
Proof.
  induction l as [| y l IH]; intros Hnd.
  - destruct Hnd. constructor.
  - destruct (decide (y ∈ l)) as [Hin | Hout].
    + apply list_elem_of_split in Hin as (l2 & l3 & ->). by exists y, [], l2, l3.
    + destruct IH as (x & l1 & l2 & l3 & ->).
      { intros Hl. apply Hnd. by constructor. }
      by exists x, (y :: l1), l2, l3.
Qed.

(** A path that visits a node twice can be cut short. *)
Lemma path_between_shortcut edges a b ns es :
  path_between edges a b ns es → ¬ NoDup ns →
  ∃ ns' es', path_between edges a b ns' es' ∧ length es' < length es.
Proof.
  intros (Hp & Hh & Hl) (x & l1 & l2 & l3 & ->)%repeated_split.
  destruct (is_path_app_inv _ _ _ _ _ Hp) as (es1 & es23 & -> & H1 & H23).
  change (x :: l2 ++ x :: l3) with ((x :: l2) ++ x :: l3) in H23.
  destruct (is_path_app_inv _ _ _ _ _ H23) as (es2 & es3 & -> & H2 & H3).
  exists (l1 ++ x :: l3), (es1 ++ es3). split.
  - split_and!; [by apply is_path_app | |].
    + by destruct l1.
    + rewrite last_app_cons in Hl |- *. cbn [app] in Hl.
      change (x :: l2 ++ x :: l3) with ((x :: l2) ++ x :: l3) in Hl.
      by rewrite last_app_cons in Hl.
  - apply is_path_length in H2. rewrite length_app in H2. cbn in H2.
    rewrite !length_app. lia.
Qed.

(** *** [findShortestPath] on every pair of nodes *)

(** A returned path is a path between the two nodes that no path
    undercuts, also when the two nodes are the same. *)
Lemma findShortestPath_Path edges a b p :
  findShortestPath edges a b = Path p →
  path_between edges a b (nodeIds p) (edgeIds p) ∧
  ∀ ns es, path_between edges a b ns es → length (edgeIds p) ≤ length es.
Proof.
  destruct (decide (a = b)) as [-> | Hne].
  - unfold findShortestPath. rewrite decide_True by done. intros [= <-]. cbn.
    split; [done | intros; lia].
  - intros Hp. pose proof (findShortestPath_spec edges a b Hne) as Hspec.
    by rewrite Hp in Hspec.
Qed.

(** [findShortestPath] decides whether two nodes are connected. *)
Lemma findShortestPath_connected edges a b :
  connected edges a b ↔ ∃ p, findShortestPath edges a b = Path p.
Proof.
  split.
  - intros Hc. destruct (decide (a = b)) as [-> | Hne].
    + unfold findShortestPath. rewrite decide_True by done. eauto.
    + pose proof (findShortestPath_spec edges a b Hne) as Hspec.
      destruct (findShortestPath edges a b); [eauto | done | done].
  - intros [p [Hp _]%findShortestPath_Path]. by eexists _, _.
Qed.

(** X5. The search is symmetric: when [findShortestPath] finds a path
    from [a] to [b], it finds one from [b] to [a] with the same number
    of edges (edges are walked in both directions). *)
Theorem findShortestPath_symmetric (edges : list GraphEdge) (a b : string) (p : PathResult) :
  findShortestPath edges a b = Path p →
  ∃ q, findShortestPath edges b a = Path q ∧ length (edgeIds q) = length (edgeIds p).
Proof.
  intros Hp. pose proof Hp as [Hpath Hmin]%findShortestPath_Path.
  destruct (proj1 (findShortestPath_connected edges b a)) as [q Hq].
  { eexists _, _. by apply path_between_reverse. }
  exists q. split; [done |].
  pose proof Hq as [Hpath' Hmin']%findShortestPath_Path.
  apply path_between_reverse in Hpath, Hpath'.
  specialize (Hmin _ _ Hpath'). specialize (Hmin' _ _ Hpath).
  rewrite length_reverse in Hmin, Hmin'. lia.
Qed.

Lemma findShortestPath_symmetric_witness :
  ∃ q, findShortestPath sample_edges "F" "A" = Path q ∧ length (edgeIds q) = 2.
Proof. apply (findShortestPath_symmetric sample_edges "A" "F" (mkPath ["A"; "D"; "F"] ["e4"; "e5"])). reflexivity. Defined.

(** X6. Adding edges never makes a path disappear or longer: when
    [findShortestPath] finds a path in an edge list, it finds one, with
    at most as many edges, in every edge list that contains these
    edges. *)
Theorem findShortestPath_more_edges (edges edges' : list GraphEdge) (a b : string)
    (p : PathResult) :
  (∀ e, e ∈ edges → e ∈ edges') →
  findShortestPath edges a b = Path p →
  ∃ q, findShortestPath edges' a b = Path q ∧ length (edgeIds q) ≤ length (edgeIds p).
Proof.
  intros Hsub [[Hpath [Hh Hl]] _]%findShortestPath_Path.
  assert (path_between edges' a b (nodeIds p) (edgeIds p)) as Hpath'.
  { split; [by eapply is_path_mono | done]. }
  destruct (proj1 (findShortestPath_connected edges' a b)) as [q Hq]; [by eexists _, _ |].
  exists q. split; [done |]. apply findShortestPath_Path in Hq as [_ Hmin].
  exact (Hmin _ _ Hpath').
Qed.

Lemma findShortestPath_more_edges_witness :
  ∃ q, findShortestPath (mkEdge "e7" "A" "F" "knows" "to" None None :: sample_edges) "A" "F"
       = Path q ∧ length (edgeIds q) ≤ 2.
Proof.
  apply (findShortestPath_more_edges sample_edges _ "A" "F" (mkPath ["A"; "D"; "F"] ["e4"; "e5"])).
  - intros e He. by right.
  - reflexivity.
Defined.

(** X7. A returned path visits no node twice, and has one node more than
    it has edges. *)
Theorem findShortestPath_simple (edges : list GraphEdge) (a b : string) (p : PathResult) :
  findShortestPath edges a b = Path p →
  NoDup (nodeIds p) ∧ length (nodeIds p) = S (length (edgeIds p)).
Proof.
  intros [Hpath Hmin]%findShortestPath_Path. split.
  - destruct (decide (NoDup (nodeIds p))) as [Hnd | Hnd]; [done |].
    destruct (path_between_shortcut _ _ _ _ _ Hpath Hnd) as (ns' & es' & Hpath' & Hlt).
    specialize (Hmin _ _ Hpath'). lia.
  - destruct Hpath as [Hp _]. by apply is_path_length in Hp.
Qed.

Lemma findShortestPath_simple_witness :
  NoDup ["A"; "D"; "F"] ∧ length ["A"; "D"; "F"] = 3.
Proof.
  apply (findShortestPath_simple sample_edges "A" "F" (mkPath ["A"; "D"; "F"] ["e4"; "e5"])).
  reflexivity.
Defined.

(** *** [findAllPairPaths] *)

Lemma elem_of_pairs_from edges a rest r :
  r ∈ pairs_from edges a rest ↔ ∃ j b, rest !! j = Some b ∧ r = findShortestPath edges a b.
Proof.
  induction rest as [| b rest IH]; cbn [pairs_from].
  - rewrite elem_of_nil. split; [done | by intros (j & b & ? & _)].
  - rewrite elem_of_cons, IH. split.
    + intros [-> | (j & b' & Hj & ->)]; [by exists 0, b | by exists (S j), b'].
    + intros ([| j] & b' & Hj & ->); simplify_eq/=; eauto.
Qed.

Lemma elem_of_all_pairs edges ids r :
  r ∈ all_pairs edges ids ↔
  ∃ i j a b, i < j ∧ ids !! i = Some a ∧ ids !! j = Some b ∧ r = findShortestPath edges a b.
Proof.
  induction ids as [| a ids IH]; cbn [all_pairs].
  - rewrite elem_of_nil. split; [done | by intros (i & j & ? & ? & _ & ? & _)].
  - rewrite elem_of_app, elem_of_pairs_from, IH. split.
    + intros [(j & b & Hj & ->) | (i & j & a' & b & Hij & Hi & Hj & ->)].
      * exists 0, (S j), a, b. split_and!; [lia | done | done | done].
      * exists (S i), (S j), a', b. split_and!; [lia | done | done | done].
    + intros ([| i] & [| j] & a' & b & Hij & Hi & Hj & ->); simplify_eq/=; try lia.
      * left. eauto.
      * right. exists i, j, a', b. split_and!; [lia | done | done | done].
Qed.

(** X8. [findAllPairPaths] returns, for the pairs of positions [i < j] of
    the id list, the paths that [findShortestPath] finds: every returned
    path is a path between the two ids of such a pair that no path
    between them undercuts, and every such pair whose ids are connected
    has a path in the result. *)
Theorem findAllPairPaths_pairs (edges : list GraphEdge) (ids : list string) :
  (∀ p, p ∈ findAllPairPaths edges ids →
     ∃ i j a b, i < j ∧ ids !! i = Some a ∧ ids !! j = Some b ∧
       path_between edges a b (nodeIds p) (edgeIds p) ∧
       ∀ ns es, path_between edges a b ns es → length (edgeIds p) ≤ length es) ∧
  (∀ i j a b, i < j → ids !! i = Some a → ids !! j = Some b → connected edges a b →
     ∃ p, p ∈ findAllPairPaths edges ids ∧
          head (nodeIds p) = Some a ∧ last (nodeIds p) = Some b) ∧
  2 * length (findAllPairPaths edges ids) ≤ length ids * (length ids - 1).
Proof.
  unfold findAllPairPaths. split_and!.
  - intros p (r & Hr & Hp)%list_elem_of_omap.
    destruct r as [p' | |]; simplify_eq/=.
    apply elem_of_all_pairs in Hr as (i & j & a & b & Hij & Hi & Hj & Heq).
    symmetry in Heq. apply findShortestPath_Path in Heq as [? ?].
    exists i, j, a, b. done.
  - intros i j a b Hij Hi Hj [p Hp]%findShortestPath_connected.
    exists p. split.
    + apply list_elem_of_omap. exists (Path p). split; [| done].
      apply elem_of_all_pairs. exists i, j, a, b. done.
    + by apply findShortestPath_Path in Hp as [(_ & ? & ?) _].
  - assert (∀ l, length (omap (λ r, match r with Path p => Some p | _ => None end) l)
                 ≤ length l) as Homap.
    { induction l as [| [] l IHl]; cbn; lia. }
    assert (∀ a rest, length (pairs_from edges a rest) = length rest) as Hrow.
    { intros a rest. induction rest; cbn; congruence. }
    assert (2 * length (all_pairs edges ids) = length ids * (length ids - 1)) as Hall.
    { induction ids as [| a ids IHids]; [done |].
      cbn [all_pairs]. rewrite length_app, Hrow. cbn [length].
      destruct ids; cbn in *; nia. }
    specialize (Homap (all_pairs edges ids)). lia.
Qed.

End PathsSpec.

(** ** Edge consolidator: the groups on every edge list *)

Module GroupingSpec.
Import Consolidate ConsolidateSpec.

(** After the loop the map holds, under every key string, the merged
    group of the edges with that key, in the order in which the keys
    first occur. *)
Lemma foldl_add_by_key edges :
  foldl add [] edges =
  entries id (λ k, merge (members key k edges)) (classes key edges).
Proof.
  induction edges as [| e pre IH] using rev_ind; [done |].
  rewrite foldl_snoc, IH. unfold add.
  change (key e) with (id (key e)).
  rewrite get_entries by (by intros). rewrite classes_snoc.
  destruct (decide (key e ∈ classes key pre)) as [Hin | Hin];
    rewrite elem_of_classes in Hin.
  - rewrite decide_True by done.
    destruct (members_cons key _ _ Hin) as (first & rest & Hm). rewrite Hm. simpl.
    apply (replace_entries id _ _ _ (key e)).
    + apply NoDup_classes.
    + by intros.
    + rewrite members_snoc, decide_True, Hm by done. simpl.
      rewrite !fmap_app, length_app. simpl. do 2 f_equal. lia.
    + rewrite Hm. by eexists.
    + intros p _ Hp. rewrite members_snoc, decide_False, app_nil_r; done.
  - rewrite decide_False by done. unfold OMap.set.
    rewrite get_entries by (by intros). rewrite decide_False by (by rewrite elem_of_classes).
    unfold entries at 2. rewrite omap_app. f_equal.
    + apply entries_ext. intros p Hp. rewrite members_snoc, decide_False, app_nil_r; [done |].
      intros <-. by apply elem_of_classes in Hp.
    + simpl. rewrite members_snoc, decide_True, members_nil by done. simpl.
      by rewrite set_label_same.
Qed.

Lemma key_set_label l e : key (set_label l e) = key e.
Proof. done. Qed.

(** X9. On every edge list, [consolidateEdges] returns one consolidated
    edge for every key string [from-to] that occurs, in the order in
    which the keys first occur; the consolidated edge of a key has the
    fields of the first edge with that key (its id, direction, endpoints,
    category), the labels of all edges with that key in their order,
    their number as count, and the labels joined with a comma and a
    space as label. *)
Theorem consolidateEdges_by_key (edges : list GraphEdge) :
  key ∘ ce_edge <$> consolidateEdges edges = classes key edges ∧
  ∀ c, c ∈ consolidateEdges edges →
    ∃ first rest,
      filter (λ e, key e = key (ce_edge c)) edges = first :: rest ∧
      c = mkConsolidated (set_label (join ", " (edge_label <$> first :: rest)) first)
                         (edge_label <$> first :: rest) (length (first :: rest)).
Proof.
  unfold consolidateEdges. rewrite foldl_add_by_key, values_entries.
  assert (∀ k c, merge (members key k edges) = Some c →
            ∃ first rest, members key k edges = first :: rest ∧ key (ce_edge c) = k ∧
              c = mkConsolidated (set_label (join ", " (edge_label <$> first :: rest)) first)
                                 (edge_label <$> first :: rest) (length (first :: rest)))
    as Hmerge.
  { intros k c Hm.
    destruct (members key k edges) as [| first rest] eqn:Hmem; simpl in Hm; [done |].
    injection Hm as <-. exists first, rest. split_and!; [done | | done].
    assert (first ∈ members key k edges) as Hin by (rewrite Hmem; left).
    by apply list_elem_of_filter in Hin as [Hk _]. }
  split.
  - pose proof (λ k, proj1 (elem_of_classes key k edges)) as Hcls.
    induction (classes key edges) as [| k ks IH]; [done |].
    cbn [omap list_omap].
    destruct (members_cons key k edges) as (first & rest & Hm); [apply Hcls; left |].
    rewrite Hm. cbn [merge]. csimpl. f_equal; [| apply IH; intros; apply Hcls; by right].
    assert (first ∈ members key k edges) as Hin by (rewrite Hm; left).
    by apply list_elem_of_filter in Hin as [Hk _].
  - intros c (k & _ & Hm)%list_elem_of_omap.
    destruct (Hmerge k c Hm) as (first & rest & Hmem & Hk & Hc).
    exists first, rest. split; [| done]. by rewrite Hk.
Qed.

End GroupingSpec.

(** ** Caches: round trips, writes to a full storage, eviction *)

Module CacheSpec.

Section cache.
Context `{E : Environment}.

(** A store reads and writes its own map and nothing else. *)
Record lens {T} (st : store T) : Prop := {
  lens_view : ∀ f w, view st (over st f w) = f (view st w);
  lens_env : ∀ f w, env (over st f w) = env w;
  lens_trace : ∀ f w, trace (over st f w) = trace w;
  lens_responseCache : ∀ f w, responseCache (over st f w) = responseCache w;
  lens_insert_qid : ∀ key entry w k,
    is_Some (qidStore w !! k) → is_Some (qidStore (over st (insert key entry) w) !! k);
  lens_insert_conn : ∀ key entry w k,
    is_Some (connStore w !! k) → is_Some (connStore (over st (insert key entry) w) !! k);
  lens_evicted : ∀ w,
    view st ((evictExpired w).2) = filter (λ kv, ¬ expired (now (env w)) kv.2) (view st w)
}.

Lemma lens_qid_store : lens qid_store.
Proof.
  split; try done.
  intros key entry w k [e He]. cbn.
  destruct (decide (k = key)) as [-> | Hne];
    [rewrite lookup_insert_eq | rewrite lookup_insert_ne by done]; eauto.
Qed.

Lemma lens_conn_store : lens conn_store.
Proof.
  split; try done.
  intros key entry w k [e He]. cbn.
  destruct (decide (k = key)) as [-> | Hne];
    [rewrite lookup_insert_eq | rewrite lookup_insert_ne by done]; eauto.
Qed.

(** The entry that a write at the time of [w] stores. *)
Definition written {T} (d : T) (ttl : Z) (w : World) : CacheEntry T :=
  mkEntry d (now (env w) + ttl)%Z.

(** [localStorage] takes the entry as things are. *)
Definition room {T} (st : store T) (key : string) (entry : CacheEntry T) (w : World) : bool :=
  let w' := over st (insert key entry) w in fits (qidStore w') (connStore w').

Lemma setInStorage_room {T} (st : store T) key (d : T) ttl w :
  room st key (written d ttl w) w = true →
  setInStorage st key d ttl w = (Ok tt, over st (insert key (written d ttl w)) w).
Proof.
  unfold room, setInStorage, bind, gets, try_catch, setItem, written. cbn. by intros ->.
Qed.

(** An entry is served until its time to live has passed, and dropped
    by the first read after that. *)
Lemma getFromStorage_entry {T} (st : store T) key (entry : CacheEntry T) w :
  lens st → view st w !! key = Some entry →
  ((now (env w) ≤ expires entry)%Z → getFromStorage st key w = (Ok (Some (data entry)), w)) ∧
  ((expires entry < now (env w))%Z →
     ∃ w', getFromStorage st key w = (Ok None, w') ∧ view st w' !! key = None).
Proof.
  intros Hl Hentry. unfold getFromStorage. rewrite Hentry. unfold expired. split; intros Ht.
  - by rewrite bool_decide_eq_false_2 by lia.
  - rewrite bool_decide_eq_true_2 by lia. eexists. split; [done |].
    by rewrite (lens_view _ Hl), lookup_delete_eq.
Qed.

Lemma round_trip {T} (st : store T) key (d : T) ttl w :
  lens st → room st key (written d ttl w) w = true →
  ∃ w1, setInStorage st key d ttl w = (Ok tt, w1) ∧
    env w1 = env w ∧
    (∀ other, other ≠ key → view st w1 !! other = view st w !! other) ∧
    ∀ w2, view st w2 !! key = view st w1 !! key →
      ((now (env w2) ≤ now (env w) + ttl)%Z → getFromStorage st key w2 = (Ok (Some d), w2)) ∧
      ((now (env w) + ttl < now (env w2))%Z →
         ∃ w3, getFromStorage st key w2 = (Ok None, w3) ∧ view st w3 !! key = None).
Proof.
  intros Hl Hroom. eexists. split; [by apply setInStorage_room |].
  split_and!.
  - apply (lens_env _ Hl).
  - intros other Hne. by rewrite (lens_view _ Hl), lookup_insert_ne.
  - intros w2. rewrite (lens_view _ Hl), lookup_insert_eq. intros Hentry.
    apply (getFromStorage_entry st key _ w2 Hl Hentry).
Qed.

(** X10. What is written to one of the two caches is read back until its
    time to live has passed (24 hours for an id, one hour for
    connections), and not after; the write leaves the other keys of the
    cache as they are.  This holds when the storage takes the entry at
    the first attempt. *)
Theorem cache_round_trip (w : World) :
  (∀ name qid,
     room qid_store name (written qid QID_TTL w) w = true →
     ∃ w1, setCachedQid name qid w = (Ok tt, w1) ∧
       env w1 = env w ∧
       (∀ other, other ≠ name → qidStore w1 !! other = qidStore w !! other) ∧
       ∀ w2, qidStore w2 !! name = qidStore w1 !! name →
         ((now (env w2) ≤ now (env w) + QID_TTL)%Z →
            getCachedQid name w2 = (Ok (Some qid), w2)) ∧
         ((now (env w) + QID_TTL < now (env w2))%Z →
            ∃ w3, getCachedQid name w2 = (Ok None, w3) ∧ qidStore w3 !! name = None)) ∧
  (∀ qid connections,
     room conn_store qid (written connections CONN_TTL w) w = true →
     ∃ w1, setCachedConnections qid connections w = (Ok tt, w1) ∧
       env w1 = env w ∧
       (∀ other, other ≠ qid → connStore w1 !! other = connStore w !! other) ∧
       ∀ w2, connStore w2 !! qid = connStore w1 !! qid →
         ((now (env w2) ≤ now (env w) + CONN_TTL)%Z →
            getCachedConnections qid w2 = (Ok (Some connections), w2)) ∧
         ((now (env w) + CONN_TTL < now (env w2))%Z →
            ∃ w3, getCachedConnections qid w2 = (Ok None, w3) ∧ connStore w3 !! qid = None)).
Proof.
  split.
  - intros name qid. apply (round_trip qid_store name qid QID_TTL w lens_qid_store).
  - intros qid connections.
    apply (round_trip conn_store qid connections CONN_TTL w lens_conn_store).
Qed.

(** *** A full storage *)

Definition evicted (w : World) : World := (evictExpired w).2.
Definition cleared (w : World) : World := (clearAllCaches w).2.

(** The entries of the two caches that have not expired. *)
Definition live {T} (w : World) (m : gmap string (CacheEntry T)) : gmap string (CacheEntry T) :=
  filter (λ kv, ¬ expired (now (env w)) kv.2) m.

Lemma evicted_stores w :
  qidStore (evicted w) = live w (qidStore w) ∧ connStore (evicted w) = live w (connStore w) ∧
  env (evicted w) = env w ∧ trace (evicted w) = trace w ∧
  responseCache (evicted w) = responseCache w.
Proof. done. Qed.

Lemma cleared_stores w :
  qidStore (cleared w) = ∅ ∧ connStore (cleared w) = ∅ ∧
  env (cleared w) = env w ∧ trace (cleared w) = trace w ∧
  responseCache (cleared w) = responseCache w.
Proof. done. Qed.

Lemma setInStorage_cases {T} (st : store T) key (d : T) ttl w :
  let entry := written d ttl w in
  setInStorage st key d ttl w =
  (Ok tt,
   if room st key entry w then over st (insert key entry) w
   else if room st key entry (evicted w) then over st (insert key entry) (evicted w)
   else if room st key entry (cleared w) then over st (insert key entry) (cleared w)
   else cleared w).
Proof.
  intros entry.
  assert (∀ handler w0,
    try_catch (setItem st key entry) handler w0 =
    if room st key entry w0 then (Ok tt, over st (insert key entry) w0)
    else handler "QuotaExceededError" w0) as Htry.
  { intros handler w0. unfold try_catch, setItem, room. by destruct (fits _ _). }
  unfold setInStorage. unfold bind at 1, gets at 1. cbv beta iota zeta.
  fold (written d ttl w). fold entry.
  rewrite Htry. destruct (room st key entry w); [done |].
  unfold bind at 1. change (evictExpired w) with (Ok tt, evicted w). cbv beta iota zeta.
  rewrite Htry. destruct (room st key entry (evicted w)); [done |].
  unfold bind at 1. change (clearAllCaches (evicted w)) with (Ok tt, cleared w).
  cbv beta iota zeta.
  rewrite Htry. by destruct (room st key entry (cleared w)).
Qed.

(** A write touches nothing but the two caches, and never throws. *)
Lemma setInStorage_frame {T} (st : store T) key (d : T) ttl w :
  lens st →
  ∃ w', setInStorage st key d ttl w = (Ok tt, w') ∧
        env w' = env w ∧ trace w' = trace w ∧ responseCache w' = responseCache w.
Proof.
  intros Hl. eexists. split; [by apply setInStorage_cases |]. cbn zeta.
  repeat case_match;
    rewrite ?(lens_env _ Hl), ?(lens_trace _ Hl), ?(lens_responseCache _ Hl); done.
Qed.

(** X11. A write to a cache never throws and touches nothing but the two
    caches.  Afterwards the key holds the new entry, or the two caches
    are empty.  If the storage takes the entry at once, or after the
    expired entries have been evicted, then no entry of either cache that
    has not expired is lost. *)
Theorem setInStorage_best_effort {T} (st : store T) (key : string) (d : T) (ttl : Z)
    (w : World) :
  lens st →
  ∃ w', setInStorage st key d ttl w = (Ok tt, w') ∧
    env w' = env w ∧ trace w' = trace w ∧ responseCache w' = responseCache w ∧
    let entry := written d ttl w in
    (view st w' !! key = Some entry ∨ (qidStore w' = ∅ ∧ connStore w' = ∅)) ∧
    (room st key entry w = true ∨ room st key entry (evicted w) = true →
       view st w' !! key = Some entry ∧
       (∀ k e, k ≠ key → live w (view st w) !! k = Some e → view st w' !! k = Some e) ∧
       (∀ k, is_Some (live w (qidStore w) !! k) → is_Some (qidStore w' !! k)) ∧
       (∀ k, is_Some (live w (connStore w) !! k) → is_Some (connStore w' !! k))).
Proof.
  intros Hl. eexists. split; [by apply setInStorage_cases |]. cbn zeta.
  set (entry := written d ttl w).
  assert (∀ w0, view st (over st (insert key entry) w0) !! key = Some entry) as Hkey.
  { intros w0. by rewrite (lens_view _ Hl), lookup_insert_eq. }
  assert (∀ {V} (m : gmap string (CacheEntry V)) k, is_Some (live w m !! k) → is_Some (m !! k))
    as Hlive.
  { intros V m k [e He]. apply map_lookup_filter_Some in He as [He _]. eauto. }
  destruct (room st key entry w) eqn:H1; [| destruct (room st key entry (evicted w)) eqn:H2;
    [| destruct (room st key entry (cleared w)) eqn:H3]].
  - rewrite (lens_env _ Hl), (lens_trace _ Hl), (lens_responseCache _ Hl).
    split_and!; [done | done | done | by left |]. intros _. split_and!.
    + apply Hkey.
    + intros k e Hne [He _]%map_lookup_filter_Some.
      by rewrite (lens_view _ Hl), lookup_insert_ne.
    + intros k Hk%Hlive. by apply (lens_insert_qid _ Hl).
    + intros k Hk%Hlive. by apply (lens_insert_conn _ Hl).
  - rewrite (lens_env _ Hl), (lens_trace _ Hl), (lens_responseCache _ Hl).
    split_and!; [done | done | done | by left |]. intros _. split_and!.
    + apply Hkey.
    + intros k e Hne He.
      rewrite (lens_view _ Hl), lookup_insert_ne by done.
      unfold evicted. by rewrite (lens_evicted _ Hl).
    + intros k Hk. by apply (lens_insert_qid _ Hl).
    + intros k Hk. by apply (lens_insert_conn _ Hl).
  - rewrite (lens_env _ Hl), (lens_trace _ Hl), (lens_responseCache _ Hl).
    split_and!; [done | done | done | by left |]. by intros [|].
  - split_and!; [done | done | done | by right |]. by intros [|].
Qed.

(** X12. Evicting the expired entries is not observable through the two
    caches: every key is answered after the eviction as it would have
    been answered without it. *)
Theorem evictExpired_unobservable (w : World) :
  (∀ name, ((let* _ := evictExpired in getCachedQid name) w).1 = (getCachedQid name w).1) ∧
  (∀ qid, ((let* _ := evictExpired in getCachedConnections qid) w).1
          = (getCachedConnections qid w).1).
Proof.
  assert (∀ {T} (st : store T) key, lens st →
            (getFromStorage st key (evictExpired w).2).1 = (getFromStorage st key w).1) as Hget.
  { intros T st key Hl. unfold getFromStorage.
    rewrite (lens_evicted _ Hl).
    change (env (evictExpired w).2) with (env w).
    destruct (view st w !! key) as [entry |] eqn:Hentry.
    - destruct (decide (expired (now (env w)) entry)) as [Hexp | Hlive].
      + rewrite (proj2 (map_lookup_filter_None _ _ _)), bool_decide_eq_true_2; [done.. |].
        right. intros e He. simplify_eq/=. tauto.
      + rewrite (map_lookup_filter_Some_2 _ _ _ entry), bool_decide_eq_false_2 by done. done.
    - rewrite (proj2 (map_lookup_filter_None _ _ _)); [done | by left]. }
  split; intros key; unfold bind; change (evictExpired w) with (Ok tt, (evictExpired w).2).
  - apply (Hget _ qid_store key lens_qid_store).
  - apply (Hget _ conn_store key lens_conn_store).
Qed.

End cache.

Lemma cache_round_trip_witness :
  ∃ w1, @setCachedQid FetcherSpec.sample_env "Douglas Adams" "Q42" FetcherSpec.empty_world
          = (Ok tt, w1) ∧
        @getCachedQid FetcherSpec.sample_env "Douglas Adams" w1 = (Ok (Some "Q42"), w1).
Proof.
  destruct (proj1 (@cache_round_trip FetcherSpec.sample_env FetcherSpec.empty_world)
              "Douglas Adams" "Q42" eq_refl) as (w1 & Hset & _ & _ & Hget).
  exists w1. split; [exact Hset |].
  apply (Hget w1 eq_refl). unfold QID_TTL. cbn. lia.
Defined.

Lemma setInStorage_best_effort_witness :
  ∃ w', @setInStorage FetcherSpec.sample_env _ conn_store "Q42" [] CONN_TTL
          FetcherSpec.cached_world = (Ok tt, w') ∧
        connStore w' !! "Q42" = Some (mkEntry [] 3601000%Z) ∧
        is_Some (connStore w' !! "Q7").
Proof.
  destruct (@setInStorage_best_effort FetcherSpec.sample_env _ conn_store "Q42" [] CONN_TTL
              FetcherSpec.cached_world lens_conn_store)
    as (w' & Hset & _ & _ & _ & _ & Hkept).
  destruct (Hkept (or_introl eq_refl)) as (Hkey & _ & _ & Hconn).
  exists w'. split_and!; [exact Hset | exact Hkey |].
  apply Hconn. vm_compute. eexists. reflexivity.
Defined.

End CacheSpec.

(** ** Name resolution: what is remembered *)

Module ResolverSpec.
Import CacheSpec.

Section resolver.
Context `{E : Environment}.

(** The storage is never full. *)
Definition roomy : Prop := ∀ q c, fits q c = true.

Lemma setInStorage_roomy {T} (st : store T) key (d : T) ttl w :
  roomy → setInStorage st key d ttl w = (Ok tt, over st (insert key (written d ttl w)) w).
Proof. intros Hr. apply setInStorage_room. unfold room. apply Hr. Qed.

(** An entry of the id cache that has not expired answers the lookup:
    nothing is sent and nothing changes. *)
Lemma getWikidataId_hit name entry w :
  qidStore w !! name = Some entry → (now (env w) ≤ expires entry)%Z →
  getWikidataId name w =
    (Ok (if bool_decide (data entry = "null") then None else Some (data entry)), w).
Proof.
  intros Hentry Ht. unfold getWikidataId, bind, getCachedQid.
  destruct (getFromStorage_entry qid_store name entry w lens_qid_store Hentry) as [-> _]; done.
Qed.

(** What a lookup does when the cache has no answer, the name passes
    the sanitizer and the query returns rows. *)
Lemma getWikidataId_miss name w w0 sanitized bindings e' :
  getCachedQid name w = (Ok None, w0) →
  Sanitization.sanitizeEntityName name = Ok sanitized →
  http (LabelLookup sanitized) (env w0) = (inr bindings, e') →
  let w0' := with_env (λ _, e') (emit (EvQuery (LabelLookup sanitized)) w0) in
  getWikidataId name w =
    match bindings with
    | [] => (let* _ := setCachedQid name "null" in ret None) w0'
    | first :: _ =>
        match first !! "item" with
        | Some item =>
            (let* _ := setCachedQid name (last_segment item) in
             ret (Some (last_segment item))) w0'
        | None =>
            (Ok None,
             emit (EvLog ("Error finding QID for " +:+ name +:+ ": " +:+
                          "TypeError: Cannot read properties of undefined (reading 'value')"))
                  w0')
        end
    end.
Proof.
  intros Hc Hs Hh w0'. unfold getWikidataId. unfold bind at 1. rewrite Hc, Hs.
  unfold try_catch. unfold bind at 1, querySparql.
  change (env (emit (EvQuery (LabelLookup sanitized)) w0)) with (env w0). rewrite Hh.
  fold w0'. destruct bindings as [| first rest].
  - unfold bind.
    destruct (FetcherSpec.returns_setCachedQid name "null" w0') as ([] & w1 & ->). done.
  - unfold field. destruct (first !! "item") as [item |].
    + unfold bind, ret.
      destruct (FetcherSpec.returns_setCachedQid name (last_segment item) w0') as ([] & w1 & ->).
      done.
    + done.
Qed.

Lemma getCachedQid_Some name w cached w0 :
  getCachedQid name w = (Ok (Some cached), w0) →
  w0 = w ∧ ∃ entry, qidStore w !! name = Some entry ∧ data entry = cached ∧
                    (now (env w) ≤ expires entry)%Z.
Proof.
  unfold getCachedQid, getFromStorage. cbn [view qid_store].
  destruct (qidStore w !! name) as [entry |]; [| done].
  case_bool_decide as Hexp; [done |]. unfold expired in Hexp.
  intros [= <- <-]. split; [done |]. exists entry. split_and!; [done | done | lia].
Qed.

Lemma getWikidataId_miss_Some name w w0 qid w1 :
  roomy →
  getCachedQid name w = (Ok None, w0) →
  getWikidataId name w = (Ok (Some qid), w1) →
  ∃ entry, qidStore w1 !! name = Some entry ∧ data entry = qid ∧
           (now (env w1) ≤ expires entry)%Z.
Proof.
  intros Hroom Hc Hrun.
  destruct (Sanitization.sanitizeEntityName name) as [sanitized | |] eqn:Hs.
  2, 3: unfold getWikidataId, bind in Hrun; rewrite Hc, Hs in Hrun; done.
  destruct (http (LabelLookup sanitized) (env w0)) as [[message | bindings] e'] eqn:Hh.
  { unfold getWikidataId, bind, try_catch, querySparql in Hrun.
    rewrite Hc, Hs in Hrun.
    change (env (emit (EvQuery (LabelLookup sanitized)) w0)) with (env w0) in Hrun.
    rewrite Hh in Hrun. done. }
  rewrite (getWikidataId_miss name w w0 sanitized bindings e' Hc Hs Hh) in Hrun.
  destruct bindings as [| first rest].
  { unfold bind, setCachedQid in Hrun. rewrite setInStorage_roomy in Hrun by done. done. }
  destruct (first !! "item") as [item |]; [| done].
  unfold bind, setCachedQid in Hrun. rewrite setInStorage_roomy in Hrun by done.
  injection Hrun as <- <-.
  eexists. split_and!; [apply lookup_insert_eq | done | cbn; unfold QID_TTL; lia].
Qed.

(** X13. An id that [getWikidataId] has returned is remembered (the string
    [null], which the cache uses for an unknown name, apart).  When the
    storage is not full, the id cache holds the id afterwards in an entry
    that has not expired, and every later lookup of the name that finds
    this entry before it expires returns the id again, sends no query and
    changes nothing. *)
Theorem getWikidataId_memoised (name : string) (w : World) (qid : string) (w1 : World) :
  roomy →
  getWikidataId name w = (Ok (Some qid), w1) → qid ≠ "null" →
  ∃ entry, qidStore w1 !! name = Some entry ∧ data entry = qid ∧
    (now (env w1) ≤ expires entry)%Z ∧
    ∀ w2, qidStore w2 !! name = Some entry → (now (env w2) ≤ expires entry)%Z →
      getWikidataId name w2 = (Ok (Some qid), w2).
Proof.
  intros Hroom Hrun Hqid.
  assert (∃ entry, qidStore w1 !! name = Some entry ∧ data entry = qid ∧
                   (now (env w1) ≤ expires entry)%Z) as (entry & Hentry & Hd & Ht).
  { destruct (FetcherSpec.returns_getFromStorage qid_store name w) as ([cached |] & w0 & Hc).
    - apply getCachedQid_Some in Hc as (-> & entry & Hentry & <- & Ht).
      rewrite (getWikidataId_hit name entry w Hentry Ht) in Hrun.
      case_bool_decide; [done |]. injection Hrun as <- <-. by exists entry.
    - by apply (getWikidataId_miss_Some name w w0). }
  exists entry. split_and!; [done.. |].
  intros w2 Hentry2 Ht2. rewrite (getWikidataId_hit name entry w2 Hentry2 Ht2), Hd.
  by rewrite bool_decide_eq_false_2.
Qed.

(** X14. A name that the endpoint does not know is remembered as such.
    When the cache has no answer, the name passes the sanitizer, the
    query returns no row and the storage is not full, [getWikidataId]
    returns [null] after one query, and every later lookup of the name
    that finds the stored entry before it expires returns [null] without
    a query. *)
Theorem getWikidataId_remembers_unknown (name : string) (w w0 : World) (sanitized : string)
    (e' : Env) :
  roomy →
  getCachedQid name w = (Ok None, w0) →
  Sanitization.sanitizeEntityName name = Ok sanitized →
  http (LabelLookup sanitized) (env w0) = (inr [], e') →
  ∃ w1 entry,
    getWikidataId name w = (Ok None, w1) ∧
    trace w1 = trace w0 ++ [EvQuery (LabelLookup sanitized)] ∧
    qidStore w1 !! name = Some entry ∧ (now (env w1) ≤ expires entry)%Z ∧
    ∀ w2, qidStore w2 !! name = Some entry → (now (env w2) ≤ expires entry)%Z →
      getWikidataId name w2 = (Ok None, w2).
Proof.
  intros Hroom Hc Hs Hh.
  rewrite (getWikidataId_miss name w w0 sanitized [] e' Hc Hs Hh).
  unfold bind, setCachedQid. rewrite setInStorage_roomy by done.
  eexists _, _. split_and!; [done | done | apply lookup_insert_eq | cbn; unfold QID_TTL; lia |].
  intros w2 Hentry Ht. by rewrite (getWikidataId_hit name _ w2 Hentry Ht).
Qed.

End resolver.

Lemma sample_roomy : @roomy FetcherSpec.sample_env.
Proof. by intros q c. Qed.

Definition found_world : @World FetcherSpec.sample_env :=
  (@getWikidataId FetcherSpec.sample_env "Douglas Adams" FetcherSpec.empty_world).2.

Lemma getWikidataId_memoised_witness :
  @getWikidataId FetcherSpec.sample_env "Douglas Adams" found_world
  = (Ok (Some "Q42"), found_world).
Proof.
  destruct (@getWikidataId_memoised FetcherSpec.sample_env "Douglas Adams"
              FetcherSpec.empty_world "Q42" found_world sample_roomy)
    as (entry & Hentry & _ & Ht & Hlater).
  - apply pair_eta. reflexivity.
  - discriminate.
  - apply (Hlater found_world Hentry Ht).
Defined.

Lemma getWikidataId_remembers_unknown_witness :
  ∃ w1, @getWikidataId FetcherSpec.sample_env "Nobody" FetcherSpec.empty_world = (Ok None, w1) ∧
        @getWikidataId FetcherSpec.sample_env "Nobody" w1 = (Ok None, w1).
Proof.
  destruct (@getWikidataId_remembers_unknown FetcherSpec.sample_env "Nobody"
              FetcherSpec.empty_world FetcherSpec.empty_world "Nobody" tt sample_roomy
              eq_refl eq_refl eq_refl)
    as (w1 & entry & Hrun & _ & Hentry & Ht & Hlater).
  exists w1. split; [exact Hrun | exact (Hlater w1 Hentry Ht)].
Defined.

End ResolverSpec.

(** ** Connection fetcher: the answer of a batch and what is cached *)

Module BatchSpec.
Import CacheSpec ResolverSpec FetcherSpec.

(** The groups of a node ([GraphNode['group']]). *)
Definition GROUPS : list string :=
  ["person"; "school"; "location"; "country"; "city"; "organization"; "company"; "concept"].

(** What the loop over the rows guarantees of a connection. *)
Record well_formed (c : ConnectionData) : Prop := {
  wf_target : Sanitization.isValidQid (conn_target c) = true;
  wf_group : conn_group c ∈ GROUPS;
  wf_target_label : conn_target_label c ≠ "";
  wf_label : conn_label c ≠ "";
  wf_type_label : conn_type_label c ≠ "";
  wf_image : conn_image c ≠ Some ""
}.

(** *** The rows of an answer *)

(** The connection that the loop over the rows makes of a row: none of
    a row whose target is not a well-formed identifier, which the loop
    skips. *)
Definition connection_of (res : binding) : option ConnectionData :=
  target ← res !! "target";
  source ← res !! "source";
  let targetId := last_segment target in
  if Sanitization.isValidQid targetId then
    Some (mkConn (last_segment source) targetId
            (field_or res "targetLabel" targetId)
            (field_or res "propLabel" "link")
            (match res !! "image" with
             | Some v => if bool_decide (v = "") then None else Some v
             | None => None
             end)
            (if bool_decide (res !! "isHuman" = Some "true") then "person"
             else determineGroup (field_or res "typeQID" ""))
            (field_or res "typeLabel" "Concept"))
  else None.

(** A row that the loop reads without an exception: it binds its
    target, and its source as well if the target is well formed. *)
Definition readable (res : binding) : bool :=
  match res !! "target" with
  | Some target =>
      if Sanitization.isValidQid (last_segment target)
      then bool_decide (is_Some (res !! "source")) else true
  | None => false
  end.

(** What the loop adds to the result: the connections of the rows, or,
    when a row is not readable, nothing (the exception ends the [try]
    block). *)
Definition rows_read (bindings : list binding) : list ConnectionData :=
  if forallb readable bindings then omap connection_of bindings else [].

(** A row whose source, if it binds one, is a well-formed identifier.
    [connectionsBySource] is a plain object: a source that is a name
    inherited from [Object.prototype] would be found in it without
    having been put there. *)
Definition sourced (res : binding) : Prop :=
  ∀ source, res !! "source" = Some source →
    Sanitization.isValidQid (last_segment source) = true.

Section batch.
Context `{E : Environment}.

Lemma determineGroup_range entityTypeQid : determineGroup entityTypeQid ∈ GROUPS.
Proof.
  unfold determineGroup, GROUPS.
  repeat (case_bool_decide; [rewrite !elem_of_cons; tauto |]).
  rewrite !elem_of_cons; tauto.
Qed.

Lemma field_or_nonempty res x fallback : fallback ≠ "" → field_or res x fallback ≠ "".
Proof.
  intros Hf. unfold field_or. destruct (res !! x) as [v |]; [| done].
  by case_bool_decide.
Qed.

(** [m] leaves the state as it is. *)
Definition pure {A} (m : M World A) : Prop := ∀ w, (m w).2 = w.

Lemma pure_ret {A} (a : A) : pure (ret a).
Proof. done. Qed.

Lemma pure_throw {A} e : pure (throw e : M World A).
Proof. done. Qed.

Lemma pure_bind {A B} (m : M World A) (k : A → M World B) :
  pure m → (∀ a, pure (k a)) → pure (bind m k).
Proof.
  intros Hm Hk w. unfold bind. specialize (Hm w).
  destruct (m w) as [[a | e |] w']; cbn in Hm; subst w'; [apply Hk | done | done].
Qed.

Lemma pure_for_each {A S} (body : S → A → M World S) l :
  (∀ acc x, pure (body acc x)) → ∀ acc, pure (for_each body l acc).
Proof.
  intros Hbody. induction l as [| x l IH]; intros acc; [apply pure_ret |].
  apply pure_bind; [apply Hbody | apply IH].
Qed.

Lemma pure_field res x : pure (field res x).
Proof. unfold field. destruct (res !! x); [apply pure_ret | apply pure_throw]. Qed.

Lemma pure_read_binding acc res : pure (read_binding acc res).
Proof.
  unfold read_binding. apply pure_bind; [apply pure_field |]. intros target.
  case_match; [apply pure_ret |].
  apply pure_bind; [apply pure_field |]. intros source. apply pure_ret.
Qed.

(** One row: the connections read so far stay, and a row adds at most
    one connection, which is well formed. *)
Lemma read_binding_Ok acc res w acc' w' :
  read_binding acc res w = (Ok acc', w') →
  acc' = acc ∨
  ∃ c, well_formed c ∧ acc'.1 = acc.1 ++ [c] ∧
       acc'.2 = match OMap.get (conn_source c) acc.2 with
                | Some l => OMap.replace (conn_source c) (l ++ [c]) acc.2
                | None => acc.2
                end.
Proof.
  unfold read_binding, bind, field.
  destruct (res !! "target") as [target |]; [| done]. cbn.
  destruct (Sanitization.isValidQid (last_segment target)) eqn:Hvalid; cbn.
  { destruct (res !! "source") as [source |]; [| done]. cbn.
    intros [= <- <-]. right. eexists. split; [| done].
    split; cbn.
    - done.
    - case_bool_decide; [set_solver | apply determineGroup_range].
    - apply field_or_nonempty. intros Heq. by rewrite Heq in Hvalid.
    - by apply field_or_nonempty.
    - by apply field_or_nonempty.
    - destruct (res !! "image") as [v |]; [| done]. by case_bool_decide; [| intros [= ->]]. }
  intros [= <- <-]. by left.
Qed.

Lemma read_bindings_well_formed bindings :
  ∀ acc w acc' w', Forall well_formed acc.1 →
  for_each read_binding bindings acc w = (Ok acc', w') → Forall well_formed acc'.1.
Proof.
  apply BuilderSpec.for_each_inv.
  intros acc res w acc' w' Hacc [-> | (c & Hc & -> & _)]%read_binding_Ok; [done |].
  apply Forall_app. split; [done | by constructor].
Qed.

(** The loop that stores the connections of every source touches the
    caches only. *)
Lemma cache_loop entries :
  ∀ w, ∃ w', for_each (λ _ kv, setCachedConnections kv.1 kv.2) entries tt w = (Ok tt, w') ∧
             env w' = env w ∧ trace w' = trace w.
Proof.
  induction entries as [| [k v] entries IH]; intros w; [by exists w |].
  cbn [for_each]. unfold bind at 1.
  destruct (setInStorage_frame conn_store k v CONN_TTL w lens_conn_store)
    as (w1 & Hset & Henv & Htrace & _).
  unfold setCachedConnections at 1. cbn [fst snd]. rewrite Hset.
  destruct (IH w1) as (w' & -> & Henv' & Htrace'). exists w'. split; [done |].
  split; congruence.
Qed.

(** The connections that a call adds to what the cache holds. *)
Definition fresh_of (w : World) (qids : list string) : list ConnectionData :=
  match cache_misses w qids with
  | [] => []
  | misses =>
      match http (Connections (values_of misses) SPARQL_RESULT_LIMIT) (env w) with
      | (inr bindings, _) => rows_read bindings
      | (inl _, _) => []
      end
  end.

Lemma read_binding_run acc res w :
  if readable res
  then ∃ bySource,
         read_binding acc res w =
           (Ok (acc.1 ++ option_list (connection_of res), bySource), w)
  else ∃ e, read_binding acc res w = (Throw e, w).
Proof.
  unfold readable, connection_of, read_binding, bind, field.
  destruct (res !! "target") as [target |]; cbn; [| by eexists].
  destruct (Sanitization.isValidQid (last_segment target)); cbn.
  - destruct (res !! "source") as [source |]; cbn.
    + by eexists.
    + by eexists.
  - destruct (res !! "source"); cbn; rewrite app_nil_r; exists acc.2; by destruct acc.
Qed.

Lemma read_bindings_run bindings :
  ∀ acc w,
    if forallb readable bindings
    then ∃ bySource,
           for_each read_binding bindings acc w =
             (Ok (acc.1 ++ omap connection_of bindings, bySource), w)
    else ∃ e, for_each read_binding bindings acc w = (Throw e, w).
Proof.
  induction bindings as [| res bindings IH]; intros acc w.
  - cbn. rewrite app_nil_r. exists acc.2. by destruct acc.
  - cbn [forallb for_each omap list_omap]. unfold bind.
    pose proof (read_binding_run acc res w) as Hrow.
    destruct (readable res); cbn [andb].
    + destruct Hrow as (bySource & ->).
      specialize (IH (acc.1 ++ option_list (connection_of res), bySource) w).
      destruct (forallb readable bindings).
      * destruct IH as (bySource' & ->). exists bySource'. cbn [fst].
        destruct (connection_of res); cbn; by rewrite <- ?app_assoc, ?app_nil_r.
      * done.
    + destruct Hrow as (e & ->). by exists e.
Qed.

Lemma connection_of_well_formed res c : connection_of res = Some c → well_formed c.
Proof.
  unfold connection_of. destruct (res !! "target") as [target |]; [| done]. cbn.
  destruct (res !! "source") as [source |]; [| done]. cbn.
  destruct (Sanitization.isValidQid (last_segment target)) eqn:Hvalid; [| done].
  intros [= <-]. split; cbn.
  - done.
  - case_bool_decide; [set_solver | apply determineGroup_range].
  - apply field_or_nonempty. intros Heq. by rewrite Heq in Hvalid.
  - by apply field_or_nonempty.
  - by apply field_or_nonempty.
  - destruct (res !! "image") as [v |]; [| done]. by case_bool_decide; [| intros [= ->]].
Qed.

Lemma rows_read_well_formed bindings : Forall well_formed (rows_read bindings).
Proof.
  unfold rows_read. destruct (forallb readable bindings); [| constructor].
  apply Forall_forall. intros c (res & _ & Hc)%list_elem_of_omap.
  by apply connection_of_well_formed in Hc.
Qed.

Lemma fresh_of_well_formed w qids : Forall well_formed (fresh_of w qids).
Proof.
  unfold fresh_of. destruct (cache_misses w qids); [constructor |].
  destruct (http _ _) as [[? | bindings] ?]; [constructor | apply rows_read_well_formed].
Qed.

(** X15. [fetchBatchConnections] returns, on every list of ids and in
    every state, what the cache holds for the ids followed by the
    connections of the rows that the query returns: one connection for
    every row whose target is a well-formed identifier, in the order of
    the rows, made of the fields of the row.  When the query fails or a
    row lacks its target or its source, nothing follows.  Each
    connection read has a valid id as target, one of the eight node
    groups as group, and no empty label.  At most one query is sent:
    none when the cache answers for every id, and otherwise the one
    query for the ids that the cache does not answer for.  This holds
    when the sources of the rows are well-formed identifiers. *)
Theorem fetchBatchConnections_fresh (qids : list string) (w : World) :
  (∀ bindings e',
     http (Connections (values_of (cache_misses w qids)) SPARQL_RESULT_LIMIT) (env w)
       = (inr bindings, e') →
     Forall sourced bindings) →
  ∃ w' evs,
    fetchBatchConnections qids w = (Ok (cache_hits w qids ++ fresh_of w qids), w') ∧
    Forall well_formed (fresh_of w qids) ∧
    trace w' = trace w ++ evs ∧
    filter (λ ev, ApiSpec.is_query ev = true) evs =
      match cache_misses w qids with
      | [] => []
      | misses => [EvQuery (Connections (values_of misses) SPARQL_RESULT_LIMIT)]
      end.
Proof.
  intros _. pose proof (fresh_of_well_formed w qids) as Hwf. revert Hwf.
  unfold fresh_of, fetchBatchConnections. case_bool_decide as Hlen.
  { apply nil_length_inv in Hlen as ->. intros _. exists w, [].
    split_and!; [done | constructor | by rewrite app_nil_r | done]. }
  unfold bind at 1.
  destruct (lookup_cached_loop qids ([], []) w) as (w0 & -> & Henv & Htrace).
  cbn [fst snd app].
  case_bool_decide as Hmiss.
  { apply nil_length_inv in Hmiss. rewrite Hmiss. intros _. exists w0, [].
    rewrite !app_nil_r. split_and!; [done | constructor | done | done]. }
  destruct (cache_misses w qids) as [| miss misses]; [done |]. clear Hmiss.
  fold (values_of (miss :: misses)).
  set (query := Connections (values_of (miss :: misses)) SPARQL_RESULT_LIMIT).
  unfold try_catch. unfold bind at 1. unfold querySparql.
  change (env (emit (EvQuery query) w0)) with (env w0). rewrite Henv.
  destruct (http query (env w)) as [[message | bindings] e'].
  { intros Hwf. eexists _, [EvQuery query; EvLog _]. unfold bind, log, modify, ret.
    rewrite app_nil_r. split; [done |]. split; [done |].
    cbn. by rewrite Htrace, <- app_assoc. }
  set (w1 := with_env (λ _, e') (emit (EvQuery query) w0)).
  set (init := foldl (λ m qid, OMap.set qid [] m) [] (miss :: misses)).
  intros Hwf. unfold bind at 1. unfold rows_read in *.
  pose proof (read_bindings_run bindings ([], init) w1) as Hread.
  destruct (forallb readable bindings).
  - destruct Hread as (bySource & ->). unfold bind at 1. cbn [fst snd app].
    destruct (cache_loop bySource w1) as (w2 & -> & _ & Htrace2).
    exists w2, [EvQuery query]. split; [done |]. split; [done |].
    by rewrite Htrace2, <- Htrace.
  - destruct Hread as (e & ->).
    eexists _, [EvQuery query; EvLog _]. unfold bind, log, modify, ret.
    rewrite app_nil_r. split; [done |]. split; [done |].
    cbn. by rewrite Htrace, <- app_assoc.
Qed.

(** *** What a successful batch leaves in the cache *)

Lemma get_replace {V} k k' (v : V) m :
  is_Some (OMap.get k' m) →
  OMap.get k (OMap.replace k' v m) = if decide (k = k') then Some v else OMap.get k m.
Proof.
  induction m as [| [k0 v0] m IH]; intros [x Hx]; [done |]. cbn in Hx |- *.
  destruct (decide (k0 = k')) as [-> | Hne]; cbn.
  - destruct (decide (k' = k)) as [-> | Hne'].
    + by rewrite decide_True.
    + by rewrite decide_False by done.
  - destruct (decide (k0 = k)) as [-> | Hne'].
    + by rewrite decide_False by done.
    + apply IH. eauto.
Qed.

Lemma get_set {V} k k' (v : V) m :
  OMap.get k (OMap.set k' v m) = if decide (k = k') then Some v else OMap.get k m.
Proof.
  unfold OMap.set. destruct (OMap.get k' m) as [x |] eqn:Hx.
  - apply get_replace. eauto.
  - induction m as [| [k0 v0] m IH]; cbn in Hx |- *.
    + destruct (decide (k' = k)) as [-> | Hne];
        [by rewrite decide_True | by rewrite decide_False].
    + destruct (decide (k0 = k')) as [-> | Hne]; [done |].
      destruct (decide (k0 = k)) as [-> | Hne'].
      * by rewrite decide_False by done.
      * by apply IH.
Qed.

(** [connectionsBySource] before the rows are read: an empty list for
    every id that is asked for. *)
Lemma get_init misses k :
  OMap.get k (foldl (λ m qid, OMap.set qid [] m) [] misses) =
  if decide (k ∈ misses) then Some ([] : list ConnectionData) else None.
Proof.
  induction misses as [| q misses IH] using rev_ind; [done |].
  rewrite foldl_snoc, get_set, IH.
  destruct (decide (k = q)) as [-> | Hne].
  - rewrite decide_True; [done | set_solver].
  - destruct (decide (k ∈ misses)) as [Hin | Hout].
    + rewrite decide_True; [done | set_solver].
    + rewrite decide_False; [done | set_solver].
Qed.

Lemma NoDup_init (misses : list string) :
  NoDup (foldl (λ m qid, OMap.set qid ([] : list ConnectionData) m) [] misses).*1.
Proof.
  induction misses as [| q misses IH] using rev_ind; [constructor |].
  rewrite foldl_snoc. by apply BuilderSpec.set_keys_NoDup.
Qed.

(** A row that binds its two nodes. *)
Definition complete (res : binding) : Prop :=
  is_Some (res !! "target") ∧ is_Some (res !! "source").

(** [connectionsBySource] while the rows are read: under every id that
    is asked for, the connections read so far that start at it. *)
Definition by_source (misses : list string)
    (acc : list ConnectionData * list (string * list ConnectionData)) : Prop :=
  NoDup acc.2.*1 ∧
  ∀ k, OMap.get k acc.2 =
       if decide (k ∈ misses) then Some (filter (λ c, conn_source c = k) acc.1) else None.

Lemma read_binding_complete misses acc res w :
  complete res → by_source misses acc →
  ∃ acc', read_binding acc res w = (Ok acc', w) ∧ by_source misses acc'.
Proof.
  intros [[target Ht] [source Hs]] [Hnd Hget].
  pose proof (pure_read_binding acc res w) as Hpure.
  destruct (read_binding acc res w) as [[acc' | e |] w'] eqn:Hread; cbn in Hpure; subst w'.
  - exists acc'. split; [done |].
    apply read_binding_Ok in Hread as [-> | (c & _ & Hacc1 & Hacc2)]; [done |].
    split.
    + rewrite Hacc2. destruct (OMap.get (conn_source c) acc.2); [| done].
      by rewrite BuilderSpec.replace_keys.
    + intros k. rewrite Hacc1, Hacc2, filter_app.
      pose proof (Hget (conn_source c)) as Hsrc. pose proof (Hget k) as Hk.
      destruct (OMap.get (conn_source c) acc.2) as [l |] eqn:Hl.
      * rewrite get_replace by eauto.
        destruct (decide (k = conn_source c)) as [-> | Hne].
        -- destruct (decide (conn_source c ∈ misses)); [| done].
           injection Hsrc as ->. rewrite filter_cons_True by done. done.
        -- rewrite Hk. rewrite filter_cons_False by (cbn; congruence).
           rewrite filter_nil, app_nil_r. done.
      * rewrite Hk. destruct (decide (k ∈ misses)) as [Hin | Hout]; [| done].
        rewrite filter_cons_False, filter_nil, app_nil_r; [done |].
        cbn. intros Heq. rewrite Heq in Hsrc. by rewrite decide_True in Hsrc.
  - unfold read_binding, bind, field in Hread. rewrite Ht, Hs in Hread. cbn in Hread.
    by destruct (Sanitization.isValidQid (last_segment target)).
  - exfalso. apply (halts_read_binding acc res w). by rewrite Hread.
Qed.

Lemma read_bindings_complete misses bindings :
  Forall complete bindings →
  ∀ acc w, by_source misses acc →
  ∃ acc', for_each read_binding bindings acc w = (Ok acc', w) ∧ by_source misses acc'.
Proof.
  induction 1 as [| res bindings Hres _ IH]; intros acc w Hacc; [by exists acc |].
  cbn [for_each]. unfold bind.
  destruct (read_binding_complete misses acc res w Hres Hacc) as (acc1 & -> & Hacc1).
  apply IH, Hacc1.
Qed.

(** With room in the storage the loop that stores the connections
    writes every entry, with the time to live counted from now. *)
Lemma cache_loop_roomy entries :
  roomy → NoDup entries.*1 →
  ∀ w, ∃ w', for_each (λ _ kv, setCachedConnections kv.1 kv.2) entries tt w = (Ok tt, w') ∧
    env w' = env w ∧
    ∀ k, connStore w' !! k =
         match OMap.get k entries with
         | Some v => Some (mkEntry v (now (env w) + CONN_TTL)%Z)
         | None => connStore w !! k
         end.
Proof.
  intros Hroom. induction entries as [| [k0 v0] entries IH]; intros Hnd w; [by exists w |].
  apply NoDup_cons in Hnd as [Hfresh Hnd]. cbn [fst] in Hfresh.
  apply BuilderSpec.get_None in Hfresh.
  cbn [for_each]. unfold bind at 1. unfold setCachedConnections at 1. cbn [fst snd].
  rewrite setInStorage_roomy by done.
  destruct (IH Hnd (over conn_store (insert k0 (written v0 CONN_TTL w)) w))
    as (w' & -> & Henv & Hstore).
  exists w'. split; [done |]. split; [by rewrite Henv |].
  intros k. rewrite Hstore. cbn [OMap.get].
  destruct (decide (k0 = k)) as [-> | Hne].
  - rewrite Hfresh. cbn. apply lookup_insert_eq.
  - destruct (OMap.get k entries); [done |]. cbn. by rewrite lookup_insert_ne.
Qed.

(** X16. After a batch whose query succeeded, the connection cache holds
    an entry for every id that was asked for, with the connections of
    the rows of the answer that start at this id, in their order (an
    empty list if there is none).  This holds when the ids asked for and
    the sources of the rows are well-formed identifiers, every row binds
    its source and its target, and the storage is not full. *)
Theorem fetchBatchConnections_caches (qids : list string) (w : World)
    (bindings : list binding) (e' : Env) :
  roomy →
  Forall (λ qid, Sanitization.isValidQid qid = true) qids →
  cache_misses w qids ≠ [] →
  http (Connections (values_of (cache_misses w qids)) SPARQL_RESULT_LIMIT) (env w)
    = (inr bindings, e') →
  Forall complete bindings →
  Forall sourced bindings →
  ∃ w',
    fetchBatchConnections qids w
      = (Ok (cache_hits w qids ++ omap connection_of bindings), w') ∧
    env w' = e' ∧
    ∀ qid, qid ∈ cache_misses w qids →
      connStore w' !! qid =
        Some (mkEntry (filter (λ c, conn_source c = qid) (omap connection_of bindings))
                (now e' + CONN_TTL)%Z) ∧
      cached_in w' qid =
        Some (filter (λ c, conn_source c = qid) (omap connection_of bindings)).
Proof.
  intros Hroom _ Hmiss Hhttp Hrows _.
  unfold fetchBatchConnections. rewrite bool_decide_eq_false_2.
  2: { intros ->%nil_length_inv. by apply Hmiss. }
  unfold bind at 1.
  destruct (lookup_cached_loop qids ([], []) w) as (w0 & -> & Henv & Htrace).
  cbn [fst snd app].
  rewrite bool_decide_eq_false_2.
  2: { intros Hnil%nil_length_inv. by apply Hmiss. }
  fold (values_of (cache_misses w qids)).
  set (misses := cache_misses w qids) in *.
  set (query := Connections (values_of misses) SPARQL_RESULT_LIMIT) in *.
  unfold try_catch. unfold bind at 1. unfold querySparql.
  change (env (emit (EvQuery query) w0)) with (env w0). rewrite Henv, Hhttp.
  set (w1 := with_env (λ _, e') (emit (EvQuery query) w0)).
  set (init := foldl (λ m qid, OMap.set qid [] m) [] misses).
  assert (by_source misses ([], init)) as Hinit.
  { split; [apply NoDup_init |]. intros k. cbn [fst snd]. rewrite filter_nil. apply get_init. }
  destruct (read_bindings_complete misses bindings Hrows ([], init) w1 Hinit)
    as (read & Hread & [Hnd Hget]).
  assert (read.1 = omap connection_of bindings) as Hrows_read.
  { pose proof (read_bindings_run bindings ([], init) w1) as Hrun. rewrite Hread in Hrun.
    destruct (forallb readable bindings).
    - by destruct Hrun as (bySource & [= ->]).
    - by destruct Hrun as (e & ?). }
  unfold bind at 1. rewrite Hread. unfold bind at 1.
  destruct (cache_loop_roomy read.2 Hroom Hnd w1) as (w' & -> & Henv' & Hstore).
  exists w'. rewrite <- Hrows_read. split; [done |]. split; [by rewrite Henv' |].
  intros qid Hin.
  assert (connStore w' !! qid =
          Some (mkEntry (filter (λ c, conn_source c = qid) read.1) (now e' + CONN_TTL)%Z))
    as Hentry.
  { rewrite Hstore, Hget, decide_True by done. done. }
  split; [done |]. unfold cached_in. rewrite Hentry, Henv'. cbn.
  rewrite bool_decide_eq_false_2; [done |]. unfold expired, CONN_TTL. cbn. lia.
Qed.

End batch.

Definition sample_rows : list binding :=
  match FetcherSpec.sample_http (Connections "wd:Q42" SPARQL_RESULT_LIMIT) tt with
  | (inr rows, _) => rows
  | _ => []
  end.

Lemma sample_rows_sourced : Forall sourced sample_rows.
Proof. repeat constructor; intros source [= <-]; reflexivity. Qed.

Lemma fetchBatchConnections_fresh_witness :
  ∃ w' evs,
    @fetchBatchConnections sample_env ["Q7"; "Q42"] cached_world
      = (Ok (cache_hits cached_world ["Q7"; "Q42"] ++ fresh_of cached_world ["Q7"; "Q42"]),
         w') ∧
    Forall well_formed (fresh_of cached_world ["Q7"; "Q42"]) ∧
    trace w' = trace cached_world ++ evs ∧
    filter (λ ev, ApiSpec.is_query ev = true) evs =
      [EvQuery (Connections "wd:Q42" SPARQL_RESULT_LIMIT)].
Proof.
  apply (@fetchBatchConnections_fresh sample_env ["Q7"; "Q42"] cached_world).
  intros bindings e' [= <- <-]. apply sample_rows_sourced.
Defined.

(** In the sample run one connection comes from the cache and four from
    the rows of the answer. *)
Example fetchBatchConnections_sample :
  cache_hits cached_world ["Q7"; "Q42"] =
    [mkConn "Q7" "Q8" "Eight" "follows" None "concept" "Concept"] ∧
  @fresh_of sample_env cached_world ["Q7"; "Q42"] =
    [mkConn "Q42" "Q1" "Earth" "place of birth" None "concept" "Concept";
     mkConn "Q42" "Q1" "Terra" "residence" None "concept" "Concept";
     mkConn "Q42" "Q1" "Terra" "residence" None "concept" "Concept";
     mkConn "Q42" "Q5" "Q5" "instance of" None "person" "Concept"].
Proof. split; vm_compute; reflexivity. Qed.

(** Two ids are asked for; all rows of the answer start at the first:
    the second gets the empty list. *)
Lemma fetchBatchConnections_caches_witness :
  ∃ w',
    @fetchBatchConnections sample_env ["Q42"; "Q5"] empty_world
      = (Ok (cache_hits empty_world ["Q42"; "Q5"] ++ omap connection_of sample_rows), w') ∧
    env w' = tt ∧
    ∀ qid, qid ∈ cache_misses empty_world ["Q42"; "Q5"] →
      connStore w' !! qid =
        Some (mkEntry (filter (λ c, conn_source c = qid) (omap connection_of sample_rows))
                (@now sample_env tt + CONN_TTL)%Z) ∧
      cached_in w' qid =
        Some (filter (λ c, conn_source c = qid) (omap connection_of sample_rows)).
Proof.
  apply (@fetchBatchConnections_caches sample_env ["Q42"; "Q5"] empty_world sample_rows tt
           sample_roomy).
  - repeat constructor.
  - vm_compute. discriminate.
  - reflexivity.
  - repeat constructor; vm_compute; eexists; reflexivity.
  - apply sample_rows_sourced.
Defined.

Example fetchBatchConnections_caches_sample :
  cache_misses empty_world ["Q42"; "Q5"] = ["Q42"; "Q5"] ∧
  length (filter (λ c, conn_source c = "Q42") (omap connection_of sample_rows)) = 4 ∧
  filter (λ c, conn_source c = "Q5") (omap connection_of sample_rows) = [].
Proof. split_and!; vm_compute; reflexivity. Qed.

End BatchSpec.

(** ** Graph builder: the queries of a run and the shape of the graph *)

Module CrawlSpec.
Import CacheSpec ResolverSpec BatchSpec FetcherSpec BuilderSpec.

(** *** What a run sends

    The queries of a stretch of the trace, and the batches handed to
    [fetchBatchConnections]. *)

Definition queries (evs : list event) : nat :=
  length (filter (λ ev, ApiSpec.is_query ev = true) evs).

Definition batches (evs : list event) : list (list string) :=
  omap (λ ev, match ev with EvFetched batch _ => Some batch | _ => None end) evs.

(** At most [q] queries and [b] batches, each batch of 1 to 50 ids. *)
Definition bounded (q b : nat) (evs : list event) : Prop :=
  queries evs ≤ q ∧ length (batches evs) ≤ b ∧
  Forall (λ batch, 0 < length batch ≤ 50) (batches evs).

Lemma queries_app evs1 evs2 : queries (evs1 ++ evs2) = queries evs1 + queries evs2.
Proof. unfold queries. by rewrite filter_app, length_app. Qed.

Lemma batches_app evs1 evs2 : batches (evs1 ++ evs2) = batches evs1 ++ batches evs2.
Proof. unfold batches. by rewrite omap_app. Qed.

Lemma bounded_nil q b : bounded q b [].
Proof. unfold bounded. cbn. split_and!; [lia | lia | constructor]. Qed.

Lemma bounded_app q1 b1 q2 b2 evs1 evs2 :
  bounded q1 b1 evs1 → bounded q2 b2 evs2 → bounded (q1 + q2) (b1 + b2) (evs1 ++ evs2).
Proof.
  intros (? & ? & ?) (? & ? & ?). unfold bounded.
  rewrite queries_app, batches_app, length_app, Forall_app. split_and!; [lia | lia | done | done].
Qed.

Lemma bounded_mono q b q' b' evs : q ≤ q' → b ≤ b' → bounded q b evs → bounded q' b' evs.
Proof. intros ? ? (? & ? & ?). unfold bounded. split_and!; [lia | lia | done]. Qed.

Lemma bounded_other ev :
  ApiSpec.is_query ev = false → batches [ev] = [] → bounded 0 0 [ev].
Proof.
  intros Hq Hb. unfold bounded, queries. rewrite Hb.
  rewrite filter_cons_False by (by rewrite Hq). cbn. split_and!; [lia | lia | constructor].
Qed.

Lemma bounded_query query : bounded 1 0 [EvQuery query].
Proof.
  unfold bounded, queries. rewrite filter_cons_True by done.
  cbn. split_and!; [lia | lia | constructor].
Qed.

Section crawl.
Context `{E : Environment}.

(** Whatever [m] returns, it adds to the trace a stretch with at most
    [q] queries and [b] batches. *)
Definition costs {A} (q b : nat) (m : M World A) : Prop :=
  ∀ w, ∃ evs, trace (m w).2 = trace w ++ evs ∧ bounded q b evs.

Lemma costs_mono {A} q b q' b' (m : M World A) :
  q ≤ q' → b ≤ b' → costs q b m → costs q' b' m.
Proof.
  intros ? ? Hm w. destruct (Hm w) as (evs & ? & ?). exists evs.
  split; [done | by eapply bounded_mono].
Qed.

(** Nothing is added to the trace. *)
Definition mute {A} (m : M World A) : Prop := ∀ w, trace (m w).2 = trace w.

Lemma mute_costs {A} (m : M World A) : mute m → costs 0 0 m.
Proof. intros Hm w. exists []. rewrite app_nil_r. split; [apply Hm | apply bounded_nil]. Qed.

Lemma costs_ret {A} (a : A) : costs 0 0 (ret a).
Proof. by apply mute_costs. Qed.

Lemma costs_throw {A} e : costs 0 0 (throw e : M World A).
Proof. by apply mute_costs. Qed.

Lemma costs_lift {A} (o : outcome A) : costs 0 0 (lift o).
Proof. by apply mute_costs. Qed.

Lemma costs_bind {A B} q1 b1 q2 b2 (m : M World A) (k : A → M World B) :
  costs q1 b1 m → (∀ a, costs q2 b2 (k a)) → costs (q1 + q2) (b1 + b2) (bind m k).
Proof.
  intros Hm Hk w. unfold bind. destruct (Hm w) as (evs1 & Ht1 & Hb1).
  destruct (m w) as [[a | e |] w1]; cbn [snd] in Ht1.
  - destruct (Hk a w1) as (evs2 & Ht2 & Hb2). exists (evs1 ++ evs2).
    split; [by rewrite Ht2, Ht1, app_assoc | by apply bounded_app].
  - exists evs1. split; [done |]. eapply bounded_mono; [| | done]; lia.
  - exists evs1. split; [done |]. eapply bounded_mono; [| | done]; lia.
Qed.

Lemma costs_try_catch {A} q1 b1 q2 b2 (m : M World A) handler :
  costs q1 b1 m → (∀ e, costs q2 b2 (handler e)) → costs (q1 + q2) (b1 + b2) (try_catch m handler).
Proof.
  intros Hm Hh w. unfold try_catch. destruct (Hm w) as (evs1 & Ht1 & Hb1).
  destruct (m w) as [[a | e |] w1]; cbn [snd] in Ht1.
  - exists evs1. split; [done |]. eapply bounded_mono; [| | done]; lia.
  - destruct (Hh e w1) as (evs2 & Ht2 & Hb2). exists (evs1 ++ evs2).
    split; [by rewrite Ht2, Ht1, app_assoc | by apply bounded_app].
  - exists evs1. split; [done |]. eapply bounded_mono; [| | done]; lia.
Qed.

Lemma costs_for_each {A S} q (body : S → A → M World S) l :
  (∀ acc x, costs q 0 (body acc x)) → ∀ acc, costs (length l * q) 0 (for_each body l acc).
Proof.
  intros Hbody. induction l as [| x l IH]; intros acc; [apply costs_ret |].
  cbn [for_each length]. apply (costs_bind q 0 (length l * q) 0); [apply Hbody | apply IH].
Qed.

Lemma costs_for_each_0 {A S} (body : S → A → M World S) l :
  (∀ acc x, costs 0 0 (body acc x)) → ∀ acc, costs 0 0 (for_each body l acc).
Proof.
  intros Hbody acc. apply (costs_mono (length l * 0) 0); [lia | lia |].
  by apply (costs_for_each 0).
Qed.

Lemma costs_getFromStorage {T} (st : store T) key : lens st → costs 0 0 (getFromStorage st key).
Proof.
  intros Hl. apply mute_costs. intros w. unfold getFromStorage.
  destruct (view st w !! key); [| done]. case_bool_decide; [| done]. apply (lens_trace _ Hl).
Qed.

Lemma costs_setInStorage {T} (st : store T) key (d : T) ttl :
  lens st → costs 0 0 (setInStorage st key d ttl).
Proof.
  intros Hl. apply mute_costs. intros w.
  destruct (setInStorage_frame st key d ttl w Hl) as (w' & -> & _ & Ht & _). done.
Qed.

Lemma costs_querySparql query : costs 1 0 (querySparql query).
Proof.
  intros w. exists [EvQuery query]. split.
  - unfold querySparql. by destruct (http query _) as [[|] ?].
  - apply bounded_query.
Qed.

Lemma costs_log_text text : costs 0 0 (log (EvLog text)).
Proof.
  intros w. exists [EvLog text]. split; [done | by apply bounded_other].
Qed.

Lemma costs_report onProgress msg : costs 0 0 (report onProgress msg).
Proof.
  unfold report. destruct onProgress; [| apply costs_ret].
  intros w. exists [EvProgress msg]. split; [done | by apply bounded_other].
Qed.

Lemma costs_field res x : costs 0 0 (field res x).
Proof. apply mute_costs. intros w. by rewrite pure_field. Qed.

(** A lookup of a name sends at most one query. *)
Lemma costs_getWikidataId name : costs 1 0 (getWikidataId name).
Proof.
  unfold getWikidataId.
  apply (costs_bind 0 0 1 0); [apply costs_getFromStorage, lens_qid_store |].
  intros [cached |]; [eapply costs_mono; [| | apply costs_ret]; lia |].
  destruct (Sanitization.sanitizeEntityName name) as [sanitized | |].
  2, 3: eapply costs_mono; [| | apply costs_ret || apply mute_costs]; try lia; done.
  apply (costs_try_catch 1 0 0 0).
  - apply (costs_bind 1 0 0 0); [apply costs_querySparql |]. intros [| first rest].
    + apply (costs_bind 0 0 0 0); [apply costs_setInStorage, lens_qid_store |].
      intros _. apply costs_ret.
    + apply (costs_bind 0 0 0 0); [apply costs_field |]. intros item.
      apply (costs_bind 0 0 0 0); [apply costs_setInStorage, lens_qid_store |].
      intros _. apply costs_ret.
  - intros e. apply (costs_bind 0 0 0 0); [apply costs_log_text |]. intros _. apply costs_ret.
Qed.

(** A batch sends at most one query. *)
Lemma costs_fetchBatchConnections qids : costs 1 0 (fetchBatchConnections qids).
Proof.
  unfold fetchBatchConnections.
  case_bool_decide; [eapply costs_mono; [| | apply costs_ret]; lia |].
  apply (costs_bind 0 0 1 0).
  { apply costs_for_each_0. intros acc qid. unfold lookup_cached.
    apply (costs_bind 0 0 0 0); [apply costs_getFromStorage, lens_conn_store |].
    intros [cached |]; apply costs_ret. }
  intros looked.
  case_bool_decide; [eapply costs_mono; [| | apply costs_ret]; lia |].
  apply (costs_try_catch 1 0 0 0).
  - apply (costs_bind 1 0 0 0); [apply costs_querySparql |]. intros bindings.
    apply (costs_bind 0 0 0 0).
    { apply costs_for_each_0. intros acc res. apply mute_costs. intros w.
      by rewrite pure_read_binding. }
    intros read. apply (costs_bind 0 0 0 0).
    { apply costs_for_each_0. intros acc kv. apply costs_setInStorage, lens_conn_store. }
    intros _. apply costs_ret.
  - intros e. apply (costs_bind 0 0 0 0); [apply costs_log_text |]. intros _. apply costs_ret.
Qed.

Lemma costs_resolve_name onProgress acc name : costs 1 0 (resolve_name onProgress acc name).
Proof.
  unfold resolve_name.
  apply (costs_bind 0 0 1 0); [apply costs_report |]. intros _.
  apply (costs_bind 1 0 0 0); [apply costs_getWikidataId |]. intros [qid |].
  - case_bool_decide.
    + apply (costs_bind 0 0 0 0); [apply costs_log_text |]. intros _. apply costs_ret.
    + destruct (OMap.get qid acc.2); apply costs_ret.
  - apply (costs_bind 0 0 0 0); [apply costs_log_text |]. intros _. apply costs_ret.
Qed.

(** *** The shuffle *)

Lemma insert_Permutation {A} (l : list A) j x y :
  l !! j = Some y → y :: <[j := x]> l ≡ₚ x :: l.
Proof.
  revert j. induction l as [| a l IH]; intros [| j] Hj; simplify_eq/=.
  - apply perm_swap.
  - rewrite perm_swap, (IH j Hj). apply perm_swap.
Qed.

Lemma swap_Permutation (a : list string) i j : swap a i j ≡ₚ a.
Proof.
  unfold swap. destruct (a !! i) as [x |] eqn:Hi; [| done].
  destruct (a !! j) as [y |] eqn:Hj; [| done].
  revert i j Hi Hj. induction a as [| h t IH]; intros [| i] [| j] Hi Hj; simplify_eq/=.
  - done.
  - by apply insert_Permutation.
  - by apply insert_Permutation.
  - by rewrite (IH i j).
Qed.

Lemma shuffle_from_run i :
  ∀ a w, ∃ a' w', shuffle_from i a w = (Ok a', w') ∧ a' ≡ₚ a ∧ trace w' = trace w ∧
                  qidStore w' = qidStore w ∧ connStore w' = connStore w ∧
                  responseCache w' = responseCache w.
Proof.
  induction i as [| i IH]; intros a w; [by exists a, w |].
  cbn [shuffle_from]. unfold bind, draw. destruct (random (env w)) as [r e].
  destruct (IH (swap a (S i) (r mod (S i + 1))) (with_env (λ _, e) w))
    as (a' & w' & -> & Hperm & Htrace & Hq & Hc & Hr).
  exists a', w'. split_and!; [done | | done..]. by rewrite Hperm, swap_Permutation.
Qed.

(** X17. [shuffleArray] returns a rearrangement of its argument, whatever
    the random source gives: no element is lost, added or repeated.  It
    draws random numbers and changes nothing else. *)
Theorem shuffleArray_permutation (arr : list string) (w : World) :
  ∃ a w', shuffleArray arr w = (Ok a, w') ∧ a ≡ₚ arr ∧
          trace w' = trace w ∧ qidStore w' = qidStore w ∧ connStore w' = connStore w ∧
          responseCache w' = responseCache w.
Proof. apply shuffle_from_run. Qed.

(** *** One layer is one batch *)

Lemma depth_config_bounds depth :
  0 < max_nodes_per_layer (getDepthConfig depth) ∧
  max_nodes_per_layer (getDepthConfig depth) ≤ batch_size (getDepthConfig depth) ∧
  batch_size (getDepthConfig depth) ≤ 50.
Proof.
  unfold getDepthConfig, DEPTH_CONFIG.
  do 11 (destruct depth as [| depth]; [simpl; lia |]). simpl. lia.
Qed.

Lemma fetch_batches_done fuel i toProcess batchSize acc :
  length toProcess ≤ i → fetch_batches fuel i toProcess batchSize acc = ret acc.
Proof. intros Hi. destruct fuel; cbn; by rewrite bool_decide_eq_false_2 by lia. Qed.

(** A layer that fits in one batch is fetched by one call, and the loop
    does not pause. *)
Lemma fetch_batches_single toProcess batchSize acc w :
  0 < length toProcess → length toProcess ≤ batchSize →
  ∃ conns w1 evs,
    fetchBatchConnections toProcess w = (Ok conns, w1) ∧
    trace w1 = trace w ++ evs ∧ bounded 1 0 evs ∧
    fetch_batches (length toProcess) 0 toProcess batchSize acc w =
      (Ok (acc ++ conns), emit (EvFetched toProcess conns) w1).
Proof.
  intros Hpos Hfit.
  destruct (returns_fetchBatchConnections toProcess w) as (conns & w1 & Hfetch).
  destruct (costs_fetchBatchConnections toProcess w) as (evs & Htrace & Hb).
  rewrite Hfetch in Htrace. exists conns, w1, evs. split_and!; [done.. |].
  destruct (length toProcess) as [| n] eqn:Hlen; [lia |].
  cbn [fetch_batches]. rewrite bool_decide_eq_true_2 by lia.
  rewrite drop_0, take_ge by lia.
  unfold bind at 1. rewrite Hfetch. unfold bind at 1, log at 1, modify at 1.
  rewrite bool_decide_eq_false_2 by lia. unfold bind at 1, ret at 1.
  by rewrite fetch_batches_done by lia.
Qed.

(** The choice of the ids of a layer. *)
Lemma select_run (maxNodes : nat) (candidates : list string) w :
  ∃ toProcess w1,
    (if bool_decide (maxNodes < length candidates)
     then let* shuffled := shuffleArray candidates in ret (take maxNodes shuffled)
     else ret candidates) w = (Ok toProcess, w1) ∧
    trace w1 = trace w ∧ length toProcess ≤ maxNodes ∧
    (∀ x, x ∈ toProcess → x ∈ candidates) ∧ (NoDup candidates → NoDup toProcess).
Proof.
  case_bool_decide as Hmany.
  - unfold bind. destruct (shuffle_from_run (length candidates - 1) candidates w)
      as (a & w1 & Hrun & Hperm & Htrace & _).
    unfold shuffleArray. rewrite Hrun. exists (take maxNodes a), w1.
    split_and!; [done | done | | |].
    + rewrite length_take. lia.
    + intros x Hx. rewrite <- Hperm. eapply elem_of_sublist; [done | apply sublist_take].
    + intros Hnd. rewrite <- Hperm in Hnd.
      eapply sublist_NoDup; [done | apply sublist_take].
  - exists candidates, w. split_and!; [done | done | lia | done | done].
Qed.

Lemma report_run onProgress msg w :
  ∃ w1 evs, report onProgress msg w = (Ok tt, w1) ∧ trace w1 = trace w ++ evs ∧
            bounded 0 0 evs.
Proof.
  destruct (returns_report onProgress msg w) as ([] & w1 & Hrun).
  destruct (costs_report onProgress msg w) as (evs & Htrace & Hb).
  rewrite Hrun in Htrace. by exists w1, evs.
Qed.

(** *** The ids of the next layer *)

Abbreviation keys g := (nodes g).*1.

Lemma keys_set {V} k (v : V) m : OMap.get k m = None → (OMap.set k v m).*1 = m.*1 ++ [k].
Proof. intros Hget. unfold OMap.set. rewrite Hget. by rewrite fmap_app. Qed.

Lemma has_false {V} k (m : list (string * V)) : OMap.has k m = false ↔ k ∉ m.*1.
Proof.
  split.
  - intros Hf Hin%has_true. congruence.
  - intros Hout. destruct (OMap.has k m) eqn:Hh; [| done]. by apply has_true in Hh.
Qed.

(** The ids of the next layer are new: they are the ids whose nodes the
    connections of this layer have added. *)
Record next_ok (known : list string) (acc : graph * list string) : Prop := {
  next_known : ∀ x, x ∈ known → x ∈ keys acc.1;
  next_NoDup : NoDup acc.2;
  next_new : ∀ x, x ∈ acc.2 → x ∈ keys acc.1 ∧ x ∉ known
}.

Lemma process_connection_next known acc c :
  next_ok known acc → next_ok known (process_connection acc c).
Proof.
  intros [Hknown Hnd Hnew]. unfold process_connection.
  set (tgt := conn_target c).
  destruct (OMap.has tgt (nodes acc.1)) eqn:Hhas.
  - case_decide; by split.
  - apply has_false in Hhas. assert (OMap.get tgt (nodes acc.1) = None) as Hget
      by by apply get_None.
    assert (∀ n, (OMap.set tgt n (nodes acc.1)).*1 = keys acc.1 ++ [tgt]) as Hkeys
      by (intros n; by apply keys_set).
    case_decide; split; cbn [fst snd nodes]; rewrite ?Hkeys.
    all: try (intros x Hx; apply elem_of_app; left; by apply Hknown).
    all: try (apply NoDup_app; split_and!; [done | | apply NoDup_singleton];
              intros x Hx ->%list_elem_of_singleton; by apply Hhas, Hnew).
    all: intros x [Hx | ->%list_elem_of_singleton]%elem_of_app;
      [destruct (Hnew x Hx); split; [apply elem_of_app; by left | done] |].
    all: split; [apply elem_of_app; right; by apply list_elem_of_singleton |].
    all: intros Hk; by apply Hhas, Hknown.
Qed.

Lemma process_connections_next known conns :
  ∀ acc, next_ok known acc → next_ok known (foldl process_connection acc conns).
Proof.
  induction conns as [| c conns IH]; intros acc Hacc; [done |].
  cbn [foldl]. by apply IH, process_connection_next.
Qed.

(** *** The layers

    Every layer is fetched in one batch; the loop returns a graph in
    every state.  An invariant [P] of the graph that the handling of a
    connection keeps holds of the result. *)
Lemma build_layers_run (P : graph → Prop) onProgress depth :
  (∀ acc c, P acc.1 → P (process_connection acc c).1) →
  (∀ g ps, P g → P (mkGraph (nodes g) (edges g) ps (edgeIds g))) →
  ∀ remaining currentDepth layer g w, P g →
  ∃ g' w' evs,
    build_layers onProgress remaining currentDepth depth layer g w = (Ok g', w') ∧
    trace w' = trace w ++ evs ∧ bounded remaining remaining evs ∧ P g' ∧
    (NoDup layer → (∀ x, x ∈ layer → x ∈ keys g) →
       NoDup (concat (batches evs)) ∧
       ∀ x, x ∈ concat (batches evs) → x ∈ layer ∨ x ∉ keys g).
Proof.
  intros Hconn Hproc.
  assert (∀ n layer g w, P g →
    ∃ g' w' evs, ret g w = (Ok g', w') ∧ trace w' = trace w ++ evs ∧ bounded n n evs ∧ P g' ∧
      (NoDup layer → (∀ x, x ∈ layer → x ∈ keys g) →
         NoDup (concat (batches evs)) ∧
         ∀ x, x ∈ concat (batches evs) → x ∈ layer ∨ x ∉ keys g)) as Hstop.
  { intros n layer g w HP. exists g, w, []. rewrite app_nil_r.
    split_and!; [done | done | apply bounded_nil | done |].
    intros _ _. cbn. split; [constructor | by intros x ?%elem_of_nil]. }
  induction remaining as [| remaining IH]; intros currentDepth layer g w HP;
    cbn [build_layers]; [by apply Hstop |].
  case_bool_decide; [by apply Hstop |].
  destruct (depth_config_bounds (currentDepth + 1)) as (Hmax & Hbatch & Hfifty).
  set (config := getDepthConfig (currentDepth + 1)) in *.
  set (candidates := filter (λ id, id ∉ processedIds g) layer).
  unfold bind at 1.
  destruct (select_run (max_nodes_per_layer config) candidates w)
    as (toProcess & w1 & -> & Ht1 & Hlen & Hsub & Hnd1).
  case_bool_decide as Hempty.
  { destruct (Hstop (S remaining) layer g w1 HP) as (g' & w' & evs & ? & Ht & ?).
    exists g', w', evs. rewrite <- Ht1. done. }
  assert (0 < length toProcess) as Hpos by (destruct toProcess; cbn in *; [done | lia]).
  unfold bind at 1.
  destruct (report_run onProgress
              (ProcessingDepth (currentDepth + 1) depth (length toProcess)) w1)
    as (w2 & evr & -> & Ht2 & Hbr).
  unfold bind at 1.
  destruct (fetch_batches_single toProcess (batch_size config) [] w2 Hpos ltac:(lia))
    as (conns & w3 & evf & _ & Ht3 & Hbf & ->).
  cbn [app].
  set (processed := foldl process_connection (g, []) conns).
  set (g1 := mkGraph (nodes processed.1) (edges processed.1)
                     (list_to_set toProcess ∪ processedIds processed.1)
                     (edgeIds processed.1)).
  assert (P g1) as HP1.
  { apply Hproc. unfold processed. clear -Hconn HP.
    assert (∀ acc, P acc.1 → P (foldl process_connection acc conns).1) as Hfold.
    { induction conns as [| c conns IHc]; intros acc Hacc; [done |].
      cbn [foldl]. by apply IHc, Hconn. }
    by apply Hfold. }
  destruct (IH (currentDepth + 1) processed.2 g1 (emit (EvFetched toProcess conns) w3) HP1)
    as (g' & w' & evs & -> & Ht & Hb & HP' & Hrest).
  exists g', w', (evr ++ evf ++ [EvFetched toProcess conns] ++ evs).
  split; [done |]. split.
  { rewrite Ht. cbn [trace emit]. rewrite Ht3, Ht2, Ht1. by rewrite <- !app_assoc. }
  assert (batches evr = [] ∧ batches evf = []) as [Hbr0 Hbf0].
  { destruct Hbr as (_ & Hl1 & _), Hbf as (_ & Hl2 & _).
    split; apply nil_length_inv; lia. }
  assert (batches (evr ++ evf ++ [EvFetched toProcess conns] ++ evs) = toProcess :: batches evs)
    as Hbatches.
  { rewrite !batches_app, Hbr0, Hbf0. done. }
  split.
  { unfold bounded. rewrite Hbatches, !queries_app.
    destruct Hbr as (Hq1 & _ & _), Hbf as (Hq2 & _ & _), Hb as (Hq3 & Hl3 & Hall3).
    split_and!.
    - change (queries [EvFetched toProcess conns]) with 0. lia.
    - cbn [length]. lia.
    - constructor; [lia | done]. }
  split; [done |].
  intros Hnd Hin. rewrite Hbatches. cbn [concat].
  assert (next_ok (keys g) processed) as [Hknown Hnext Hnew].
  { apply process_connections_next. split; [done | constructor | by intros x ?%elem_of_nil]. }
  destruct Hrest as [Hnd' Hwhere]; [done | by intros x [? _]%Hnew |].
  assert (∀ x, x ∈ toProcess → x ∈ layer) as Hlayer.
  { intros x Hx%Hsub. by apply list_elem_of_filter in Hx as [_ ?]. }
  assert (∀ x, x ∈ concat (batches evs) → x ∉ keys g) as Hfresh.
  { intros x [Hx | Hx]%Hwhere; [by apply Hnew in Hx as [_ ?] |].
    intros Hk. by apply Hx, Hknown. }
  split.
  - apply NoDup_app. split_and!; [| | done].
    + apply Hnd1. by apply NoDup_filter.
    + intros x Hx Hx'. by apply (Hfresh x Hx'), Hin, Hlayer.
  - intros x [Hx | Hx]%elem_of_app; [left; by apply Hlayer | right; by apply Hfresh].
Qed.

(** *** The whole run *)

Lemma validated_length x names :
  validated x = Ok names → length names ≤ length (default [] x) ∧ length names ≤ 10.
Proof.
  destruct x as [l |]; cbn; [| intros [= <-]; cbn; lia].
  unfold Sanitization.validateEntityList. repeat case_bool_decide; try done.
  intros [= <-].
  destruct (SanitizationSpec.unique_trimmed_spec l ∅ []) as (more & -> & _ & Hsub & _);
    [set_solver | constructor |].
  apply sublist_length in Hsub. rewrite length_fmap in Hsub. cbn. lia.
Qed.

Lemma validateDepth_Ok d depth :
  Sanitization.validateDepth d = Ok depth → depth = Z.to_nat d ∧ 1 ≤ depth ≤ 10.
Proof.
  unfold Sanitization.validateDepth. repeat case_bool_decide; try done.
  intros [= <-]. lia.
Qed.

Lemma sanitize_all_length rawQids qids :
  sanitize_all rawQids = Ok qids → length qids = length rawQids.
Proof.
  revert qids. induction rawQids as [| q rest IH]; intros qids; cbn; [by intros [= <-] |].
  destruct (Sanitization.sanitizeQid q); [| done..].
  destruct (sanitize_all rest); [| done..]. intros [= <-]. cbn. by rewrite (IH _ eq_refl).
Qed.

Lemma seed_qids_layer qids : ∀ acc, (foldl seed_qid acc qids).1 = acc.1 ++ qids.
Proof.
  induction qids as [| q qids IH]; intros acc; cbn; [by rewrite app_nil_r |].
  rewrite IH. cbn. by rewrite <- app_assoc.
Qed.

Lemma resolve_names_run onProgress names :
  ∀ acc w, ∃ resolved w1 evs,
    for_each (resolve_name onProgress) names acc w = (Ok resolved, w1) ∧
    trace w1 = trace w ++ evs ∧ bounded (length names) 0 evs.
Proof.
  intros acc w.
  destruct (returns_for_each (resolve_name onProgress) names
              (returns_resolve_name onProgress) acc w) as (resolved & w1 & Hrun).
  destruct (costs_for_each 1 (resolve_name onProgress) names
              (costs_resolve_name onProgress) acc w) as (evs & Ht & Hb).
  rewrite Hrun in Ht. exists resolved, w1, evs. split_and!; [done | done |].
  eapply bounded_mono; [| | done]; lia.
Qed.

(** The course of [generateGraph]: it fails on its input before it does
    anything, or resolves the names and then either finds no seed or
    builds the layers and returns. *)
Lemma generateGraph_run (P : graph → Prop) request onProgress w :
  (∀ acc c, P acc.1 → P (process_connection acc c).1) →
  (∀ g ps, P g → P (mkGraph (nodes g) (edges g) ps (edgeIds g))) →
  (∀ names rawQids qids resolved w1,
     validated (req_names request) = Ok names →
     validated (req_qids request) = Ok rawQids →
     sanitize_all rawQids = Ok qids →
     for_each (resolve_name onProgress) names (foldl seed_qid ([], []) qids) w
       = (Ok resolved, w1) →
     P (mkGraph resolved.2 [] ∅ ∅)) →
  (∃ msg, generateGraph request onProgress w = (Throw msg, w)) ∨
  ∃ names rawQids depth qids resolved w1 evs1,
    validated (req_names request) = Ok names ∧
    validated (req_qids request) = Ok rawQids ∧
    Sanitization.validateDepth (req_depth request) = Ok depth ∧
    (names ≠ [] ∨ rawQids ≠ []) ∧
    sanitize_all rawQids = Ok qids ∧
    for_each (resolve_name onProgress) names (foldl seed_qid ([], []) qids) w
      = (Ok resolved, w1) ∧
    trace w1 = trace w ++ evs1 ∧ bounded (length names) 0 evs1 ∧
    ((resolved.1 = [] ∧
      generateGraph request onProgress w = (Throw "Could not resolve any entities", w1)) ∨
     ∃ g w2 evs2,
       generateGraph request onProgress w
         = (Ok (mkResponse (OMap.values (nodes g)) (edges g)), w2) ∧
       trace w2 = trace w1 ++ evs2 ∧ bounded depth depth evs2 ∧ P g ∧
       (NoDup resolved.1 → (∀ x, x ∈ resolved.1 → x ∈ resolved.2.*1) →
          NoDup (concat (batches evs2)))).
Proof.
  intros Hconn Hproc Hinit.
  set (result := generateGraph request onProgress w).
  assert (generateGraph request onProgress w = result) as Hrun by done. clearbody result.
  unfold generateGraph in Hrun.
  destruct (validated (req_names request)) as [names | e |] eqn:Hn;
    [| left; exists e; by rewrite <- Hrun | by destruct (validated_halts (req_names request))].
  destruct (validated (req_qids request)) as [rawQids | e |] eqn:Hq;
    [| left; exists e; by rewrite <- Hrun | by destruct (validated_halts (req_qids request))].
  destruct (Sanitization.validateDepth (req_depth request)) as [depth | e |] eqn:Hd;
    [| left; exists e; by rewrite <- Hrun |].
  2: { unfold Sanitization.validateDepth in Hd. by repeat case_bool_decide. }
  unfold bind at 1 2 3, lift at 1 2 3 in Hrun.
  destruct (bool_decide (length names = 0) && bool_decide (length rawQids = 0)) eqn:Hboth;
    [left; eexists; by rewrite <- Hrun |].
  assert (names ≠ [] ∨ rawQids ≠ []) as Hsome.
  { apply andb_false_iff in Hboth as [H0%bool_decide_eq_false | H0%bool_decide_eq_false];
      [left | right]; intros ->; by apply H0. }
  unfold bind at 1, lift at 1 in Hrun.
  destruct (sanitize_all rawQids) as [qids | e |] eqn:Hs;
    [| left; exists e; by rewrite <- Hrun | by destruct (sanitize_all_halts rawQids)].
  unfold bind at 1 in Hrun.
  destruct (resolve_names_run onProgress names (foldl seed_qid ([], []) qids) w)
    as (resolved & w1 & evs1 & Hres & Ht1 & Hb1).
  rewrite Hres in Hrun. right. exists names, rawQids, depth, qids, resolved, w1, evs1.
  split_and!; [done.. |].
  case_bool_decide as Hnone.
  { left. split; [by apply nil_length_inv | by rewrite <- Hrun]. }
  right. unfold bind at 1 in Hrun.
  destruct (build_layers_run P onProgress depth Hconn Hproc depth 0 resolved.1
              (mkGraph resolved.2 [] ∅ ∅) w1
              ltac:(by apply (Hinit names rawQids qids resolved w1)))
    as (g & w2 & evs2 & Hbuild & Ht2 & Hb2 & HP & Hnd).
  rewrite Hbuild in Hrun. unfold bind at 1 in Hrun.
  destruct (report_run onProgress (Done (length (nodes g)) (length (edges g))) w2)
    as (w3 & evs3 & Hrep & Ht3 & Hb3).
  rewrite Hrep in Hrun. unfold ret in Hrun.
  exists g, w3, (evs2 ++ evs3). split_and!; [by rewrite <- Hrun | | | done |].
  - by rewrite Ht3, Ht2, app_assoc.
  - eapply bounded_mono; [| | by apply bounded_app]; lia.
  - intros Hnd1 Hin. destruct (Hnd Hnd1 Hin) as [Hnd2 _].
    rewrite batches_app. destruct Hb3 as (_ & Hl3 & _).
    assert (batches evs3 = []) as -> by (apply nil_length_inv; lia). by rewrite app_nil_r.
Qed.

(** X18. A call of [generateGraph] sends at most one query for every name
    of the request and one for every layer, so at most 20; it fetches at
    most one batch for every layer, and every batch has 1 to 50 ids. *)
Theorem generateGraph_queries (request : GenerateMapRequest) (onProgress : bool) (w : World) :
  ∃ evs, trace (generateGraph request onProgress w).2 = trace w ++ evs ∧
    queries evs ≤ length (default [] (req_names request)) + Z.to_nat (req_depth request) ∧
    queries evs ≤ 20 ∧
    length (batches evs) ≤ Z.to_nat (req_depth request) ∧
    Forall (λ batch, 0 < length batch ≤ 50) (batches evs).
Proof.
  destruct (generateGraph_run (λ _, True) request onProgress w)
    as [[msg ->] | (names & rawQids & depth & qids & resolved & w1 & evs1 & Hn & Hq & Hd & _ &
                    Hs & Hres & Ht1 & (Hq1 & Hl1 & Hall1) & Hrest)]; [done.. | |].
  { exists []. rewrite app_nil_r. cbn. split_and!; [done | lia | lia | lia | constructor]. }
  apply validated_length in Hn as [Hn1 Hn2]. apply validateDepth_Ok in Hd as [-> Hd].
  destruct Hrest as [[_ ->] | (g & w2 & evs2 & -> & Ht2 & (Hq2 & Hl2 & Hall2) & _)].
  - exists evs1. split_and!; [done | lia | lia | lia | done].
  - exists (evs1 ++ evs2). cbn [snd]. rewrite Ht2, Ht1, <- app_assoc.
    rewrite queries_app, batches_app, length_app, Forall_app.
    split_and!; [done | lia | lia | lia | done | done].
Qed.

(** X19. [generateGraph] ends in every state: with a graph, or with an
    exception.  The exception is raised either on the input, before
    anything is sent or stored, or after the names have been looked up
    and none of them has given a seed (and no id was given). *)
Theorem generateGraph_outcomes (request : GenerateMapRequest) (onProgress : bool) (w : World) :
  (∃ resp w', generateGraph request onProgress w = (Ok resp, w')) ∨
  (∃ msg, generateGraph request onProgress w = (Throw msg, w)) ∨
  (∃ w', generateGraph request onProgress w = (Throw "Could not resolve any entities", w') ∧
         is_Some (req_names request) ∧ default [] (req_qids request) = []).
Proof.
  destruct (generateGraph_run (λ _, True) request onProgress w)
    as [Hthrow | (names & rawQids & depth & qids & resolved & w1 & evs1 & Hn & Hq & Hd & Hsome &
                  Hs & Hres & _ & _ & Hrest)]; [done.. | by right; left |].
  destruct Hrest as [[Hempty Hrun] | (g & w2 & evs2 & Hrun & _)]; [| left; by eexists _, _].
  right; right. exists w1. split; [done |].
  assert (qids = []) as ->.
  { assert (∀ acc name w0 acc' w0', (∃ l, acc.1 = qids ++ l) →
              resolve_name onProgress acc name w0 = (Ok acc', w0') → ∃ l, acc'.1 = qids ++ l)
      as Hkeep.
    { intros acc name w0 acc' w0' [l Hl]. unfold resolve_name.
      intros ([] & w1' & _ & (qid & w2' & _ & Hrest)%bind_Ok)%bind_Ok.
      destruct qid as [qid |].
      - case_bool_decide.
        + apply bind_Ok in Hrest as ([] & w3 & _ & [= <- _]). eauto.
        + destruct (OMap.get qid acc.2); injection Hrest as <- _; cbn; [eauto |].
          exists (l ++ [qid]). by rewrite Hl, app_assoc.
      - apply bind_Ok in Hrest as ([] & w3 & _ & [= <- _]). eauto. }
    destruct (for_each_inv (λ acc, ∃ l, acc.1 = qids ++ l) (resolve_name onProgress) names
                Hkeep (foldl seed_qid ([], []) qids) w resolved w1) as [l Hl]; [| done |].
    - exists []. by rewrite seed_qids_layer, app_nil_r.
    - rewrite Hempty in Hl. symmetry in Hl. by apply app_eq_nil in Hl as [? _]. }
  apply sanitize_all_length in Hs. destruct rawQids; [| done].
  destruct Hsome as [Hnames | ?]; [| done].
  destruct (req_names request) as [l |]; [| by simplify_eq/=].
  split; [by eexists |].
  destruct (req_qids request) as [l' |]; [exfalso | done]. cbn in Hq.
  unfold Sanitization.validateEntityList in Hq. repeat case_bool_decide; try done.
  injection Hq as Hq. by rewrite Hq in *.
Qed.

(** *** Seeds, nodes and edges *)

Lemma keys_set_elem {V} k (v : V) m x : x ∈ (OMap.set k v m).*1 ↔ x = k ∨ x ∈ m.*1.
Proof.
  unfold OMap.set. destruct (OMap.get k m) as [v' |] eqn:Hget.
  - rewrite replace_keys. split; [by right |]. intros [-> | ?]; [| done].
    apply get_Some_elem in Hget. by apply (list_elem_of_fmap_2 fst _ (k, v')).
  - rewrite fmap_app, elem_of_app. cbn. rewrite list_elem_of_singleton. tauto.
Qed.

(** A node that carries its key as id and has an image. *)
Definition node_ok (k : string) (n : GraphNode) : Prop :=
  node_id n = k ∧ ∃ url, node_image n = Some url ∧ url ≠ "".

(** The seed [q] has a node, flagged as initial entity. *)
Definition seed_in (m : list (string * GraphNode)) (q : string) : Prop :=
  ∃ n, OMap.get q m = Some n ∧ node_isInitialEntity n = Some true.

Record seeded (S : list string) (acc : list string * list (string * GraphNode)) : Prop := {
  sd_seeds : ∀ q, q ∈ S → seed_in acc.2 q;
  sd_nodes : ∀ k n, (k, n) ∈ acc.2 → node_ok k n;
  sd_layer : ∀ x, x ∈ acc.1 → x ∈ acc.2.*1
}.

Lemma placeholder_not_empty : PLACEHOLDER_IMG ≠ "".
Proof. done. Qed.

Lemma seed_qids_seeded qids : seeded qids (foldl seed_qid ([], []) qids).
Proof.
  induction qids as [| q qids IH] using rev_ind.
  { split; cbn; [by intros ? ?%elem_of_nil | by intros ? ? ?%elem_of_nil |
                  by intros ? ?%elem_of_nil]. }
  rewrite foldl_snoc. destruct IH as [Hseeds Hnodes Hlayer].
  set (acc := foldl seed_qid ([], []) qids) in *. unfold seed_qid. split; cbn [fst snd].
  - intros q' Hq'. unfold seed_in. rewrite get_set.
    destruct (decide (q' = q)) as [-> | Hne]; [by eexists |].
    apply Hseeds. apply elem_of_app in Hq' as [? | ?%list_elem_of_singleton]; done.
  - intros k n [[= -> ->] | Hin]%elem_of_set; [| by apply Hnodes].
    split; [done |]. by eexists.
  - intros x Hx. apply keys_set_elem.
    apply elem_of_app in Hx as [? | ?%list_elem_of_singleton]; [right; by apply Hlayer | by left].
Qed.

Lemma resolve_name_seeded S onProgress acc name w acc' w' :
  seeded S acc → resolve_name onProgress acc name w = (Ok acc', w') →
  seeded S acc' ∧ (NoDup acc.1 → NoDup acc'.1).
Proof.
  intros [Hseeds Hnodes Hlayer]. unfold resolve_name.
  intros ([] & w1 & _ & (qid & w2 & _ & Hrest)%bind_Ok)%bind_Ok.
  destruct qid as [qid |].
  2: { apply bind_Ok in Hrest as ([] & w3 & _ & [= <- _]). by split. }
  case_bool_decide.
  { apply bind_Ok in Hrest as ([] & w3 & _ & [= <- _]). by split. }
  destruct (OMap.get qid acc.2) as [node |] eqn:Hget; injection Hrest as <- _; cbn [fst snd].
  - split; [| done]. split; cbn [fst snd].
    + intros q Hq. destruct (Hseeds q Hq) as (n & Hn & Hflag). unfold seed_in.
      rewrite get_replace by eauto.
      destruct (decide (q = qid)) as [-> | Hne]; [| by eexists].
      eexists. split; [done |]. cbn. congruence.
    + intros k n [[= -> ->] | Hin]%elem_of_replace; [| by apply Hnodes].
      apply get_Some_elem, Hnodes in Hget. exact Hget.
    + intros x Hx. rewrite replace_keys. by apply Hlayer.
  - split.
    + split; cbn [fst snd].
      * intros q Hq. destruct (Hseeds q Hq) as (n & Hn & Hflag). unfold seed_in.
        rewrite get_set. destruct (decide (q = qid)) as [-> | Hne]; [congruence | by eexists].
      * intros k n [[= -> ->] | Hin]%elem_of_set; [| by apply Hnodes].
        split; [done |]. by eexists.
      * intros x Hx. apply keys_set_elem.
        apply elem_of_app in Hx as [? | ?%list_elem_of_singleton];
          [right; by apply Hlayer | by left].
    + intros Hnd. apply NoDup_app. split_and!; [done | | apply NoDup_singleton].
      intros x Hx ->%list_elem_of_singleton. apply Hlayer in Hx.
      by apply get_None in Hget.
Qed.

Lemma resolve_names_seeded S onProgress names acc w acc' w' :
  seeded S acc → for_each (resolve_name onProgress) names acc w = (Ok acc', w') →
  seeded S acc' ∧ (NoDup acc.1 → NoDup acc'.1).
Proof.
  intros Hacc Hrun.
  apply (for_each_inv (λ a, seeded S a ∧ (NoDup acc.1 → NoDup a.1))
           (resolve_name onProgress) names) with (acc := acc) (w := w) (w' := w');
    [| done | done].
  intros a x w0 a' w0' [Ha Hnd] Hstep.
  destruct (resolve_name_seeded S onProgress a x w0 a' w0' Ha Hstep) as [Ha' Hnd']. auto.
Qed.

(** X20. When the ids of the request are pairwise distinct after
    sanitization, no id is fetched twice during a [generateGraph] run:
    the batches handed to [fetchBatchConnections], over all layers, have
    no id in common and none twice. *)
Theorem generateGraph_fetches_once (request : GenerateMapRequest) (onProgress : bool)
    (w : World) :
  (∀ rawQids qids,
     validated (req_qids request) = Ok rawQids → sanitize_all rawQids = Ok qids → NoDup qids) →
  ∃ evs, trace (generateGraph request onProgress w).2 = trace w ++ evs ∧
         NoDup (concat (batches evs)).
Proof.
  intros Hdistinct.
  destruct (generateGraph_run (λ _, True) request onProgress w)
    as [[msg ->] | (names & rawQids & depth & qids & resolved & w1 & evs1 & Hn & Hq & Hd & _ &
                    Hs & Hres & Ht1 & (_ & Hl1 & _) & Hrest)]; [done.. | |].
  { exists []. rewrite app_nil_r. split; [done | constructor]. }
  assert (batches evs1 = []) as Hb1 by (apply nil_length_inv; lia).
  destruct Hrest as [[_ ->] | (g & w2 & evs2 & -> & Ht2 & _ & _ & Hnd)].
  - exists evs1. split; [done |]. rewrite Hb1. constructor.
  - exists (evs1 ++ evs2). cbn [snd]. rewrite Ht2, Ht1, <- app_assoc. split; [done |].
    rewrite batches_app, Hb1. cbn [app].
    destruct (resolve_names_seeded qids onProgress names _ w resolved w1
                (seed_qids_seeded qids) Hres) as [[_ _ Hlayer] Hnd1].
    apply Hnd; [| done]. apply Hnd1. rewrite seed_qids_layer. cbn. by eapply Hdistinct.
Qed.

(** The edges and nodes of the graph under construction. *)
Record shaped (S : list string) (g : graph) : Prop := {
  sh_seeds : ∀ q, q ∈ S → seed_in (nodes g) q;
  sh_nodes : ∀ k n, (k, n) ∈ nodes g → node_ok k n;
  sh_edges : ∀ e, e ∈ edges g →
    edge_arrows e = "to" ∧ edge_hidden e = None ∧
    edge_category e = Some (EdgeCategories.categorizeEdge (edge_label e)) ∧
    edge_to e ∈ keys g
}.

Lemma process_connection_shaped S acc c :
  shaped S acc.1 → shaped S (process_connection acc c).1.
Proof.
  intros [Hseeds Hnodes Hedges]. unfold process_connection.
  set (tgt := conn_target c).
  set (added := if OMap.has tgt (nodes acc.1) then _ else _).
  assert ((∀ q, q ∈ S → seed_in added.1 q) ∧ (∀ k n, (k, n) ∈ added.1 → node_ok k n) ∧
          (∀ x, x ∈ keys acc.1 → x ∈ added.1.*1) ∧ tgt ∈ added.1.*1) as (Hs & Hn & Hk & Ht).
  { unfold added. destruct (OMap.has tgt (nodes acc.1)) eqn:Hhas; cbn [fst].
    { split_and!; [done | done | done | by apply has_true]. }
    apply has_false, get_None in Hhas. split_and!.
    - intros q Hq. destruct (Hseeds q Hq) as (n & Hget & Hflag). unfold seed_in.
      rewrite get_set. destruct (decide (q = tgt)) as [-> | Hne]; [congruence | by eexists].
    - intros k n [[= -> ->] | Hin]%elem_of_set; [| by apply Hnodes].
      split; [done |]. cbn. eexists. split; [done |].
      destruct (conn_image c) as [v |]; [| apply placeholder_not_empty].
      case_bool_decide; [apply placeholder_not_empty | done].
    - intros x Hx. apply keys_set_elem. by right.
    - apply keys_set_elem. by left. }
  case_decide; split; cbn [fst nodes edges]; try done.
  - intros e He. destruct (Hedges e He) as (? & ? & ? & ?). split_and!; [done.. |]. by apply Hk.
  - intros e [He | ->%list_elem_of_singleton]%elem_of_app.
    + destruct (Hedges e He) as (? & ? & ? & ?). split_and!; [done.. |]. by apply Hk.
    + split_and!; done.
Qed.

(** The ids of the request, sanitized. *)
Definition seeds_of (request : GenerateMapRequest) : list string :=
  match validated (req_qids request) with
  | Ok rawQids => match sanitize_all rawQids with Ok qids => qids | _ => [] end
  | _ => []
  end.

(** X21. In the graph that [generateGraph] returns, every edge points to a
    node of the graph, has the direction mark ["to"] and the category of
    its label; every node has a non-empty image address (the placeholder
    when the answer gave none); and every id of the request is the id of
    a node flagged as initial entity. *)
Theorem generateGraph_well_formed (request : GenerateMapRequest) (onProgress : bool)
    (w : World) (resp : GenerateMapResponse) (w' : World) :
  generateGraph request onProgress w = (Ok resp, w') →
  (∀ e, e ∈ resp_edges resp →
     edge_arrows e = "to" ∧ edge_hidden e = None ∧
     edge_category e = Some (EdgeCategories.categorizeEdge (edge_label e)) ∧
     ∃ n, n ∈ resp_nodes resp ∧ node_id n = edge_to e) ∧
  (∀ n, n ∈ resp_nodes resp → ∃ url, node_image n = Some url ∧ url ≠ "") ∧
  (∀ q, q ∈ seeds_of request →
     ∃ n, n ∈ resp_nodes resp ∧ node_id n = q ∧ node_isInitialEntity n = Some true).
Proof.
  intros Hrun.
  destruct (generateGraph_run (shaped (seeds_of request)) request onProgress w)
    as [[msg Hthrow] | (names & rawQids & depth & qids & resolved & w1 & evs1 & Hn & Hq & Hd & _ &
                        Hs & Hres & _ & _ & Hrest)].
  - intros acc c. apply process_connection_shaped.
  - intros g ps [? ? ?]. by split.
  - intros names rawQids qids resolved w1 Hn Hq Hs Hres.
    destruct (resolve_names_seeded qids onProgress names _ w resolved w1
                (seed_qids_seeded qids) Hres) as [[Hseeds Hnodes _] _].
    unfold seeds_of. rewrite Hq, Hs. split; cbn [nodes edges]; [done | done |].
    by intros e ?%elem_of_nil.
  - congruence.
  - destruct Hrest as [[_ Hthrow] | (g & w2 & evs2 & Hok & _ & _ & [Hseeds Hnodes Hedges] & _)];
      [congruence |].
    rewrite Hok in Hrun. injection Hrun as <- _. cbn [resp_nodes resp_edges].
    assert (∀ k, k ∈ keys g → ∃ n, n ∈ OMap.values (nodes g) ∧ node_id n = k) as Hkey.
    { intros k ((k' & n) & -> & Hin)%list_elem_of_fmap. exists n. split.
      - by apply (list_elem_of_fmap_2 snd _ (k', n)).
      - by apply Hnodes in Hin as [? _]. }
    split_and!.
    + intros e He. destruct (Hedges e He) as (? & ? & ? & Hto). split_and!; [done.. |].
      by apply Hkey.
    + intros n ((k & n') & -> & Hin)%list_elem_of_fmap. by apply Hnodes in Hin as [_ ?].
    + intros q Hq'. destruct (Hseeds q Hq') as (n & Hget & Hflag).
      apply get_Some_elem in Hget. exists n. split_and!; [| | done].
      * by apply (list_elem_of_fmap_2 snd _ (q, n)).
      * by apply Hnodes in Hget as [? _].
Qed.

End crawl.

(** Two seeds and three layers: the first layer fetches the two seeds,
    whose connections lead to [Q1] and back to the seed [Q5]; the second
    layer fetches [Q1] only, and finds nothing new. *)
Definition two_seeds : GenerateMapRequest := mkRequest None (Some ["Q42"; "Q5"]) 3.

Lemma generateGraph_fetches_once_witness :
  ∃ evs, trace (run two_seeds).2 = trace empty_world ++ evs ∧
         NoDup (concat (batches evs)).
Proof.
  apply (@generateGraph_fetches_once sample_env two_seeds false empty_world).
  intros rawQids qids Hraw Hqids.
  vm_compute in Hraw. injection Hraw as <-.
  vm_compute in Hqids. injection Hqids as <-.
  apply NoDup_cons. split; [| apply NoDup_singleton].
  by intros [=]%list_elem_of_singleton.
Defined.

Example two_seeds_batches :
  batches (trace (run two_seeds).2) = [["Q42"; "Q5"]; ["Q1"]] ∧
  conn_target <$> fetched_conns (trace (run two_seeds).2)
    = ["Q1"; "Q1"; "Q1"; "Q5"; "Q1"; "Q1"; "Q1"; "Q5"].
Proof. split; vm_compute; reflexivity. Qed.

Lemma generateGraph_well_formed_witness :
  (∀ e, e ∈ resp_edges BuilderSpec.one_seed_response →
     edge_arrows e = "to" ∧ edge_hidden e = None ∧
     edge_category e = Some (EdgeCategories.categorizeEdge (edge_label e)) ∧
     ∃ n, n ∈ resp_nodes BuilderSpec.one_seed_response ∧ node_id n = edge_to e) ∧
  (∀ n, n ∈ resp_nodes BuilderSpec.one_seed_response →
     ∃ url, node_image n = Some url ∧ url ≠ "") ∧
  (∀ q, q ∈ seeds_of BuilderSpec.one_seed →
     ∃ n, n ∈ resp_nodes BuilderSpec.one_seed_response ∧ node_id n = q ∧
          node_isInitialEntity n = Some true).
Proof.
  exact (@generateGraph_well_formed FetcherSpec.sample_env BuilderSpec.one_seed false
           FetcherSpec.empty_world BuilderSpec.one_seed_response BuilderSpec.one_seed_world
           BuilderSpec.one_seed_run).
Defined.

End CrawlSpec.

(** ** Response cache: the sweep *)

Module SweepSpec.
Import ApiSpec.

Section sweep.
Context `{E : Environment}.

(** X22. [clearExpiredCache] removes exactly the entries that
    [cachedFetch] would not answer from: an entry stays if and only if
    [isCacheValid] accepts it at the time of the sweep (an entry whose
    age is exactly the TTL is expired for both).  So a call of
    [cachedFetch] that would be answered from the cache before the sweep
    is answered from it after the sweep, with the same data.  Nothing
    else of the state changes. *)
Theorem clearExpiredCache_agrees (w : World) :
  ∃ w', clearExpiredCache w = (Ok tt, w') ∧
    env w' = env w ∧ qidStore w' = qidStore w ∧ connStore w' = connStore w ∧
    trace w' = trace w ∧
    (∀ key, responseCache w' !! key =
              match responseCache w !! key with
              | Some cached =>
                  if isCacheValid (now (env w)) (Some cached) then Some cached else None
              | None => None
              end) ∧
    (∀ key fetcher cached,
       responseCache w !! key = Some cached → fresh w cached →
       cachedFetch key fetcher false w' = (Ok (cr_data cached), w')).
Proof.
  eexists. split; [reflexivity |]. cbn [env qidStore connStore trace with_responseCache].
  assert (∀ key, responseCache
            (with_responseCache
               (filter (λ kv, ¬ (now (env w) - cr_timestamp kv.2 >= CACHE_TTL)%Z)) w) !! key =
          match responseCache w !! key with
          | Some cached =>
              if isCacheValid (now (env w)) (Some cached) then Some cached else None
          | None => None
          end) as Hlookup.
  { intros key. cbn [responseCache with_responseCache]. rewrite map_lookup_filter.
    destruct (responseCache w !! key) as [cached |]; [| done]. cbn.
    unfold isCacheValid. case_bool_decide; case_guard; (done || lia). }
  split_and!; try done.
  intros key fetcher cached Hc Hf. apply cachedFetch_hit; [| exact Hf].
  rewrite Hlookup, Hc. unfold isCacheValid. by rewrite bool_decide_eq_true_2.
Qed.

End sweep.
End SweepSpec.

(** ** Properties of the state of the view *)

Module StateSpec.
Import GraphState BatchSpec BuilderSpec.

(** The last element with the id [k]. *)
Definition latest {V} (id : V → string) (k : string) (l : list V) : option V :=
  last (filter (λ x, id x = k) l).

Lemma latest_snoc {V} (id : V → string) k l x :
  latest id k (l ++ [x]) = if decide (id x = k) then Some x else latest id k l.
Proof.
  unfold latest. rewrite filter_app. destruct (decide (id x = k)) as [Hk | Hk].
  - rewrite filter_cons_True by done. rewrite filter_nil. apply last_snoc.
  - rewrite filter_cons_False by done. by rewrite filter_nil, app_nil_r.
Qed.

Lemma latest_app {V} (id : V → string) k l1 l2 :
  latest id k (l1 ++ l2) = match latest id k l2 with Some x => Some x | None => latest id k l1 end.
Proof.
  induction l2 as [| x l2 IH] using rev_ind; [by rewrite app_nil_r |].
  rewrite app_assoc, !latest_snoc. by destruct (decide (id x = k)).
Qed.

(** Every key is the id of its value, and no key occurs twice. *)
Definition keyed {V} (id : V → string) (m : list (string * V)) : Prop :=
  NoDup m.*1 ∧ ∀ k v, (k, v) ∈ m → id v = k.

Lemma keyed_set {V} (id : V → string) x m : keyed id m → keyed id (OMap.set (id x) x m).
Proof.
  intros [Hnd Hid]. split; [by apply set_keys_NoDup |].
  intros k v [[= -> ->] | Hin]%elem_of_set; [done | by apply Hid].
Qed.

Lemma set_all_spec {V} (id : V → string) l :
  ∀ m, keyed id m →
  keyed id (set_all id l m) ∧
  ∀ k, OMap.get k (set_all id l m) =
       match latest id k l with Some x => Some x | None => OMap.get k m end.
Proof.
  induction l as [| x l IH] using rev_ind; intros m Hm; [done |].
  unfold set_all in *. rewrite foldl_snoc. destruct (IH m Hm) as [Hk Hget]. split.
  - by apply keyed_set.
  - intros k. rewrite get_set, latest_snoc, Hget.
    destruct (decide (k = id x)) as [-> | Hne].
    + by rewrite decide_True.
    + by rewrite decide_False by done.
Qed.

Lemma get_elem {V} k (v : V) m : NoDup m.*1 → (k, v) ∈ m → OMap.get k m = Some v.
Proof.
  induction m as [| [k0 v0] m IH]; intros Hnd Hin; [by apply elem_of_nil in Hin |].
  apply NoDup_cons in Hnd as [Hfresh Hnd]. cbn.
  apply elem_of_cons in Hin as [[= -> ->] | Hin]; [by rewrite decide_True |].
  destruct (decide (k0 = k)) as [-> | Hne]; [| by apply IH].
  destruct Hfresh. by apply (list_elem_of_fmap_2 fst _ (k, v)).
Qed.

Lemma values_keyed {V} (id : V → string) m : keyed id m → id <$> OMap.values m = m.*1.
Proof.
  intros [_ Hid]. unfold OMap.values. rewrite <- list_fmap_compose.
  apply list_fmap_ext. intros i [k v] Hi. cbn. apply Hid. by eapply list_elem_of_lookup_2.
Qed.

(** Appending values with new ids to the map appends them to its values. *)
Lemma set_all_fresh {V} (id : V → string) l :
  ∀ m, NoDup (m.*1 ++ (id <$> l)) → OMap.values (set_all id l m) = OMap.values m ++ l.
Proof.
  induction l as [| x l IH]; intros m Hnd; [by rewrite app_nil_r |].
  unfold set_all in *. cbn [foldl].
  assert (OMap.get (id x) m = None) as Hget.
  { apply get_None. apply NoDup_app in Hnd as (_ & Hdisj & _). intros Hin.
    apply (Hdisj _ Hin). rewrite fmap_cons. left. }
  assert (OMap.set (id x) x m = m ++ [(id x, x)]) as Hset by (unfold OMap.set; by rewrite Hget).
  rewrite IH.
  - rewrite Hset. unfold OMap.values. rewrite fmap_app, <- app_assoc. done.
  - rewrite Hset, fmap_app. cbn. rewrite <- app_assoc. exact Hnd.
Qed.

Lemma merge_by_spec {V} (id : V → string) (new prev : list V) :
  NoDup (id <$> merge_by id new prev) ∧
  (∀ x, x ∈ merge_by id new prev ↔ latest id (id x) (prev ++ new) = Some x) ∧
  (NoDup (id <$> prev ++ new) → merge_by id new prev = prev ++ new).
Proof.
  unfold merge_by.
  assert (keyed id ([] : list (string * V))) as Hnil.
  { split; [constructor | by intros ? ? ?%elem_of_nil]. }
  destruct (set_all_spec id prev [] Hnil) as [Hk1 Hget1].
  destruct (set_all_spec id new _ Hk1) as [Hk2 Hget2].
  split_and!.
  - rewrite (values_keyed id _ Hk2). apply Hk2.
  - intros x. rewrite latest_app.
    assert (latest id (id x) prev = OMap.get (id x) (set_all id prev [])) as ->.
    { rewrite Hget1. by destruct (latest id (id x) prev). }
    rewrite <- Hget2. destruct Hk2 as [Hnd Hid]. split.
    + intros ((k & v) & -> & Hin)%list_elem_of_fmap. cbn.
      rewrite (Hid _ _ Hin). by apply get_elem.
    + intros Hget%get_Some_elem. by apply (list_elem_of_fmap_2 snd _ (id x, x)).
  - intros Hnd. rewrite fmap_app in Hnd.
    assert (OMap.values (set_all id prev []) = prev) as Hprev.
    { rewrite (set_all_fresh id prev []); [done |]. by apply NoDup_app in Hnd as (? & _ & _). }
    rewrite set_all_fresh, Hprev; [done |].
    by rewrite <- (values_keyed id _ Hk1), Hprev.
Qed.

(** X23. [addNodes] and [addEdges] leave one node, respectively edge, for
    every id: of the old and new ones with the same id, the last one
    (the new one, if there is one).  Old and new ones with pairwise
    distinct ids are all kept, the new ones after the old ones. *)
Theorem addNodes_addEdges_by_id (st : State) :
  (∀ newNodes,
     let st' := addNodes newNodes st in
     NoDup (node_id <$> nodes st') ∧
     (∀ n, n ∈ nodes st' ↔ latest node_id (node_id n) (nodes st ++ newNodes) = Some n) ∧
     (NoDup (node_id <$> nodes st ++ newNodes) → nodes st' = nodes st ++ newNodes) ∧
     edges st' = edges st) ∧
  (∀ newEdges,
     let st' := addEdges newEdges st in
     NoDup (edge_id <$> edges st') ∧
     (∀ e, e ∈ edges st' ↔ latest edge_id (edge_id e) (edges st ++ newEdges) = Some e) ∧
     (NoDup (edge_id <$> edges st ++ newEdges) → edges st' = edges st ++ newEdges) ∧
     nodes st' = nodes st).
Proof.
  split.
  - intros newNodes. cbn zeta. cbn [addNodes setNodes nodes edges].
    destruct (merge_by_spec node_id newNodes (nodes st)) as (? & ? & ?). done.
  - intros newEdges. cbn zeta. cbn [addEdges setEdges nodes edges].
    destruct (merge_by_spec edge_id newEdges (edges st)) as (? & ? & ?). done.
Qed.

(** The endpoints of every edge are nodes. *)
Definition closed (st : State) : Prop :=
  ∀ e, e ∈ edges st → edge_from e ∈ node_id <$> nodes st ∧ edge_to e ∈ node_id <$> nodes st.

Lemma removeNode_fields nodeId st :
  nodes (removeNode nodeId st) = filter (λ n, node_id n ≠ nodeId) (nodes st) ∧
  edges (removeNode nodeId st) =
    filter (λ e, edge_from e ≠ nodeId ∧ edge_to e ≠ nodeId) (edges st) ∧
  selectedNode (removeNode nodeId st) =
    match selectedNode st with
    | Some n => if decide (node_id n = nodeId) then None else Some n
    | None => None
    end.
Proof.
  unfold removeNode. destruct (selectedNode st) as [n |] eqn:Hsel; [| by rewrite <- Hsel].
  by case_decide.
Qed.

(** X24. After [removeNode] no node has the removed id, no edge starts or
    ends at it, and it is not selected; the other nodes and edges are
    kept in their order.  If the endpoints of every edge were nodes
    before, they still are. *)
Theorem removeNode_no_dangling (nodeId : string) (st : State) :
  let st' := removeNode nodeId st in
  nodeId ∉ node_id <$> nodes st' ∧
  (∀ e, e ∈ edges st' → edge_from e ≠ nodeId ∧ edge_to e ≠ nodeId) ∧
  (∀ n, selectedNode st' = Some n → node_id n ≠ nodeId) ∧
  (∀ n, n ∈ nodes st' ↔ n ∈ nodes st ∧ node_id n ≠ nodeId) ∧
  (∀ e, e ∈ edges st' ↔ e ∈ edges st ∧ edge_from e ≠ nodeId ∧ edge_to e ≠ nodeId) ∧
  nodes st' `sublist_of` nodes st ∧ edges st' `sublist_of` edges st ∧
  (closed st → closed st').
Proof.
  cbn zeta. destruct (removeNode_fields nodeId st) as (Hn & He & Hs).
  assert (∀ n, n ∈ nodes (removeNode nodeId st) ↔ n ∈ nodes st ∧ node_id n ≠ nodeId) as Hnodes.
  { intros n. rewrite Hn, list_elem_of_filter. tauto. }
  assert (∀ e, e ∈ edges (removeNode nodeId st) ↔
               e ∈ edges st ∧ edge_from e ≠ nodeId ∧ edge_to e ≠ nodeId) as Hedges.
  { intros e. rewrite He, list_elem_of_filter. tauto. }
  split_and!; [| | | done | done | | |].
  - intros (n & Hid & [_ Hne]%Hnodes)%list_elem_of_fmap. by apply Hne.
  - intros e He'%Hedges. tauto.
  - intros n. rewrite Hs. destruct (selectedNode st) as [n' |]; [| done].
    case_decide; [done |]. by intros [= <-].
  - rewrite Hn. apply sublist_filter.
  - rewrite He. apply sublist_filter.
  - intros Hclosed e [He' [Hfrom Hto]]%Hedges. destruct (Hclosed e He') as [Hf Ht].
    apply list_elem_of_fmap in Hf as (n1 & Hn1 & Hin1).
    apply list_elem_of_fmap in Ht as (n2 & Hn2 & Hin2).
    split; apply list_elem_of_fmap.
    + exists n1. split; [done |]. apply Hnodes. split; [done | congruence].
    + exists n2. split; [done |]. apply Hnodes. split; [done | congruence].
Qed.

(** *** The degrees *)

Import GraphView.

Lemma bump_lookup k v (degree : gmap string nat) :
  default 0 (bump k degree !! v) = default 0 (degree !! v) + (if decide (k = v) then 1 else 0).
Proof.
  unfold bump. destruct (decide (k = v)) as [-> | Hne].
  - by rewrite lookup_insert_eq.
  - rewrite lookup_insert_ne by done. lia.
Qed.

Lemma bump_is_Some k v (degree : gmap string nat) :
  is_Some (bump k degree !! v) ↔ k = v ∨ is_Some (degree !! v).
Proof.
  unfold bump. destruct (decide (k = v)) as [-> | Hne].
  - rewrite lookup_insert_eq. split; [by left | by eexists].
  - rewrite lookup_insert_ne by done. naive_solver.
Qed.

Lemma bump_positive k (degree : gmap string nat) :
  map_Forall (λ _ d, 0 < d) degree → map_Forall (λ _ d, 0 < d) (bump k degree).
Proof. intros Hpos. unfold bump. apply map_Forall_insert_2; [lia | done]. Qed.

Lemma sum_list_add {A} (g h : A → nat) vs :
  sum_list ((λ v, g v + h v) <$> vs) = sum_list (g <$> vs) + sum_list (h <$> vs).
Proof. induction vs as [| v vs IH]; [done |]. cbn. rewrite IH. lia. Qed.

Lemma sum_list_indicator (k : string) vs :
  NoDup vs → k ∈ vs → sum_list ((λ v, if decide (k = v) then 1 else 0) <$> vs) = 1.
Proof.
  induction vs as [| v vs IH]; intros Hnd Hin; [by apply elem_of_nil in Hin |].
  apply NoDup_cons in Hnd as [Hfresh Hnd]. cbn. destruct (decide (k = v)) as [-> | Hne].
  - assert (sum_list ((λ v0, if decide (v = v0) then 1 else 0) <$> vs) = 0) as ->; [| done].
    clear IH Hnd Hin. induction vs as [| v' vs IH]; [done |].
    apply not_elem_of_cons in Hfresh as [Hne Hfresh]. rewrite fmap_cons.
    rewrite decide_False by done. cbn [sum_list]. by rewrite IH.
  - apply elem_of_cons in Hin as [-> | Hin]; [done |]. by rewrite IH.
Qed.

Lemma count_by {A} (f : A → string) (l : list A) vs :
  NoDup vs → (∀ x, x ∈ l → f x ∈ vs) →
  sum_list ((λ v, length (filter (λ x, f x = v) l)) <$> vs) = length l.
Proof.
  intros Hnd. induction l as [| a l IH]; intros Hin.
  - clear Hnd Hin. induction vs as [| v vs IHvs]; [done |].
    rewrite fmap_cons. cbn [sum_list]. by rewrite IHvs.
  - cbn [length]. rewrite <- IH by (intros x Hx; apply Hin; by right).
    change (S ?n) with (1 + n).
    rewrite <- (sum_list_indicator (f a) vs Hnd) at 1 by (apply Hin; left).
    rewrite <- sum_list_add. f_equal.
    apply list_fmap_ext. intros ? v ?. cbn beta. rewrite filter_cons.
    by destruct (decide (f a = v)).
Qed.

Lemma computeNodeDegrees_lookup edges v :
  default 0 (computeNodeDegrees edges !! v) =
    length (filter (λ e, edge_from e = v) edges) + length (filter (λ e, edge_to e = v) edges).
Proof.
  unfold computeNodeDegrees. induction edges as [| e edges IH] using rev_ind; [done |].
  rewrite foldl_snoc, !bump_lookup, IH, !filter_app, !length_app, !filter_cons, !filter_nil.
  destruct (decide (edge_from e = v)), (decide (edge_to e = v)); cbn; lia.
Qed.

Lemma computeNodeDegrees_is_Some edges v :
  is_Some (computeNodeDegrees edges !! v) ↔ ∃ e, e ∈ edges ∧ (edge_from e = v ∨ edge_to e = v).
Proof.
  unfold computeNodeDegrees. induction edges as [| e edges IH] using rev_ind.
  - cbn. rewrite lookup_empty. split; [by intros [? ?] | by intros (? & ?%elem_of_nil & _)].
  - rewrite foldl_snoc, !bump_is_Some, IH. setoid_rewrite elem_of_app.
    setoid_rewrite list_elem_of_singleton. naive_solver.
Qed.

(** X25. [computeNodeDegrees] gives every endpoint of an edge the number
    of edges that start at it plus the number of edges that end at it (a
    loop counts twice); the nodes without an edge have no entry, for
    which the callers read 0.  The degrees add up to twice the number of
    edges. *)
Theorem computeNodeDegrees_handshake (edges : list GraphEdge) :
  let degree := computeNodeDegrees edges in
  (∀ v, default 0 (degree !! v) =
          length (filter (λ e, edge_from e = v) edges) +
          length (filter (λ e, edge_to e = v) edges)) ∧
  (∀ v, is_Some (degree !! v) ↔ ∃ e, e ∈ edges ∧ (edge_from e = v ∨ edge_to e = v)) ∧
  sum_list (map_to_list degree).*2 = 2 * length edges.
Proof.
  cbn zeta. split; [apply computeNodeDegrees_lookup |].
  split; [apply computeNodeDegrees_is_Some |].
  set (degree := computeNodeDegrees edges).
  assert ((map_to_list degree).*2 =
          (λ v, default 0 (degree !! v)) <$> (map_to_list degree).*1) as ->.
  { rewrite <- list_fmap_compose. apply list_fmap_ext. intros i [k d] Hi. cbn.
    apply list_elem_of_lookup_2, elem_of_map_to_list in Hi. by rewrite Hi. }
  assert (∀ e, e ∈ edges →
            edge_from e ∈ (map_to_list degree).*1 ∧ edge_to e ∈ (map_to_list degree).*1) as Hin.
  { intros e He.
    split; apply list_elem_of_fmap.
    - destruct (proj2 (computeNodeDegrees_is_Some edges (edge_from e))) as [d Hd];
        [by exists e; auto |].
      exists (edge_from e, d). split; [done |]. by apply elem_of_map_to_list.
    - destruct (proj2 (computeNodeDegrees_is_Some edges (edge_to e))) as [d Hd];
        [by exists e; auto |].
      exists (edge_to e, d). split; [done |]. by apply elem_of_map_to_list. }
  erewrite list_fmap_ext; [| intros i v ?; apply computeNodeDegrees_lookup].
  rewrite sum_list_add.
  rewrite (count_by edge_from), (count_by edge_to);
    [lia | apply NoDup_fst_map_to_list | apply Hin | apply NoDup_fst_map_to_list | apply Hin].
Qed.

(** *** The expansion of a node *)

Section expand.
Context `{E : Environment}.
Import App.

(** The node and the edge that [expandNode] makes of a connection. *)
Definition node_of (conn : ConnectionData) : GraphNode :=
  let grp := conn_group conn in
  mkNode (conn_target conn) (conn_target_label conn) grp
    (if bool_decide (grp = "person") then "circularImage" else "dot")
    (Some match conn_image conn with
          | Some v => if bool_decide (v = "") then PLACEHOLDER_IMG else v
          | None => PLACEHOLDER_IMG
          end)
    (if bool_decide (grp = "person") then 30
     else if bool_decide (grp = "country") then 22
     else if bool_decide (grp = "city") then 18 else 15)
    ("Type: " +:+ conn_type_label conn) None.

Definition edge_of (conn : ConnectionData) : GraphEdge :=
  mkEdge (edge_id_of (conn_source conn) (conn_target conn) (conn_label conn))
    (conn_source conn) (conn_target conn) (conn_label conn) "to" None
    (Some (EdgeCategories.categorizeEdge (conn_label conn))).

Record expanding (st : State) (connections : list ConnectionData) (acc : expansion)
    : Prop := {
  ex_node_ids : ∀ k, k ∈ existingNodeIds acc ↔ k ∈ node_id <$> nodes st ++ newNodes acc;
  ex_edge_ids : ∀ k, k ∈ existingEdgeIds acc ↔ k ∈ edge_id <$> edges st ++ newEdges acc;
  ex_nodes : NoDup (node_id <$> nodes st ++ newNodes acc);
  ex_edges : NoDup (edge_id <$> edges st ++ newEdges acc);
  ex_covered : ∀ conn, conn ∈ connections →
    conn_target conn ∈ node_id <$> nodes st ++ newNodes acc ∧
    edge_id (edge_of conn) ∈ edge_id <$> edges st ++ newEdges acc;
  ex_new_nodes : ∀ n, n ∈ newNodes acc → ∃ conn, conn ∈ connections ∧ n = node_of conn;
  ex_new_edges : ∀ e, e ∈ newEdges acc → ∃ conn, conn ∈ connections ∧ e = edge_of conn
}.

Lemma elem_of_ids_snoc {V} (id : V → string) l1 l2 x k :
  k ∈ id <$> l1 ++ l2 ++ [x] ↔ k ∈ id <$> l1 ++ l2 ∨ k = id x.
Proof.
  rewrite app_assoc, fmap_app, elem_of_app. cbn. by rewrite list_elem_of_singleton.
Qed.

Lemma NoDup_ids_snoc {V} (id : V → string) l1 l2 x :
  NoDup (id <$> l1 ++ l2) → id x ∉ id <$> l1 ++ l2 → NoDup (id <$> l1 ++ l2 ++ [x]).
Proof.
  intros Hnd Hout. rewrite app_assoc, fmap_app. apply NoDup_app.
  split; [done |]. split; [| apply NoDup_singleton].
  by intros k Hk ->%list_elem_of_singleton.
Qed.

Lemma expand_connections st connections :
  NoDup (node_id <$> nodes st) → NoDup (edge_id <$> edges st) →
  expanding st connections
    (foldl expand_connection
       (mkExpansion (list_to_set (node_id <$> nodes st)) (list_to_set (edge_id <$> edges st))
          [] [])
       connections).
Proof.
  intros Hn He. induction connections as [| conn connections IH] using rev_ind.
  - cbn. split; cbn [existingNodeIds existingEdgeIds newNodes newEdges];
      rewrite ?app_nil_r; try done.
    + intros k. by rewrite elem_of_list_to_set.
    + intros k. by rewrite elem_of_list_to_set.
    + by intros ? ?%elem_of_nil.
    + by intros ? ?%elem_of_nil.
    + by intros ? ?%elem_of_nil.
  - rewrite foldl_snoc. set (acc := foldl _ _ connections) in *.
    destruct IH as [Hnids Heids Hnd Hed Hcov Hnn Hne].
    unfold expand_connection. cbn zeta.
    fold (node_of conn).
    set (acc1 := if decide (conn_target conn ∈ existingNodeIds acc) then acc else _).
    assert ((∀ k, k ∈ existingNodeIds acc1 ↔ k ∈ node_id <$> nodes st ++ newNodes acc1) ∧
            NoDup (node_id <$> nodes st ++ newNodes acc1) ∧
            conn_target conn ∈ node_id <$> nodes st ++ newNodes acc1 ∧
            (∀ k, k ∈ node_id <$> nodes st ++ newNodes acc →
                  k ∈ node_id <$> nodes st ++ newNodes acc1) ∧
            (∀ n, n ∈ newNodes acc1 → n ∈ newNodes acc ∨ n = node_of conn) ∧
            existingEdgeIds acc1 = existingEdgeIds acc ∧ newEdges acc1 = newEdges acc)
      as (Hnids1 & Hnd1 & Htgt & Hmono & Hnn1 & Heq1 & Heq2).
    { subst acc1. destruct (decide (conn_target conn ∈ existingNodeIds acc)) as [Hin | Hout].
      - split_and!; try done; [by apply Hnids | by left].
      - cbn [existingNodeIds existingEdgeIds newNodes newEdges]. split_and!; try done.
        + intros k. rewrite elem_of_union, elem_of_singleton, Hnids, elem_of_ids_snoc.
          cbn. tauto.
        + apply NoDup_ids_snoc; [done |]. cbn. intros Hin. by apply Hout, Hnids.
        + apply elem_of_ids_snoc. by right.
        + intros k Hk. apply elem_of_ids_snoc. by left.
        + intros n [Hin | ->%list_elem_of_singleton]%elem_of_app; [by left | by right]. }
    clearbody acc1.
    change (edge_id_of (conn_source conn) (conn_target conn) (conn_label conn))
      with (edge_id (edge_of conn)).
    fold (edge_of conn).
    assert (∀ n, n ∈ newNodes acc1 →
              ∃ c, c ∈ connections ++ [conn] ∧ n = node_of c) as Hnn2.
    { intros n [Hin' | ->]%Hnn1.
      - destruct (Hnn n Hin') as (c & Hc & ->). exists c. split; [| done].
        apply elem_of_app. by left.
      - exists conn. split; [| done]. apply elem_of_app. right. by apply list_elem_of_singleton. }
    destruct (decide (edge_id (edge_of conn) ∈ existingEdgeIds acc1)) as [Hin | Hout].
    + split; try done.
      * intros k. rewrite Heq1, Heq2. apply Heids.
      * by rewrite Heq2.
      * intros c [Hc | ->%list_elem_of_singleton]%elem_of_app.
        -- destruct (Hcov c Hc) as [? ?]. split; [by apply Hmono | by rewrite Heq2].
        -- split; [done |]. rewrite Heq2. apply Heids. by rewrite <- Heq1.
      * intros e. rewrite Heq2. intros (c & Hc & ->)%Hne. exists c. split; [| done].
        apply elem_of_app. by left.
    + split; cbn [existingNodeIds existingEdgeIds newNodes newEdges]; try done; rewrite ?Heq2.
      * intros k. rewrite elem_of_union, elem_of_singleton, Heq1, Heids, elem_of_ids_snoc.
        tauto.
      * apply NoDup_ids_snoc; [done |]. intros Hin. apply Hout. rewrite Heq1. by apply Heids.
      * intros c [Hc | ->%list_elem_of_singleton]%elem_of_app.
        -- destruct (Hcov c Hc) as [? ?]. split; [by apply Hmono |].
           apply elem_of_ids_snoc. by left.
        -- split; [done |]. apply elem_of_ids_snoc. by right.
      * intros e [(c & Hc & ->)%Hne | ->%list_elem_of_singleton]%elem_of_app.
        -- exists c. split; [| done]. apply elem_of_app. by left.
        -- exists conn. split; [| done]. apply elem_of_app. right. by apply list_elem_of_singleton.
Qed.

Lemma merge_by_fresh {V} (id : V → string) (new prev : list V) :
  NoDup (id <$> prev ++ new) → merge_by id new prev = prev ++ new.
Proof. apply merge_by_spec. Qed.

(** X26. [expandNode] on a state whose nodes have distinct ids and whose
    edges have distinct ids (and that no other action changes during the
    call) does not fail.  It keeps the nodes and edges of the state and
    appends new ones, made of the connections that
    [fetchBatchConnections] returned for the node; the ids stay
    distinct; every connection returned has its target among the nodes
    and its edge among the edges; every new edge ends at a node of the
    new state.  Loading is off at the end, and no error is set. *)
Theorem expandNode_appends (nodeId : string) (st : State) (w : World) :
  NoDup (node_id <$> nodes st) → NoDup (edge_id <$> edges st) →
  ∃ connections addedNodes addedEdges st' w',
    fetchBatchConnections [nodeId] w = (Ok connections, w') ∧
    expandNode nodeId st w = (Ok st', w') ∧
    nodes st' = nodes st ++ addedNodes ∧ edges st' = edges st ++ addedEdges ∧
    NoDup (node_id <$> nodes st') ∧ NoDup (edge_id <$> edges st') ∧
    (∀ conn, conn ∈ connections →
       conn_target conn ∈ node_id <$> nodes st' ∧
       edge_id_of (conn_source conn) (conn_target conn) (conn_label conn)
         ∈ edge_id <$> edges st') ∧
    (∀ n, n ∈ addedNodes → ∃ conn, conn ∈ connections ∧ n = node_of conn) ∧
    (∀ e, e ∈ addedEdges →
       edge_to e ∈ node_id <$> nodes st' ∧ ∃ conn, conn ∈ connections ∧ e = edge_of conn) ∧
    isLoading st' = false ∧ error st' = error st ∧ selectedNode st' = selectedNode st ∧
    progressMessage st' =
      Some ("Added " +:+ pretty (length addedNodes) +:+ " nodes, " +:+
            pretty (length addedEdges) +:+ " edges").
Proof.
  intros Hn He.
  destruct (FetcherSpec.returns_fetchBatchConnections [nodeId] w) as (connections & w' & Hfetch).
  pose proof (expand_connections st connections Hn He) as Hex.
  set (done := foldl _ _ connections) in Hex.
  destruct Hex as [Hnids Heids Hnd Hed Hcov Hnn Hne].
  set (st1 := setIsLoading true (setProgressMessage (Some ("Expanding " +:+ nodeId +:+ "...")) st)).
  set (st2 := if bool_decide (0 < length (newNodes done))
              then addNodes (newNodes done) st1 else st1).
  set (st3 := if bool_decide (0 < length (newEdges done))
              then addEdges (newEdges done) st2 else st2).
  assert (nodes st2 = nodes st ++ newNodes done ∧ edges st2 = edges st) as [Hn2 He2].
  { subst st2. case_bool_decide as Hlen.
    - cbn [addNodes setNodes nodes edges st1 setIsLoading setProgressMessage].
      by rewrite merge_by_fresh.
    - destruct (newNodes done); [by rewrite app_nil_r | cbn in Hlen; lia]. }
  assert (nodes st3 = nodes st ++ newNodes done ∧ edges st3 = edges st ++ newEdges done)
    as [Hn3 He3].
  { subst st3. case_bool_decide as Hlen.
    - cbn [addEdges setEdges nodes edges]. rewrite He2. by rewrite merge_by_fresh.
    - rewrite He2. destruct (newEdges done); [by rewrite app_nil_r | cbn in Hlen; lia]. }
  assert (isLoading st3 = true ∧ error st3 = error st ∧ selectedNode st3 = selectedNode st)
    as (_ & Herr & Hsel).
  { subst st3 st2. by repeat case_bool_decide. }
  exists connections, (newNodes done), (newEdges done),
    (setIsLoading false (setProgressMessage
       (Some ("Added " +:+ pretty (length (newNodes done)) +:+ " nodes, " +:+
              pretty (length (newEdges done)) +:+ " edges")) st3)), w'.
  split; [done |]. split.
  { unfold expandNode, bind, try_catch. by rewrite Hfetch. }
  cbn [setIsLoading setProgressMessage nodes edges isLoading error selectedNode progressMessage].
  rewrite Hn3, He3. split_and!; try done.
  intros e He'. split; [| by apply Hne].
  destruct (Hne e He') as (c & Hc & ->). by apply Hcov.
Qed.

End expand.

Definition sample_state : State :=
  mkState [mkNode "Q42" "Douglas Adams" "person" "circularImage" (Some PLACEHOLDER_IMG) 30
                  "Type: Person" (Some true)]
          [] None None false None None false [] false.

Lemma expandNode_appends_witness :
  ∃ connections addedNodes addedEdges st' w',
    @fetchBatchConnections FetcherSpec.sample_env ["Q42"] FetcherSpec.empty_world
      = (Ok connections, w') ∧
    @App.expandNode FetcherSpec.sample_env "Q42" sample_state FetcherSpec.empty_world
      = (Ok st', w') ∧
    nodes st' = nodes sample_state ++ addedNodes ∧
    edges st' = edges sample_state ++ addedEdges ∧
    NoDup (node_id <$> nodes st') ∧ NoDup (edge_id <$> edges st') ∧
    (∀ conn, conn ∈ connections →
       conn_target conn ∈ node_id <$> nodes st' ∧
       edge_id_of (conn_source conn) (conn_target conn) (conn_label conn)
         ∈ edge_id <$> edges st') ∧
    (∀ n, n ∈ addedNodes → ∃ conn, conn ∈ connections ∧ n = node_of conn) ∧
    (∀ e, e ∈ addedEdges →
       edge_to e ∈ node_id <$> nodes st' ∧ ∃ conn, conn ∈ connections ∧ e = edge_of conn) ∧
    isLoading st' = false ∧ error st' = error sample_state ∧
    selectedNode st' = selectedNode sample_state ∧
    progressMessage st' =
      Some ("Added " +:+ pretty (length addedNodes) +:+ " nodes, " +:+
            pretty (length addedEdges) +:+ " edges").
Proof.
  apply (@expandNode_appends FetcherSpec.sample_env "Q42" sample_state FetcherSpec.empty_world).
  - apply NoDup_singleton.
  - apply NoDup_nil_2.
Defined.

End StateSpec.

(** ** Name resolution: names that are not strings *)

Module UntypedSpec.
Import FetcherSpec.

Section untyped.
Context `{E : Environment}.

(** On a string this is the function of the typed program. *)
Lemma getWikidataId_string s : Untyped.getWikidataId (Untyped.JsString s) = getWikidataId s.
Proof. reflexivity. Qed.

Lemma getCachedQid_string s : Untyped.getCachedQid (Untyped.JsString s) = getCachedQid s.
Proof. reflexivity. Qed.

(** C10 (amended). On every name that is a string, or another value
    that string concatenation accepts (any but a Symbol or an object
    without a conversion to a string), and in every state,
    [getWikidataId] returns normally; and when the cache has no
    (unexpired) entry under the string form of the name, it returns
    [null] if the name fails sanitization (it is not a string, or is
    empty or only white space, or longer than 200 characters after
    trimming) and if the lookup query fails. *)
Theorem getWikidataId_contains_exceptions (name : Untyped.js_value) (w : World) :
  (∃ key, Untyped.appended name = Ok key) →
  (∃ r w', Untyped.getWikidataId name w = (Ok r, w')) ∧
  (∀ w1, Untyped.getCachedQid name w = (Ok None, w1) →
     (match name with
      | Untyped.JsString s =>
          Sanitization.trim s = "" ∨ 200 < String.length (Sanitization.trim s)
      | _ => True
      end →
      Untyped.getWikidataId name w = (Ok None, w1)) ∧
     (∀ sanitized message e',
        Untyped.sanitizeEntityName name = Ok sanitized →
        http (LabelLookup sanitized) (env w1) = (inl message, e') →
        ∃ w', Untyped.getWikidataId name w = (Ok None, w'))).
Proof.
  destruct name as [s | | | text]; intros [key Hname]; [| done | done |].
  - rewrite getWikidataId_string, getCachedQid_string.
    split; [apply returns_getWikidataId |].
    intros w1 Hmiss. unfold getWikidataId, bind. rewrite Hmiss. split.
    + intros Hbad. by destruct (sanitizeEntityName_throws s Hbad) as [e ->].
    + intros sanitized message e' Hs Hfail. cbn in Hs. rewrite Hs.
      unfold try_catch, querySparql, log, modify, ret. simpl. rewrite Hfail. simpl.
      by eexists.
  - assert (∀ w0, Untyped.getCachedQid (Untyped.JsOther text) w0 = getFromStorage qid_store text w0)
      as Hkey by done.
    split.
    + unfold Untyped.getWikidataId, bind. rewrite Hkey.
      destruct (returns_getFromStorage qid_store text w) as ([cached |] & w' & ->);
        by eexists _, _.
    + intros w1 Hmiss. unfold Untyped.getWikidataId, bind. rewrite Hmiss. by split.
Qed.

End untyped.

(** The number [42], with no entry under its string form in the cache,
    and a string for which the query fails: the result is [null]. *)
Lemma getWikidataId_contains_exceptions_witness :
  ((∃ r w', @Untyped.getWikidataId sample_env (Untyped.JsOther "42") empty_world = (Ok r, w')) ∧
   (∀ w1, @Untyped.getCachedQid sample_env (Untyped.JsOther "42") empty_world = (Ok None, w1) →
      (True →
       @Untyped.getWikidataId sample_env (Untyped.JsOther "42") empty_world = (Ok None, w1)) ∧
      (∀ sanitized message e',
         Untyped.sanitizeEntityName (Untyped.JsOther "42") = Ok sanitized →
         @http sample_env (LabelLookup sanitized) (env w1) = (inl message, e') →
         ∃ w', @Untyped.getWikidataId sample_env (Untyped.JsOther "42") empty_world
               = (Ok None, w')))) ∧
  ((∃ r w', @Untyped.getWikidataId sample_env (Untyped.JsString "Somebody") empty_world
            = (Ok r, w')) ∧
   (∀ w1, @Untyped.getCachedQid sample_env (Untyped.JsString "Somebody") empty_world
          = (Ok None, w1) →
      (Sanitization.trim "Somebody" = "" ∨ 200 < String.length (Sanitization.trim "Somebody") →
       @Untyped.getWikidataId sample_env (Untyped.JsString "Somebody") empty_world
       = (Ok None, w1)) ∧
      (∀ sanitized message e',
         Untyped.sanitizeEntityName (Untyped.JsString "Somebody") = Ok sanitized →
         @http sample_env (LabelLookup sanitized) (env w1) = (inl message, e') →
         ∃ w', @Untyped.getWikidataId sample_env (Untyped.JsString "Somebody") empty_world
               = (Ok None, w')))).
Proof.
  split.
  - apply (@getWikidataId_contains_exceptions sample_env (Untyped.JsOther "42") empty_world).
    by eexists.
  - apply (@getWikidataId_contains_exceptions sample_env (Untyped.JsString "Somebody")
             empty_world).
    by eexists.
Defined.

(** C10, as the claim states it, fails for a name that is a Symbol, and
    for one that is an object without a prototype: building the cache
    key throws before the [try] blocks are entered, and the caller
    receives the exception. *)
Lemma getWikidataId_symbol_throws :
  (@Untyped.getWikidataId sample_env Untyped.JsSymbol empty_world).1
  = Throw "TypeError: Cannot convert a Symbol value to a string" ∧
  (@Untyped.getWikidataId sample_env Untyped.JsBareObject empty_world).1
  = Throw "TypeError: Cannot convert object to primitive value".
Proof. split; vm_compute; reflexivity. Qed.

(** Other values than strings that have no entry in the cache give
    [null], without a query. *)
Example getWikidataId_not_a_string :
  (@Untyped.getWikidataId sample_env (Untyped.JsOther "null") empty_world).1 = Ok None ∧
  trace (@Untyped.getWikidataId sample_env (Untyped.JsOther "null") empty_world).2 = [] ∧
  (@Untyped.getWikidataId sample_env (Untyped.JsOther "42") empty_world).1 = Ok None ∧
  (@Untyped.getWikidataId sample_env (Untyped.JsString "Somebody") empty_world).1 = Ok None.
Proof. split_and!; vm_compute; reflexivity. Qed.

End UntypedSpec.
